(** * UK trading tax calculator: the per-code matching engine

    A shallow embedding of [taxcalcdict.py] (classes [TaxCalcDict] and
    [TaxCalcElement]).  Quantities, prices and commissions are exact
    rationals; dates are day numbers; the [matched] dictionary of an element
    is a finite map from sequence numbers to trade groups; Python exceptions
    are an explicit error result threaded through a small state monad over
    the element ([self]).  Every [while] loop takes the number of turns it
    may make ([fuel]) and ends with [OutOfFuel] if it would need more; with
    more fuel than the ledger has trades no loop runs out, and more fuel
    never changes an outcome.  The ledger and the trade group belong to
    other modules ([tradelist.py], [taxcalctradegroup.py]); what the engine
    uses of them is written after their documented contract. *)

From Stdlib Require Import ZArith QArith Qabs Lqa.
From stdpp Require Import base option list gmap strings sorting.

Local Open Scope Z_scope.

(** ** Trades *)

Inductive TradeType := Open | Close.

Record Trade := mkTrade {
  Code : string;
  Date : Z;
  Quantity : Q;
  Price : Q;
  Commission : Q;
  tradetype : TradeType
}.

Definition is_close (t : Trade) : bool :=
  match tradetype t with Close => true | Open => false end.

(** [trade.modify(tradetype=...)] *)
Definition modify (t : Trade) (ty : TradeType) : Trade :=
  mkTrade (Code t) (Date t) (Quantity t) (Price t) (Commission t) ty.

Definition Qlt_bool (a b : Q) : bool := negb (Qle_bool b a).

(** Two trades are on opposite sides when their signed quantities have
    strictly opposite signs. *)
Definition opposite_side (a b : Trade) : bool :=
  (Qlt_bool 0 (Quantity a) && Qlt_bool (Quantity b) 0)
  || (Qlt_bool (Quantity a) 0 && Qlt_bool 0 (Quantity b)).

(** Modelled from the spec: splitting a trade ([tradelist.py] and the trade
    class are not part of the sources).  A Trade can be split into two Trades
    whose quantities sum to the original and whose commission is apportioned
    pro-rata to quantity; splitting never changes price, date, code, or type.
    [split_trade t q] is the pair (piece of quantity [q], remainder). *)
Definition split_trade (t : Trade) (q : Q) : Trade * Trade :=
  let c := (Commission t * (q / Quantity t))%Q in
  (mkTrade (Code t) (Date t) q (Price t) c (tradetype t),
   mkTrade (Code t) (Date t) (Quantity t - q)%Q (Price t)
           (Commission t - c)%Q (tradetype t)).

(** ** Exceptions and the state monad of an element *)

Inductive exn :=
| AssertionError
| AttributeError
| IndexError
| ArithmeticError
| CantFindMatch (lots : Q) (closing : Trade)
| OutOfFuel.

Inductive result (A : Type) :=
| Ok (a : A)
| Raise (e : exn).
Arguments Ok {A} a.
Arguments Raise {A} e.

(** ** The trade ledger: a list of trades *)

Abbreviation TradeList := (list Trade).

(** [[idx for idx, x in enumerate(l) if p(x)]], counting from [i]. *)
Fixpoint find_indices (p : Trade → bool) (l : TradeList) (i : nat) : list nat :=
  match l with
  | [] => []
  | t :: l' =>
      if p t then i :: find_indices p l' (S i) else find_indices p l' (S i)
  end.

Definition date_at (L : TradeList) (i : nat) : Z :=
  from_option Date 0 (L !! i).

(** Among the candidate indices, the one whose trade has the earliest date;
    the first candidate wins a tie. *)
Fixpoint earliest_of (L : TradeList) (cands : list nat) : option nat :=
  match cands with
  | [] => None
  | i :: rest =>
      match earliest_of L rest with
      | None => Some i
      | Some j => if date_at L i <=? date_at L j then Some i else Some j
      end
  end.

(** Modelled from the spec: [TradeList.final_position] is missing from the
    sources.  final_net_position(): signed sum of remaining quantities. *)
Definition final_position (L : TradeList) : Q :=
  foldr (fun t acc => (Quantity t + acc)%Q) 0%Q L.

(** Modelled from the spec: [TradeList.check_same_code] is missing from the
    sources.  All-same-code: every trade of the ledger carries one code. *)
Definition check_same_code (L : TradeList) : bool :=
  match L with
  | [] => true
  | t :: l' => forallb (fun u => bool_decide (Code u = Code t)) l'
  end.

(** Modelled from the spec: [TradeList.pop_earliest_closing_trade] is missing
    from the sources.  pop_earliest_closing_trade(): removes and returns the
    chronologically earliest Trade whose type is Close; returns "none"
    sentinel if no closing trades remain. *)
Definition pop_earliest_closing_trade (L : TradeList)
  : option Trade * TradeList :=
  match earliest_of L (find_indices is_close L 0) with
  | None => (None, L)
  | Some i => (L !! i, delete i L)
  end.

Definition same_day_match (ref t : Trade) : bool :=
  bool_decide (Date t = Date ref) && opposite_side t ref.

(** Modelled from the spec: [TradeList.idx_of_last_trade_same_day] is missing
    from the sources.  index_of_last_trade_on_same_day(reference): finds,
    among remaining trades with date equal to reference's date and opposite
    side, the index of the most recently added matching trade (tie-break:
    latest by ledger insertion among same-day candidates); returns none if
    none exists. *)
Definition idx_of_last_trade_same_day (L : TradeList) (ref : Trade)
  : option nat :=
  last (find_indices (same_day_match ref) L 0).

Definition next_30days_match (ref t : Trade) : bool :=
  bool_decide (Date ref < Date t) && bool_decide (Date t - Date ref < 30)
  && opposite_side t ref.

(** Modelled from the spec: [TradeList.idx_of_first_trade_next_30days] is
    missing from the sources.  index_of_first_trade_within_30_days_after
    (reference): finds the earliest-dated opposite-side trade strictly within
    30 calendar days after reference's date; returns none if none exists.
    Trades dated before the reference are never eligible here. *)
Definition idx_of_first_trade_next_30days (L : TradeList) (ref : Trade)
  : option nat :=
  earliest_of L (find_indices (next_30days_match ref) L 0).

Definition before_match (ref t : Trade) : bool :=
  bool_decide (Date t < Date ref).

(** Modelled from the spec: [TradeList.idx_of_trades_before_datetime] is
    missing from the sources.  indices_of_trades_before(reference): all
    remaining trades dated strictly before reference's date (any side). *)
Definition idx_of_trades_before_datetime (L : TradeList) (ref : Trade)
  : list nat :=
  find_indices (before_match ref) L 0.

(** The quantity of magnitude [|q|] carrying the sign of [t]. *)
Definition signed_like (t : Trade) (q : Q) : Q :=
  if Qle_bool 0 (Quantity t) then Qabs q else (- Qabs q)%Q.

(** Modelled from the spec: [TradeList.partial_pop_idx] is missing from the
    sources.  partial_pop_at_index(index, max_quantity): removes up to
    max_quantity of quantity from the trade at index.  If the trade's
    remaining quantity exceeds max_quantity, it is split: the consumed
    portion (with proportional commission) is returned and removed; the
    remainder stays in the ledger at the same position.  If quantity <=
    max_quantity, the whole trade is removed and returned.  An index outside
    the list raises, as Python's list indexing does. *)
Definition partial_pop_idx (i : nat) (maxtopop : Q) (L : TradeList)
  : result (Trade * TradeList) :=
  match L !! i with
  | None => Raise IndexError
  | Some t =>
      if Qle_bool (Qabs (Quantity t)) (Qabs maxtopop)
      then Ok (t, delete i L)
      else
        let '(piece, rest) := split_trade t (signed_like t maxtopop) in
        Ok (piece, <[i := rest]> L)
  end.

Definition scale_trade (f : Q) (t : Trade) : Trade :=
  mkTrade (Code t) (Date t) (Quantity t * f)%Q (Price t)
          (Commission t * f)%Q (tradetype t).

(** The trades of [l] (numbered from [i]) whose index is in [idxs]. *)
Fixpoint select_idx (idxs : list nat) (l : TradeList) (i : nat) : TradeList :=
  match l with
  | [] => []
  | t :: l' =>
      if bool_decide (i ∈ idxs) then t :: select_idx idxs l' (S i)
      else select_idx idxs l' (S i)
  end.

(** [l] with the trades at [idxs] rewritten by [f], or dropped where [f]
    gives nothing. *)
Fixpoint rewrite_idx (f : Trade → option Trade) (idxs : list nat)
    (l : TradeList) (i : nat) : TradeList :=
  match l with
  | [] => []
  | t :: l' =>
      if bool_decide (i ∈ idxs)
      then match f t with
           | Some t' => t' :: rewrite_idx f idxs l' (S i)
           | None => rewrite_idx f idxs l' (S i)
           end
      else t :: rewrite_idx f idxs l' (S i)
  end.

(** Modelled from the spec: [TradeList._proportionate_pop_idx] is missing
    from the sources.  proportionate_pop_across(indices, target_quantity):
    consumes exactly target_quantity in aggregate from the trades at the
    given indices, apportioned to each trade in proportion to its own
    remaining quantity (so every contributing lot shrinks by the same
    fraction); returns the list of consumed partial-Trade pieces.  Fails with
    an ArithmeticError-class condition if the indices' total available
    quantity is less than target_quantity.  A lot consumed whole leaves the
    ledger (a trade never has quantity zero). *)
Definition _proportionate_pop_idx (idxs : list nat) (target : Q)
    (L : TradeList) : result (TradeList * TradeList) :=
  let lots := select_idx idxs L 0 in
  let total := final_position lots in
  if Qlt_bool (Qabs total) (Qabs target) then Raise ArithmeticError
  else
    let f := (Qabs target / Qabs total)%Q in
    if Qeq_bool f 1
    then Ok (lots, rewrite_idx (fun _ => None) idxs L 0)
    else Ok (scale_trade f <$> lots,
             rewrite_idx (fun t => Some (scale_trade (1 - f) t)) idxs L 0).

(** Stable insertion by date, for [date_sort]. *)
Fixpoint insert_by_date (t : Trade) (l : TradeList) : TradeList :=
  match l with
  | [] => [t]
  | u :: l' =>
      if Date t <=? Date u then t :: l else u :: insert_by_date t l'
  end.

(** Modelled from the spec: [TradeList.date_sort] is missing from the
    sources; the leftover-position resolution takes "the chronologically
    last remaining trade" after it.  A stable sort by date, oldest first. *)
Definition date_sort (L : TradeList) : TradeList :=
  foldr insert_by_date [] L.

(** [list.pop()]: removes and returns the last item; raises on an empty
    list. *)
Definition pop_last (L : TradeList) : result (Trade * TradeList) :=
  match last L with
  | None => Raise IndexError
  | Some t => Ok (t, removelast L)
  end.

(** ** Trade groups *)

(** The group built for one closing trade; [s104] is the pooled tier. *)
Record TaxCalcTradeGroup := mkGroup {
  closing_trade : Trade;
  same_day : TradeList;
  within_month : TradeList;
  s104 : TradeList
}.

(** [TaxCalcTradeGroup(trade_to_match)] *)
Definition new_group (t : Trade) : TaxCalcTradeGroup := mkGroup t [] [] [].

Definition matches_as_tradelist (g : TaxCalcTradeGroup) : TradeList :=
  same_day g ++ within_month g ++ s104 g.

(** Modelled from the spec: [taxcalctradegroup.py] is missing from the
    sources.  The group's remaining unmatched quantity: the closing trade's
    signed quantity plus the signed quantities consumed so far, which carry
    the opposite sign. *)
Definition count_unmatched (g : TaxCalcTradeGroup) : Q :=
  (Quantity (closing_trade g) + final_position (matches_as_tradelist g))%Q.

(** Modelled from the spec: [taxcalctradegroup.py] is missing from the
    sources.  A group is fully matched ([is_unmatched()] becomes false)
    exactly when the sum of quantities across same_day + within_month +
    pooled equals the closing trade's quantity in magnitude, that is when
    nothing remains unmatched. *)
Definition is_unmatched (g : TaxCalcTradeGroup) : bool :=
  negb (Qeq_bool (count_unmatched g) 0).

Definition append_same_day (g : TaxCalcTradeGroup) (t : Trade) :=
  mkGroup (closing_trade g) (same_day g ++ [t]) (within_month g) (s104 g).

Definition append_within_month (g : TaxCalcTradeGroup) (t : Trade) :=
  mkGroup (closing_trade g) (same_day g) (within_month g ++ [t]) (s104 g).

Definition set_s104 (g : TaxCalcTradeGroup) (l : TradeList) :=
  mkGroup (closing_trade g) (same_day g) (within_month g) l.

(** ** Elements *)

Record TaxCalcElement := mkElement {
  matched : gmap Z TaxCalcTradeGroup;
  unmatched : TradeList
}.

(** [TaxCalcElement.__init__] *)
Definition TaxCalcElement_init (trade_list : TradeList)
  : result TaxCalcElement :=
  if check_same_code trade_list then Ok (mkElement ∅ trade_list)
  else Raise AssertionError.

(** Computations that read and update [self] and may raise. *)
Definition Tax (A : Type) : Type := TaxCalcElement → result (A * TaxCalcElement).

Definition ret {A} (a : A) : Tax A := fun self => Ok (a, self).

Definition bind {A B} (m : Tax A) (k : A → Tax B) : Tax B :=
  fun self =>
    match m self with
    | Ok (a, self') => k a self'
    | Raise e => Raise e
    end.

Definition raise {A} (e : exn) : Tax A := fun _ => Raise e.

#[global] Instance tax_ret : MRet Tax := @ret.
#[global] Instance tax_bind : MBind Tax := fun A B k m => bind m k.

(** Read something off [self.unmatched]. *)
Definition ask {A} (f : TradeList → A) : Tax A :=
  fun self => Ok (f (unmatched self), self).

(** Run a ledger method that returns a value and the updated ledger. *)
Definition on_unmatched {A} (f : TradeList → result (A * TradeList)) : Tax A :=
  fun self =>
    match f (unmatched self) with
    | Ok (a, L) => Ok (a, mkElement (matched self) L)
    | Raise e => Raise e
    end.

(** [self.matched[n] = g] *)
Definition record_group (n : Z) (g : TaxCalcTradeGroup) : Tax unit :=
  fun self => Ok (tt, mkElement (<[n := g]> (matched self)) (unmatched self)).

(** The same-day tier of [match_for_group]. *)
Fixpoint same_day_loop (fuel : nat) (trade_to_match : Trade)
    (tax_calc_group : TaxCalcTradeGroup) : Tax TaxCalcTradeGroup :=
  if is_unmatched tax_calc_group then
    match fuel with
    | O => raise OutOfFuel
    | S fuel' =>
        tradeidx ← ask (fun L => idx_of_last_trade_same_day L trade_to_match);
        match tradeidx with
        | None => ret tax_calc_group
        | Some i =>
            popped_trade ←
              on_unmatched (partial_pop_idx i (count_unmatched tax_calc_group));
            same_day_loop fuel' trade_to_match
              (append_same_day tax_calc_group popped_trade)
        end
    end
  else ret tax_calc_group.

(** The 30-day tier of [match_for_group]. *)
Fixpoint within_month_loop (fuel : nat) (trade_to_match : Trade)
    (tax_calc_group : TaxCalcTradeGroup) : Tax TaxCalcTradeGroup :=
  if is_unmatched tax_calc_group then
    match fuel with
    | O => raise OutOfFuel
    | S fuel' =>
        tradeidx ←
          ask (fun L => idx_of_first_trade_next_30days L trade_to_match);
        match tradeidx with
        | None => ret tax_calc_group
        | Some i =>
            popped_trade ←
              on_unmatched (partial_pop_idx i (count_unmatched tax_calc_group));
            within_month_loop fuel' trade_to_match
              (append_within_month tax_calc_group popped_trade)
        end
    end
  else ret tax_calc_group.

(** The pooled (S104) tier of [match_for_group]. *)
Definition s104_tier (trade_to_match : Trade)
    (tax_calc_group : TaxCalcTradeGroup) : Tax TaxCalcTradeGroup :=
  if is_unmatched tax_calc_group then
    tradeidxlist ←
      ask (fun L => idx_of_trades_before_datetime L trade_to_match);
    if bool_decide (0 < length tradeidxlist)%nat then
      popped_trades ←
        on_unmatched
          (_proportionate_pop_idx tradeidxlist (count_unmatched tax_calc_group));
      ret (set_s104 tax_calc_group popped_trades)
    else ret tax_calc_group
  else ret tax_calc_group.

(** The tiers of [match_for_group], up to the final check.  [fuel] bounds
    the number of turns of each loop. *)
Definition run_tiers (fuel : nat) (trade_to_match : Trade) (CGTcalc : bool)
  : Tax TaxCalcTradeGroup :=
  let tax_calc_group := new_group trade_to_match in
  tax_calc_group ←
    (if CGTcalc then
       tax_calc_group ← same_day_loop fuel trade_to_match tax_calc_group;
       within_month_loop fuel trade_to_match tax_calc_group
     else ret tax_calc_group);
  s104_tier trade_to_match tax_calc_group.

(** [TaxCalcElement.match_for_group] *)
Definition match_for_group (fuel : nat) (trade_to_match : Trade)
    (CGTcalc : bool) : Tax TaxCalcTradeGroup :=
  tax_calc_group ← run_tiers fuel trade_to_match CGTcalc;
  if is_unmatched tax_calc_group then
    raise (CantFindMatch (count_unmatched tax_calc_group)
                         (closing_trade tax_calc_group))
  else ret tax_calc_group.

(** The first loop of [allocate_trades]: closing trades, earliest first. *)
Fixpoint closing_loop (fuel : nat) (CGTcalc : bool) (num_trades : Z) : Tax Z :=
  match fuel with
  | O => raise OutOfFuel
  | S fuel' =>
      earliest_closing_trade ←
        on_unmatched (fun L => Ok (pop_earliest_closing_trade L));
      match earliest_closing_trade with
      | None => ret num_trades
      | Some t =>
          tax_calc_group ← match_for_group fuel' t CGTcalc;
          record_group num_trades tax_calc_group;;
          closing_loop fuel' CGTcalc (num_trades + 1)
      end
  end.

(** The second loop of [allocate_trades]: the leftover trades, latest
    first, each re-typed as a closing trade. *)
Fixpoint leftover_loop (fuel : nat) (CGTcalc : bool) (num_trades : Z) : Tax Z :=
  n ← ask length;
  if bool_decide (0 < n)%nat then
    match fuel with
    | O => raise OutOfFuel
    | S fuel' =>
        on_unmatched (fun L => Ok (tt, date_sort L));;
        trade_to_match ← on_unmatched pop_last;
        let trade_to_match := modify trade_to_match Close in
        tax_calc_group ← match_for_group fuel' trade_to_match CGTcalc;
        record_group num_trades tax_calc_group;;
        leftover_loop fuel' CGTcalc (num_trades + 1)
    end
  else ret num_trades.

(** [TaxCalcElement.allocate_trades]; the value returned with the updated
    element is the number the next group would get. *)
Definition allocate_trades (fuel : nat) (CGTcalc : bool) : Tax Z :=
  num_trades ← closing_loop fuel CGTcalc 1;
  n ← ask length;
  if bool_decide (0 < n)%nat then
    pos ← ask final_position;
    if Qeq_bool pos 0 then
      num_trades ← leftover_loop fuel CGTcalc num_trades;
      n ← ask length;
      if bool_decide (n = 0%nat) then ret num_trades else raise AssertionError
    else ret num_trades
  else ret num_trades.

(** [TaxCalcDict]: one element per code. *)
Abbreviation TaxCalcDict := (gmap string TaxCalcElement).

(** [[taxelement.allocate_trades(CGTcalc) for taxelement in self.values()]]:
    the elements are matched one after the other, the first exception ends
    the run. *)
Fixpoint allocate_each (fuel : nat) (CGTcalc : bool)
    (items : list (string * TaxCalcElement))
  : result (list (string * TaxCalcElement)) :=
  match items with
  | [] => Ok []
  | (code, taxelement) :: rest =>
      match allocate_trades fuel CGTcalc taxelement with
      | Ok (_, taxelement') =>
          match allocate_each fuel CGTcalc rest with
          | Ok rest' => Ok ((code, taxelement') :: rest')
          | Raise e => Raise e
          end
      | Raise e => Raise e
      end
  end.

(** [TaxCalcDict.allocate_dict_trades] *)
Definition allocate_dict_trades (fuel : nat) (CGTcalc : bool)
    (self : TaxCalcDict) : result TaxCalcDict :=
  match allocate_each fuel CGTcalc (map_to_list self) with
  | Ok items => Ok (list_to_map items)
  | Raise e => Raise e
  end.

(** ** Reports *)

(** The tuple a group reports for a tax year, as [display_summary_tax]
    unpacks it. *)
Record TaxTuple := mkTaxTuple {
  gbp_disposal_proceeds : Q;
  gbp_allowable_costs : Q;
  gbp_gains : Q;
  gbp_losses : Q;
  number_disposals : Q;
  gbp_commissions : Q;
  gbp_taxes : Q;
  gbp_gross_profit : Q;
  abs_quantity : Q;
  gbp_net_profit : Q
}.

(** Modelled from the spec: [zero_tax_tuple] of [taxcalctradegroup.py] is
    missing from the sources; it is the defined all-zero tuple. *)
Definition zero_tax_tuple : TaxTuple := mkTaxTuple 0 0 0 0 0 0 0 0 0 0.

(** A float result: a number or numpy's not-a-number. *)
Inductive float := nan | num (q : Q).

(** Python's [sum(xs)] *)
Definition py_sum (xs : list Q) : Q := foldl Qplus 0%Q xs.

(** [np.mean(xs)]: the arithmetic mean, not-a-number on an empty list. *)
Definition np_mean (xs : list Q) : float :=
  match xs with
  | [] => nan
  | _ => num (py_sum xs / inject_Z (Z.of_nat (length xs)))
  end.

(** [map(sum, zip( *taxdata))], for a list of tuples that is not empty. *)
Definition sum_tuples (taxdata : list TaxTuple) : TaxTuple :=
  mkTaxTuple
    (py_sum (gbp_disposal_proceeds <$> taxdata))
    (py_sum (gbp_allowable_costs <$> taxdata))
    (py_sum (gbp_gains <$> taxdata))
    (py_sum (gbp_losses <$> taxdata))
    (py_sum (number_disposals <$> taxdata))
    (py_sum (gbp_commissions <$> taxdata))
    (py_sum (gbp_taxes <$> taxdata))
    (py_sum (gbp_gross_profit <$> taxdata))
    (py_sum (abs_quantity <$> taxdata))
    (py_sum (gbp_net_profit <$> taxdata)).

Definition string_le (a b : string) : Prop := String.leb a b = true.

#[global] Instance string_le_dec a b : Decision (string_le a b).
Proof. unfold string_le. apply _. Defined.

Section Reports.

(** [TaxCalcTradeGroup.group_display_taxes(taxyear, CGTCalc, ...)] lives in
    [taxcalctradegroup.py], which is not part of the sources: the reports
    below take it as a parameter. *)
Variable group_display_taxes : Z → bool → TaxCalcTradeGroup → TaxTuple.

(** [groupidlist = list(self.matched.keys()); groupidlist.sort()], then the
    tuple of each group in that order. *)
Definition groupidlist (self : TaxCalcElement) : list Z :=
  merge_sort Z.le (fst <$> map_to_list (matched self)).

Definition taxdata_of (taxyear : Z) (CGTCalc : bool) (self : TaxCalcElement)
  : list TaxTuple :=
  omap (fun groupid =>
          group_display_taxes taxyear CGTCalc <$> matched self !! groupid)
       (groupidlist self).

(** [TaxCalcElement.display_taxes_for_code] *)
Definition display_taxes_for_code (taxyear : Z) (CGTCalc : bool)
    (self : TaxCalcElement) : TaxTuple :=
  let taxdata := taxdata_of taxyear CGTCalc self in
  if bool_decide (length taxdata = 0%nat) then zero_tax_tuple
  else sum_tuples taxdata.

(** [TaxCalcElement.average_commission] *)
Definition average_commission (taxyear : Z) (self : TaxCalcElement) : float :=
  let taxdata := taxdata_of taxyear true self in
  let commissions := gbp_commissions <$> taxdata in
  let quants := abs_quantity <$> taxdata in
  let total_comm := py_sum commissions in
  let total_quant := py_sum quants in
  if Qeq_bool total_quant 0 then
    if Qeq_bool total_comm 0 then nan else num 0
  else num (total_comm / (2 * total_quant)).

(** [groupidlist.sort()] where [groupidlist = self.matched.keys()]: the
    module is written for Python 3 (the other reports sort
    [list(self.matched.keys())], and [map] and [values] results are wrapped
    in [list]), where [keys()] gives a view of the keys; a view is not a
    list and has no [sort], so the call raises. *)
Definition keys_view_sort (keys : list Z) : result (list Z) :=
  Raise AttributeError.

(** [TaxCalcElement.individual_profits] *)
Definition individual_profits (taxyear : Z) (self : TaxCalcElement)
  : result (list Q) :=
  match keys_view_sort (fst <$> map_to_list (matched self)) with
  | Raise e => Raise e
  | Ok groupidlist =>
      let taxdata :=
        omap (fun groupid =>
                group_display_taxes taxyear true <$> matched self !! groupid)
             groupidlist in
      Ok (gbp_net_profit <$> taxdata)
  end.

(** [codes = list(self.keys()); codes.sort()] *)
Definition sorted_codes (d : TaxCalcDict) : list string :=
  merge_sort string_le (fst <$> map_to_list d).

(** [[self[code].individual_profits(taxyear) for code in codes]] *)
Fixpoint profit_lists (taxyear : Z) (elements : list TaxCalcElement)
  : result (list (list Q)) :=
  match elements with
  | [] => Ok []
  | taxelement :: rest =>
      match individual_profits taxyear taxelement with
      | Raise e => Raise e
      | Ok profits =>
          match profit_lists taxyear rest with
          | Raise e => Raise e
          | Ok others => Ok (profits :: others)
          end
      end
  end.

(** [TaxCalcDict.individual_profits] *)
Definition dict_individual_profits (taxyear : Z) (d : TaxCalcDict)
  : result (list Q) :=
  let codes := sorted_codes d in
  match profit_lists taxyear (omap (fun code => d !! code) codes) with
  | Raise e => Raise e
  | Ok profit_list => Ok (mjoin profit_list)
  end.

(** The figures [win_loss_ratio_etc] derives from the individual profits. *)
Definition win_loss_figures (indi_profits : list Q)
  : float * float * nat * nat :=
  let wins := filter (fun x => Qlt_bool 0 x = true) indi_profits in
  let losses := filter (fun x => Qlt_bool x 0 = true) indi_profits in
  let avg_win := np_mean wins in
  let avg_loss := np_mean losses in
  let count_wins := length wins in
  let count_losses := length losses in
  (avg_win, avg_loss, count_wins, count_losses).

(** [TaxCalcDict.win_loss_ratio_etc] *)
Definition win_loss_ratio_etc (tax_year : Z) (d : TaxCalcDict)
  : result (float * float * nat * nat) :=
  match dict_individual_profits tax_year d with
  | Raise e => Raise e
  | Ok indi_profits => Ok (win_loss_figures indi_profits)
  end.

(** The tuples of all groups recorded for an element, in no particular
    order. *)
Definition reported (taxyear : Z) (CGTCalc : bool) (self : TaxCalcElement)
  : list TaxTuple :=
  (fun kg => group_display_taxes taxyear CGTCalc kg.2)
    <$> map_to_list (matched self).

End Reports.

(** ** The rest of the module *)

(** [[TaxCalcElement(tradedict[code]) for code in tradedict.keys()]]: the
    elements are built one after the other, the first failed assertion ends
    the construction. *)
Fixpoint init_each (items : list (string * TradeList))
  : result (list (string * TaxCalcElement)) :=
  match items with
  | [] => Ok []
  | (code, trade_list) :: rest =>
      match TaxCalcElement_init trade_list with
      | Ok taxelement =>
          match init_each rest with
          | Ok rest' => Ok ((code, taxelement) :: rest')
          | Raise e => Raise e
          end
      | Raise e => Raise e
      end
  end.

(** [TaxCalcDict.__init__], from a dictionary of ledgers by code. *)
Definition TaxCalcDict_init (tradedict : gmap string TradeList)
  : result TaxCalcDict :=
  match init_each (map_to_list tradedict) with
  | Ok items => Ok (list_to_map items)
  | Raise e => Raise e
  end.

(** A value, or the [TypeError] of subscripting what cannot be
    subscripted. *)
Inductive or_type_error (A : Type) :=
| Returned (a : A)
| TypeError.
Arguments Returned {A} a.
Arguments TypeError {A}.

(** [TaxCalcElement.code].  With groups in [self.matched] the first branch
    subscripts [self.matched.values()], which is a view of the values and
    cannot be subscripted. *)
Definition code (self : TaxCalcElement) : or_type_error string :=
  if bool_decide (0 < size (matched self))%nat then TypeError
  else
    match unmatched self with
    | t :: _ => Returned (Code t)
    | [] => Returned ""%string
    end.

(** [TaxCalcElement.closing_trade_dates]: the closing dates of the groups,
    in the order of [self.matched.values()].  The groups are recorded under
    increasing numbers, so this is the order of the keys. *)
Definition closing_trade_dates (self : TaxCalcElement) : list Z :=
  omap (fun groupid =>
          (fun g => Date (closing_trade g)) <$> matched self !! groupid)
       (merge_sort Z.le (fst <$> map_to_list (matched self))).

(** The levels of detail [display_taxes] accepts. *)
Definition reporting_levels : list string :=
  ["VERBOSE"; "CALCULATE"; "NORMAL"; "BRIEF"; "ANNUAL"]%string.

Section More_reports.

(** As above, [group_display_taxes] is a parameter; so is [which_tax_year]
    of [utils.py]. *)
Variable group_display_taxes : Z → bool → TaxCalcTradeGroup → TaxTuple.
Variable which_tax_year : Z → Z.

(** [TaxCalcElement.return_profits_for_code]: the last field of the tuple of
    each group, in the order of the group numbers. *)
Definition return_profits_for_code (taxyear : Z) (CGTCalc : bool)
    (self : TaxCalcElement) : list Q :=
  gbp_net_profit <$> taxdata_of group_display_taxes taxyear CGTCalc self.

(** [dict([(code, f(self[code])) for code in codes])] with the codes
    sorted. *)
Definition dict_by_code {A} (f : TaxCalcElement → A) (d : TaxCalcDict)
  : gmap string A :=
  list_to_map
    (omap (fun code => (fun taxelement => (code, f taxelement)) <$> d !! code)
          (sorted_codes d)).

(** [TaxCalcDict.return_profits] *)
Definition return_profits (taxyear : Z) (CGTCalc : bool) (d : TaxCalcDict)
  : gmap string (list Q) :=
  dict_by_code (return_profits_for_code taxyear CGTCalc) d.

(** [TaxCalcDict.average_commission] *)
Definition dict_average_commission (taxyear : Z) (d : TaxCalcDict)
  : gmap string float :=
  dict_by_code (average_commission group_display_taxes taxyear) d.

(** [TaxCalcDict.display_taxes], without what it writes to the report: the
    summary it hands to [display_summary_tax], or nothing when it reports
    that there are no relevant trades. *)
Definition display_taxes (taxyear : Z) (CGTCalc : bool)
    (reportinglevel : string) (d : TaxCalcDict) : result (option TaxTuple) :=
  if bool_decide (reportinglevel ∈ reporting_levels) then
    let elements_taxdata :=
      omap (fun code =>
              display_taxes_for_code group_display_taxes taxyear CGTCalc
                <$> d !! code)
           (sorted_codes d) in
    if bool_decide (length elements_taxdata = 0%nat) then Ok None
    else Ok (Some (sum_tuples elements_taxdata))
  else Raise AssertionError.

(** [TaxCalcDict.tax_year_span] *)
Definition tax_year_span (d : TaxCalcDict) : list Z :=
  let date_list := (map_to_list d).*2 ≫= closing_trade_dates in
  let tax_years := which_tax_year <$> date_list in
  merge_sort Z.le (remove_dups tax_years).

End More_reports.

(** ** Examples used below *)

Definition ex_trade (d : Z) (q p c : Q) (ty : TradeType) : Trade :=
  mkTrade "ABC" d q p c ty.

(** Buy 100 on day 1, sell 100 on day 10. *)
Definition ex_buy : Trade := ex_trade 1 100 10 5 Open.
Definition ex_sell : Trade := ex_trade 10 (-100) 12 5 Close.
Definition ex_ledger : TradeList := [ex_buy; ex_sell].
Definition ex_element : TaxCalcElement := mkElement ∅ ex_ledger.
Definition ex_group : TaxCalcTradeGroup := mkGroup ex_sell [] [] [ex_buy].

(** A sale of 100 on day 10 against a purchase of 40 before it, one of 30
    on the day and one of 30 ten days later. *)
Definition ex_before : Trade := ex_trade 1 40 10 2 Open.
Definition ex_same_day : Trade := ex_trade 10 30 11 2 Open.
Definition ex_later : Trade := ex_trade 20 30 9 2 Open.
Definition ex_three : TradeList := [ex_before; ex_same_day; ex_later].
Definition ex_three_group : TaxCalcTradeGroup :=
  mkGroup ex_sell [ex_same_day] [ex_later] [ex_before].

(** Two trades typed Open that cancel out, the sale after the purchase; and
    two that cancel out on one and the same day. *)
Definition ex_flat : TradeList := [ex_buy; modify ex_sell Open].
Definition ex_flat_same_day : TradeList :=
  [ex_buy; ex_trade 1 (-100) 12 5 Open].

(** A trade of another code. *)
Definition ex_other : Trade := mkTrade "XYZ" 2 50 7 1 Open.

(** A group report that is the same for every group: break-even after a
    commission of 10 on a quantity of 100. *)
Definition ex_tuple : TaxTuple := mkTaxTuple 1010 1010 0 0 1 10 0 10 100 0.
Definition ex_display (taxyear : Z) (CGTCalc : bool) (g : TaxCalcTradeGroup)
  : TaxTuple := ex_tuple.
Definition ex_matched : TaxCalcElement :=
  mkElement {[ 1 := ex_group ]} [].
Definition ex_dict : TaxCalcDict := {[ "ABC" := ex_matched ]}.
Definition ex_zero_display (taxyear : Z) (CGTCalc : bool)
    (g : TaxCalcTradeGroup) : TaxTuple := zero_tax_tuple.

(** ** Vocabulary of the properties *)

(** A group is fully matched when nothing of its closing trade remains
    unmatched: the consumed pieces cancel the closing quantity, so their
    sum equals it in magnitude. *)
Definition fully_matched (g : TaxCalcTradeGroup) : Prop :=
  is_unmatched g = false
  ∧ (final_position (same_day g ++ within_month g ++ s104 g)
     == - Quantity (closing_trade g))%Q
  ∧ (Qabs (final_position (same_day g ++ within_month g ++ s104 g))
     == Qabs (Quantity (closing_trade g)))%Q.

(** Two quantities on the same side. *)
Definition same_sign (a b : Q) : Prop :=
  ((0 < a ↔ 0 < b) ∧ (a < 0 ↔ b < 0))%Q.

(** [t'] is [t] or a part of it: same code, date, type and price, and on
    the same side. *)
Definition like (t' t : Trade) : Prop :=
  Code t' = Code t ∧ Date t' = Date t ∧ tradetype t' = tradetype t
  ∧ Price t' = Price t ∧ same_sign (Quantity t') (Quantity t).

(** Every trade of [L'] is a trade of [L] or a part of one. *)
Definition refines (L' L : TradeList) : Prop :=
  ∀ t', t' ∈ L' → ∃ t, t ∈ L ∧ like t' t.

(** [c] lies between zero and [q]. *)
Definition towards (q c : Q) : Prop :=
  ((0 <= c ∧ c <= q) ∨ (q <= c ∧ c <= 0))%Q.

(** The share of every lot that a proportionate pop of [target] takes. *)
Definition proportion (target : Q) (lots : TradeList) : Q :=
  (Qabs target / Qabs (final_position lots))%Q.

(** [ps] are the pieces a proportionate pop of [target] takes from [lots]:
    every lot gives the same share of itself, lots given whole are taken as
    they are. *)
Definition pooled_pieces (target : Q) (lots ps : TradeList) : Prop :=
  lots ≠ []
  ∧ (Qabs target <= Qabs (final_position lots))%Q
  ∧ ((proportion target lots == 1)%Q ∧ ps = lots
     ∨ (0 <= proportion target lots < 1)%Q
       ∧ ps = scale_trade (proportion target lots) <$> lots).

(** The trades a tier looks for are gone from a ledger. *)
Definition no_same_day (tm : Trade) (L : TradeList) : Prop :=
  Forall (fun t => same_day_match tm t = false) L.

Definition no_next_30days (tm : Trade) (L : TradeList) : Prop :=
  Forall (fun t => next_30days_match tm t = false) L.

(** The trades dated before the closing trade. *)
Definition trades_before (tm : Trade) (L : TradeList) : TradeList :=
  filter (fun t => before_match tm t = true) L.

(** Not later than. *)
Definition date_le (a b : Trade) : Prop := Date a ≤ Date b.

(** The common shape of the same-day and 30-day loops: [lookup] finds the
    next trade to consume and [append] adds the popped piece to the group. *)
Fixpoint tier_loop (lookup : TradeList → Trade → option nat)
    (append : TaxCalcTradeGroup → Trade → TaxCalcTradeGroup)
    (fuel : nat) (trade_to_match : Trade)
    (tax_calc_group : TaxCalcTradeGroup) : Tax TaxCalcTradeGroup :=
  if is_unmatched tax_calc_group then
    match fuel with
    | O => raise OutOfFuel
    | S fuel' =>
        tradeidx ← ask (fun L => lookup L trade_to_match);
        match tradeidx with
        | None => ret tax_calc_group
        | Some i =>
            popped_trade ←
              on_unmatched (partial_pop_idx i (count_unmatched tax_calc_group));
            tier_loop lookup append fuel' trade_to_match
              (append tax_calc_group popped_trade)
        end
    end
  else ret tax_calc_group.

(** The runs of such a loop that end normally. *)
Inductive tier_run (lookup : TradeList → Trade → option nat)
    (append : TaxCalcTradeGroup → Trade → TaxCalcTradeGroup) (tm : Trade)
  : TaxCalcTradeGroup → TaxCalcElement →
    TaxCalcTradeGroup → TaxCalcElement → Prop :=
| tier_done g s :
    is_unmatched g = false → tier_run lookup append tm g s g s
| tier_break g s :
    is_unmatched g = true → lookup (unmatched s) tm = None →
    tier_run lookup append tm g s g s
| tier_step g s i p L1 g' s' :
    is_unmatched g = true → lookup (unmatched s) tm = Some i →
    partial_pop_idx i (count_unmatched g) (unmatched s) = Ok (p, L1) →
    tier_run lookup append tm (append g p) (mkElement (matched s) L1) g' s' →
    tier_run lookup append tm g s g' s'.

(** The element after [self.matched[n] = g]. *)
Definition recorded (n : Z) (g : TaxCalcTradeGroup) (s : TaxCalcElement)
  : TaxCalcElement :=
  mkElement (<[n := g]> (matched s)) (unmatched s).

(** The runs of the first loop of [allocate_trades] that end normally. *)
Inductive closing_run (CGT : bool)
  : Z → TaxCalcElement → Z → TaxCalcElement → Prop :=
| closing_done n s L :
    pop_earliest_closing_trade (unmatched s) = (None, L) →
    closing_run CGT n s n (mkElement (matched s) L)
| closing_step n s t L fuel g s1 n' s' :
    pop_earliest_closing_trade (unmatched s) = (Some t, L) →
    match_for_group fuel t CGT (mkElement (matched s) L) = Ok (g, s1) →
    closing_run CGT (n + 1) (recorded n g s1) n' s' →
    closing_run CGT n s n' s'.

(** The runs of the second loop of [allocate_trades] that end normally. *)
Inductive leftover_run (CGT : bool)
  : Z → TaxCalcElement → Z → TaxCalcElement → Prop :=
| leftover_done n s :
    unmatched s = [] → leftover_run CGT n s n s
| leftover_step n s t L fuel g s1 n' s' :
    unmatched s ≠ [] →
    pop_last (date_sort (unmatched s)) = Ok (t, L) →
    match_for_group fuel (modify t Close) CGT (mkElement (matched s) L)
      = Ok (g, s1) →
    leftover_run CGT (n + 1) (recorded n g s1) n' s' →
    leftover_run CGT n s n' s'.

(** The dictionary after recording the groups [gs] under [n], [n + 1], ... *)
Fixpoint record_all (n : Z) (gs : list TaxCalcTradeGroup)
    (m : gmap Z TaxCalcTradeGroup) : gmap Z TaxCalcTradeGroup :=
  match gs with
  | [] => m
  | g :: gs' => record_all (n + 1) gs' (<[n := g]> m)
  end.

(** Closing dates, oldest first and latest first. *)
Definition closing_date_le (g1 g2 : TaxCalcTradeGroup) : Prop :=
  Date (closing_trade g1) ≤ Date (closing_trade g2).

Definition closing_date_ge (g1 g2 : TaxCalcTradeGroup) : Prop :=
  Date (closing_trade g2) ≤ Date (closing_trade g1).

(** [t'] is [t] or a part of it, re-typed as a closing trade. *)
Definition retyped (t' t : Trade) : Prop :=
  ∃ u, like u t ∧ t' = modify u Close.

(** The exceptions of the matching itself: no counter-trade for a closing
    trade, or too little in the pool. *)
Definition fatal (e : exn) : Prop :=
  match e with
  | ArithmeticError | CantFindMatch _ _ => True
  | _ => False
  end.

(** A computation that ends normally or with one of these. *)
Definition ends {A} (r : result A) : Prop :=
  match r with
  | Ok _ => True
  | Raise e => fatal e
  end.






(** Closing trades are matched in turn.  [next L t L0] takes the next
    closing trade [t] out of the ledger [L] and leaves [L0];
    [match_for_group] builds the group [g] of [t] from [L0] and leaves
    [L1]; and so on from [L1].  [gs] are the groups in the order in which
    they are built and [L'] is the ledger after the last. *)
Inductive matched_in_turn (CGT : bool)
    (next : TradeList → Trade → TradeList → Prop)
  : TradeList → list TaxCalcTradeGroup → TradeList → Prop :=
| turn_nil L : matched_in_turn CGT next L [] L
| turn_cons L t L0 fuel m g L1 gs L' :
    next L t L0 →
    match_for_group fuel t CGT (mkElement m L0) = Ok (g, mkElement m L1) →
    closing_trade g = t →
    matched_in_turn CGT next L1 gs L' →
    matched_in_turn CGT next L (g :: gs) L'.

(** The next closing trade of the first loop: a trade typed Close that no
    other trade typed Close of the ledger precedes in time; it leaves the
    ledger. *)
Definition earliest_close (L : TradeList) (t : Trade) (L0 : TradeList)
  : Prop :=
  ∃ i, L !! i = Some t ∧ L0 = delete i L ∧ is_close t = true
       ∧ ∀ u, u ∈ L → is_close u = true → Date t ≤ Date u.

(** The next closing trade of the second loop: the last trade [u] of the
    ledger put in the order of the dates, re-typed as a closing trade; [u]
    leaves the ledger and the others stay, in the order of the dates. *)
Definition latest_retyped (L : TradeList) (t : Trade) (L0 : TradeList)
  : Prop :=
  ∃ u, t = modify u Close ∧ L0 ++ [u] ≡ₚ L
       ∧ StronglySorted date_le (L0 ++ [u])
       ∧ ∀ x, x ∈ L → Date x ≤ Date u.

(** No closing trade of the ledger, and no trade that could come to stand
    for one, has a counter-trade the CGT rules apply to: none on its own
    day, and for the trades typed Close none in the 30 days after it. *)
Definition no_cgt_pairs (L : TradeList) : Prop :=
  ∀ t u, t ∈ L → u ∈ L →
    same_day_match t u = false
    ∧ (is_close t = true → next_30days_match t u = false).

(** The ten fields of a tuple. *)
Definition tuple_fields : list (TaxTuple → Q) :=
  [gbp_disposal_proceeds; gbp_allowable_costs; gbp_gains; gbp_losses;
   number_disposals; gbp_commissions; gbp_taxes; gbp_gross_profit;
   abs_quantity; gbp_net_profit].

(** * Properties *)

(** ** The monad *)

Lemma bind_Ok {A B} (m : Tax A) (k : A → Tax B) s b s' :
  (m ≫= k) s = Ok (b, s') →
  ∃ a s1, m s = Ok (a, s1) ∧ k a s1 = Ok (b, s').
Proof.
  unfold mbind, tax_bind, bind. destruct (m s) as [[a s1]|e]; [|discriminate].
  intros H. by exists a, s1.
Qed.

Lemma bind_eq_Ok {A B} (m : Tax A) (k : A → Tax B) s a s1 :
  m s = Ok (a, s1) → (m ≫= k) s = k a s1.
Proof. unfold mbind, tax_bind, bind. by intros ->. Qed.

Lemma bind_eq_Raise {A B} (m : Tax A) (k : A → Tax B) s e :
  m s = Raise e → (m ≫= k) s = Raise e.
Proof. unfold mbind, tax_bind, bind. by intros ->. Qed.

(** ** Conservation *)

Lemma is_unmatched_false g :
  is_unmatched g = false ↔ (count_unmatched g == 0)%Q.
Proof.
  unfold is_unmatched. rewrite negb_false_iff. apply Qeq_bool_iff.
Qed.

Lemma is_unmatched_true g :
  is_unmatched g = true ↔ ¬ (count_unmatched g == 0)%Q.
Proof.
  unfold is_unmatched. rewrite negb_true_iff. split.
  - apply Qeq_bool_neq.
  - intros H. destruct (Qeq_bool _ _) eqn:E; [|done].
    by apply Qeq_bool_iff in E.
Qed.

Lemma fully_matched_iff g : fully_matched g ↔ is_unmatched g = false.
Proof.
  split; [by intros [? _]|]. intros H. split; [done|].
  apply is_unmatched_false in H. unfold count_unmatched, matches_as_tradelist in H.
  assert (final_position (same_day g ++ within_month g ++ s104 g)
          == - Quantity (closing_trade g))%Q as E by lra.
  split; [done|]. rewrite E. apply Qabs_opp.
Qed.

Lemma match_for_group_Ok fuel tm CGT self g self' :
  match_for_group fuel tm CGT self = Ok (g, self') →
  run_tiers fuel tm CGT self = Ok (g, self') ∧ is_unmatched g = false.
Proof.
  unfold match_for_group. intros H.
  apply bind_Ok in H as (g1 & s1 & Ht & H).
  destruct (is_unmatched g1) eqn:E; [discriminate|].
  unfold mret, tax_ret, ret in H. by simplify_eq.
Qed.

(** ** Rational arithmetic *)

Lemma Qabs_spec (x : Q) :
  (0 <= x ∧ Qabs x == x)%Q ∨ (x < 0 ∧ Qabs x == - x)%Q.
Proof.
  destruct (Qlt_le_dec x 0) as [H|H].
  - right. split; [done|]. apply Qabs_neg. lra.
  - left. split; [done|]. by apply Qabs_pos.
Qed.

Ltac qabs x :=
  let H1 := fresh "Habs" in let H2 := fresh "Habs" in
  destruct (Qabs_spec x) as [[H1 H2]|[H1 H2]].

Lemma Qlt_bool_iff (a b : Q) : Qlt_bool a b = true ↔ (a < b)%Q.
Proof.
  unfold Qlt_bool. rewrite negb_true_iff. split.
  - intros H. apply Qnot_le_lt. intros Hle.
    apply Qle_bool_iff in Hle. congruence.
  - intros H. destruct (Qle_bool b a) eqn:E; [|done].
    apply Qle_bool_iff in E. lra.
Qed.

Lemma Qlt_bool_false (a b : Q) : Qlt_bool a b = false ↔ (b <= a)%Q.
Proof.
  unfold Qlt_bool. rewrite negb_false_iff. apply Qle_bool_iff.
Qed.

Lemma Qle_bool_false (a b : Q) : Qle_bool a b = false ↔ (b < a)%Q.
Proof.
  split.
  - intros H. apply Qnot_le_lt. intros Hle.
    apply Qle_bool_iff in Hle. congruence.
  - intros H. destruct (Qle_bool a b) eqn:E; [|done].
    apply Qle_bool_iff in E. lra.
Qed.

Lemma opposite_side_iff a b :
  opposite_side a b = true ↔
  (0 < Quantity a ∧ Quantity b < 0)%Q ∨ (Quantity a < 0 ∧ 0 < Quantity b)%Q.
Proof.
  unfold opposite_side.
  rewrite orb_true_iff, !andb_true_iff, !Qlt_bool_iff. tauto.
Qed.

Lemma final_position_app l1 l2 :
  (final_position (l1 ++ l2) == final_position l1 + final_position l2)%Q.
Proof.
  induction l1 as [|t l1 IH]; simpl.
  - lra.
  - unfold final_position in *. simpl. rewrite IH. lra.
Qed.

Lemma final_position_cons t l :
  (final_position (t :: l) == Quantity t + final_position l)%Q.
Proof. reflexivity. Qed.

(** ** Index searches *)

Lemma elem_of_find_indices p l i j :
  j ∈ find_indices p l i ↔
  ∃ t, (i ≤ j)%nat ∧ l !! (j - i)%nat = Some t ∧ p t = true.
Proof.
  revert i. induction l as [|u l IH]; intros i; simpl.
  - split; [by intros ?%elem_of_nil|]. by intros (t & _ & ? & _).
  - assert (j ∈ find_indices p l (S i) ↔
            ∃ t, (i < j)%nat ∧ (u :: l) !! (j - i)%nat = Some t ∧ p t = true)
      as Hrec.
    { rewrite IH. split.
      - intros (t & Hle & Hl & Hp). exists t. split; [lia|]. split; [|done].
        replace (j - i)%nat with (S (j - S i)) by lia. done.
      - intros (t & Hle & Hl & Hp). exists t. split; [lia|]. split; [|done].
        replace (j - i)%nat with (S (j - S i)) in Hl by lia. done. }
    destruct (p u) eqn:Hu.
    + rewrite elem_of_cons, Hrec. split.
      * intros [->|(t & ? & ? & ?)].
        -- exists u. rewrite Nat.sub_diag. done.
        -- exists t. split; [lia|done].
      * intros (t & Hle & Hl & Hp).
        destruct (decide (j = i)) as [->|Hne]; [by left|].
        right. exists t. split; [lia|done].
    + rewrite Hrec. split.
      * intros (t & ? & ? & ?). exists t. split; [lia|done].
      * intros (t & Hle & Hl & Hp).
        destruct (decide (j = i)) as [->|Hne].
        -- rewrite Nat.sub_diag in Hl. simpl in Hl. congruence.
        -- exists t. split; [lia|done].
Qed.

Lemma elem_of_find_indices_0 p l j :
  j ∈ find_indices p l 0 ↔ ∃ t, l !! j = Some t ∧ p t = true.
Proof.
  rewrite elem_of_find_indices. setoid_rewrite Nat.sub_0_r.
  split; intros (t & H); exists t; [tauto|]. split; [lia|tauto].
Qed.

Lemma find_indices_nil p l :
  find_indices p l 0 = [] → ∀ t, t ∈ l → p t = false.
Proof.
  intros H t [j Hj]%list_elem_of_lookup.
  destruct (p t) eqn:E; [|done].
  assert (j ∈ find_indices p l 0) as Hin
    by (apply elem_of_find_indices_0; eauto).
  rewrite H in Hin. by apply elem_of_nil in Hin.
Qed.

Lemma last_elem_of {A} (l : list A) x : last l = Some x → x ∈ l.
Proof.
  intros (l' & ->)%last_Some. apply elem_of_app. right. by apply list_elem_of_singleton.
Qed.

Lemma earliest_of_None L cands : earliest_of L cands = None → cands = [].
Proof.
  destruct cands as [|i rest]; [done|]. simpl.
  destruct (earliest_of L rest); [|done]. by case_match.
Qed.

Lemma earliest_of_Some L cands j :
  earliest_of L cands = Some j →
  j ∈ cands ∧ ∀ k, k ∈ cands → date_at L j ≤ date_at L k.
Proof.
  revert j. induction cands as [|i rest IH]; intros j; simpl; [done|].
  destruct (earliest_of L rest) as [j'|] eqn:E.
  - destruct (IH j' eq_refl) as [Hin Hmin].
    destruct (Z.leb_spec (date_at L i) (date_at L j')); intros [= <-].
    + split; [by left|]. intros k [->|Hk]%elem_of_cons; [lia|].
      specialize (Hmin k Hk). lia.
    + split; [by right|]. intros k [->|Hk]%elem_of_cons; [lia|].
      by apply Hmin.
  - apply earliest_of_None in E as ->. intros [= <-].
    split; [by left|]. intros k [->|Hk]%elem_of_cons; [lia|].
    by apply elem_of_nil in Hk.
Qed.

(** ** Parts of trades *)

Lemma like_refl t : like t t.
Proof. unfold like, same_sign. tauto. Qed.

Lemma like_trans a b c : like a b → like b c → like a c.
Proof.
  intros (?&?&?&?&?) (?&?&?&?&?).
  repeat split; try congruence; unfold same_sign in *; tauto.
Qed.

Lemma like_opposite_side t' t ref :
  like t' t → opposite_side t' ref = opposite_side t ref.
Proof.
  intros (_&_&_&_&[H1 H2]). apply eq_true_iff_eq.
  rewrite !opposite_side_iff. tauto.
Qed.

Lemma like_same_day_match ref t' t :
  like t' t → same_day_match ref t' = same_day_match ref t.
Proof.
  intros H. unfold same_day_match. rewrite (like_opposite_side _ _ ref H).
  destruct H as (_&->&_). done.
Qed.

Lemma like_next_30days_match ref t' t :
  like t' t → next_30days_match ref t' = next_30days_match ref t.
Proof.
  intros H. unfold next_30days_match. rewrite (like_opposite_side _ _ ref H).
  destruct H as (_&->&_). done.
Qed.

Lemma like_before_match ref t' t :
  like t' t → before_match ref t' = before_match ref t.
Proof. intros (_&H&_). unfold before_match. by rewrite H. Qed.

Lemma like_is_close t' t : like t' t → is_close t' = is_close t.
Proof. intros (_&_&H&_). unfold is_close. by rewrite H. Qed.

Lemma refines_refl L : refines L L.
Proof. intros t Ht. exists t. split; [done|apply like_refl]. Qed.

Lemma refines_trans L1 L2 L3 : refines L1 L2 → refines L2 L3 → refines L1 L3.
Proof.
  intros H12 H23 t1 Ht1.
  destruct (H12 t1 Ht1) as (t2 & Ht2 & Hl12).
  destruct (H23 t2 Ht2) as (t3 & Ht3 & Hl23).
  exists t3. split; [done|]. by eapply like_trans.
Qed.

Lemma refines_delete i L : refines (delete i L) L.
Proof.
  intros t Ht. exists t. split; [|apply like_refl].
  by eapply list_elem_of_delete_inv.
Qed.

Lemma refines_insert i t t' L :
  L !! i = Some t → like t' t → refines (<[i := t']> L) L.
Proof.
  intros Hi Hl u [j Hj]%list_elem_of_lookup.
  apply list_lookup_insert_Some in Hj as [(-> & <- & _)|[_ Hj]].
  - exists t. split; [|done]. by eapply list_elem_of_lookup_2.
  - exists u. split; [|apply like_refl]. by eapply list_elem_of_lookup_2.
Qed.

Lemma refines_Forall (P : Trade → bool) L' L :
  (∀ t' t, like t' t → P t' = P t) →
  refines L' L → Forall (fun t => P t = false) L →
  Forall (fun t => P t = false) L'.
Proof.
  intros HP Href HL. apply Forall_forall. intros t' Ht'.
  destruct (Href t' Ht') as (t & Ht & Hl).
  rewrite (HP _ _ Hl). by eapply Forall_forall in HL.
Qed.

(** ** Partial pops *)

Lemma partial_pop_idx_inv i q L p L' :
  partial_pop_idx i q L = Ok (p, L') →
  ∃ t, L !! i = Some t ∧
    ((Qabs (Quantity t) <= Qabs q)%Q ∧ p = t ∧ L' = delete i L
     ∨ (Qabs q < Qabs (Quantity t))%Q
       ∧ p = (split_trade t (signed_like t q)).1
       ∧ L' = <[i := (split_trade t (signed_like t q)).2]> L).
Proof.
  unfold partial_pop_idx. destruct (L !! i) as [t|]; [|discriminate].
  intros H. exists t. split; [done|].
  destruct (Qle_bool _ _) eqn:E.
  - left. apply Qle_bool_iff in E. by simplify_eq.
  - right. apply Qle_bool_false in E. simpl in H. by simplify_eq.
Qed.

Lemma partial_pop_idx_is_Ok i q L t :
  L !! i = Some t → ∃ p L', partial_pop_idx i q L = Ok (p, L').
Proof.
  intros Hi. unfold partial_pop_idx. rewrite Hi.
  destruct (Qle_bool _ _); simpl; eauto.
Qed.

Lemma signed_like_spec t q :
  (0 <= Quantity t ∧ signed_like t q == Qabs q)%Q
  ∨ (Quantity t < 0 ∧ signed_like t q == - Qabs q)%Q.
Proof.
  unfold signed_like. destruct (Qle_bool 0 (Quantity t)) eqn:E.
  - left. apply Qle_bool_iff in E. split; [done|reflexivity].
  - right. apply Qle_bool_false in E. split; [done|reflexivity].
Qed.

Lemma split_piece_like t q :
  ¬ (q == 0)%Q → (Qabs q < Qabs (Quantity t))%Q →
  like (split_trade t (signed_like t q)).1 t.
Proof.
  intros Hq Hlt. repeat split; simpl;
    destruct (signed_like_spec t q) as [[? ?]|[? ?]];
    qabs q; qabs (Quantity t); lra.
Qed.

Lemma split_rest_like t q :
  (Qabs q < Qabs (Quantity t))%Q →
  like (split_trade t (signed_like t q)).2 t.
Proof.
  intros Hlt. repeat split; simpl;
    destruct (signed_like_spec t q) as [[? ?]|[? ?]];
    qabs q; qabs (Quantity t); lra.
Qed.

Lemma partial_pop_idx_like i q L p L' :
  partial_pop_idx i q L = Ok (p, L') → ¬ (q == 0)%Q →
  ∃ t, L !! i = Some t ∧ like p t.
Proof.
  intros H Hq. apply partial_pop_idx_inv in H as (t & Hi & H).
  exists t. split; [done|].
  destruct H as [(_ & -> & _)|(Hlt & -> & _)].
  - apply like_refl.
  - by apply split_piece_like.
Qed.

Lemma partial_pop_idx_refines i q L p L' :
  partial_pop_idx i q L = Ok (p, L') → refines L' L.
Proof.
  intros H. apply partial_pop_idx_inv in H as (t & Hi & H).
  destruct H as [(_ & _ & ->)|(Hlt & _ & ->)].
  - apply refines_delete.
  - eapply refines_insert; [done|]. by apply split_rest_like.
Qed.

Lemma partial_pop_idx_length i q L p L' :
  partial_pop_idx i q L = Ok (p, L') → (length L' ≤ length L)%nat.
Proof.
  intros H. apply partial_pop_idx_inv in H as (t & Hi & H).
  destruct H as [(_ & _ & ->)|(Hlt & _ & ->)].
  - rewrite length_delete by eauto. lia.
  - by rewrite length_insert.
Qed.

(** ** Selecting and rewriting by index *)

Lemma select_idx_filter (p : Trade → bool) idxs l i :
  (∀ j t, l !! j = Some t → (i + j)%nat ∈ idxs ↔ p t = true) →
  select_idx idxs l i = filter (fun t => p t = true) l.
Proof.
  revert i. induction l as [|u l IH]; intros i H; simpl; [done|].
  assert (select_idx idxs l (S i) = filter (fun t => p t = true) l) as ->.
  { apply IH. intros j t Hj. rewrite <-(H (S j) t Hj).
    by replace (i + S j)%nat with (S i + j)%nat by lia. }
  specialize (H 0%nat u eq_refl). rewrite Nat.add_0_r in H.
  rewrite filter_cons. case_bool_decide as Hi; case_decide as Hp; tauto.
Qed.

Lemma select_find_indices p L :
  select_idx (find_indices p L 0) L 0 = filter (fun t => p t = true) L.
Proof.
  apply select_idx_filter. intros j t Hj. simpl.
  rewrite elem_of_find_indices_0. split; [|by eauto].
  intros (t' & ? & ?). congruence.
Qed.

Lemma rewrite_idx_length f idxs l i :
  (length (rewrite_idx f idxs l i) ≤ length l)%nat.
Proof.
  revert i. induction l as [|u l IH]; intros i; simpl; [done|].
  specialize (IH (S i)).
  case_bool_decide; [destruct (f u)|]; simpl; lia.
Qed.

Lemma rewrite_idx_refines f idxs l i :
  (∀ t t', f t = Some t' → like t' t) →
  refines (rewrite_idx f idxs l i) l.
Proof.
  intros Hf. revert i. induction l as [|u l IH]; intros i; simpl.
  - by intros t ?%elem_of_nil.
  - specialize (IH (S i)).
    assert (refines (rewrite_idx f idxs l (S i)) (u :: l)) as IH'.
    { intros t Ht. destruct (IH t Ht) as (t0 & ? & ?).
      exists t0. split; [by right|done]. }
    case_bool_decide; [destruct (f u) as [u'|] eqn:E|]; [|done|].
    + intros t [->|Ht]%elem_of_cons; [|by apply IH'].
      exists u. split; [by left|by apply Hf].
    + intros t [->|Ht]%elem_of_cons; [|by apply IH'].
      exists u. split; [by left|apply like_refl].
Qed.

(** ** Proportionate pops *)

Lemma Qdiv_le_1 (a b : Q) : (0 <= a)%Q → (a <= b)%Q → (a / b <= 1)%Q.
Proof.
  intros Ha Hab. destruct (Qeq_dec b 0) as [Hb|Hb].
  - assert (a == 0)%Q as -> by lra. unfold Qdiv. lra.
  - apply Qle_shift_div_r; lra.
Qed.

Lemma Qdiv_nonneg (a b : Q) : (0 <= a)%Q → (0 <= b)%Q → (0 <= a / b)%Q.
Proof.
  intros Ha Hb. destruct (Qeq_dec b 0) as [Hb0|Hb0].
  - unfold Qdiv. rewrite Hb0. unfold Qinv. simpl. lra.
  - apply Qle_shift_div_l; lra.
Qed.

Lemma scale_trade_like f t : (0 < f)%Q → like (scale_trade f t) t.
Proof.
  intros Hf. unfold like, same_sign. simpl.
  repeat split; trivial; intros H; nra.
Qed.

Lemma proportionate_pop_inv idxs target L ps L' :
  _proportionate_pop_idx idxs target L = Ok (ps, L') →
  let lots := select_idx idxs L 0 in
  let f := (Qabs target / Qabs (final_position lots))%Q in
  (Qabs target <= Qabs (final_position lots))%Q
  ∧ ((f == 1)%Q ∧ ps = lots ∧ L' = rewrite_idx (fun _ => None) idxs L 0
     ∨ (0 <= f < 1)%Q ∧ ps = scale_trade f <$> lots
       ∧ L' = rewrite_idx (fun t => Some (scale_trade (1 - f) t)) idxs L 0).
Proof.
  unfold _proportionate_pop_idx. intros H.
  set (lots := select_idx idxs L 0) in *.
  set (f := (Qabs target / Qabs (final_position lots))%Q) in *.
  destruct (Qlt_bool _ _) eqn:E; [discriminate|].
  apply Qlt_bool_false in E. split; [done|].
  destruct (Qeq_bool f 1) eqn:Ef.
  - left. apply Qeq_bool_iff in Ef. by simplify_eq.
  - right. apply Qeq_bool_neq in Ef. simplify_eq. split; [|done].
    assert (f <= 1)%Q by (apply Qdiv_le_1; [apply Qabs_nonneg|done]).
    assert (0 <= f)%Q by (apply Qdiv_nonneg; apply Qabs_nonneg).
    split; [done|]. apply Qnot_le_lt. intros ?. apply Ef. lra.
Qed.

Lemma proportionate_pop_refines idxs target L ps L' :
  _proportionate_pop_idx idxs target L = Ok (ps, L') → refines L' L.
Proof.
  intros H. apply proportionate_pop_inv in H as [_ H]. simpl in H.
  destruct H as [(_ & _ & ->)|([_ Hf] & _ & ->)].
  - by apply rewrite_idx_refines.
  - apply rewrite_idx_refines. intros t t' [= <-].
    apply scale_trade_like. lra.
Qed.

Lemma proportionate_pop_length idxs target L ps L' :
  _proportionate_pop_idx idxs target L = Ok (ps, L') →
  (length L' ≤ length L)%nat.
Proof.
  intros H. apply proportionate_pop_inv in H as [_ H]. simpl in H.
  destruct H as [(_ & _ & ->)|(_ & _ & ->)]; apply rewrite_idx_length.
Qed.

(** ** Sorting by date and popping the last trade *)

Lemma insert_by_date_perm t l : insert_by_date t l ≡ₚ t :: l.
Proof.
  induction l as [|u l IH]; simpl; [done|].
  case_match; [done|]. rewrite IH. apply Permutation_swap.
Qed.

Lemma insert_by_date_sorted t l :
  StronglySorted date_le l → StronglySorted date_le (insert_by_date t l).
Proof.
  induction l as [|u l IH]; simpl; intros Hs.
  - repeat constructor.
  - apply StronglySorted_cons in Hs as [Hu Hs].
    destruct (Z.leb_spec (Date t) (Date u)).
    + apply StronglySorted_cons. split; [|by apply StronglySorted_cons].
      constructor; [done|]. eapply Forall_impl; [done|].
      unfold date_le. intros; simpl in *; lia.
    + apply StronglySorted_cons. split; [|by apply IH].
      rewrite insert_by_date_perm. constructor; [|done].
      unfold date_le. lia.
Qed.

Lemma date_sort_perm L : date_sort L ≡ₚ L.
Proof.
  induction L as [|t L IH]; simpl; [done|].
  unfold date_sort in *. simpl. by rewrite insert_by_date_perm, IH.
Qed.

Lemma date_sort_sorted L : StronglySorted date_le (date_sort L).
Proof.
  induction L as [|t L IH]; simpl; [constructor|].
  by apply insert_by_date_sorted.
Qed.

Lemma pop_last_inv L t L' : pop_last L = Ok (t, L') → L = L' ++ [t].
Proof.
  unfold pop_last. destruct (last L) as [u|] eqn:E; [|discriminate].
  intros [= -> <-]. apply last_Some in E as [l' ->].
  by rewrite removelast_last.
Qed.

Lemma pop_last_sorted L t L' :
  pop_last (date_sort L) = Ok (t, L') →
  L' ++ [t] ≡ₚ L ∧ ∀ u, u ∈ L → Date u ≤ Date t.
Proof.
  intros H%pop_last_inv. split.
  - rewrite <-H. apply date_sort_perm.
  - intros u Hu. rewrite <-(date_sort_perm L), H in Hu.
    apply elem_of_app in Hu as [Hu|Hu];
      [|apply list_elem_of_singleton in Hu as ->; lia].
    pose proof (date_sort_sorted L) as Hs. rewrite H in Hs.
    by apply (StronglySorted_app_1_elem_of _ _ _ _ _ Hs Hu),
      list_elem_of_singleton.
Qed.

(** ** Popping the earliest closing trade *)

Lemma date_at_lookup L i t : L !! i = Some t → date_at L i = Date t.
Proof. unfold date_at. by intros ->. Qed.

Lemma pop_earliest_None L L' :
  pop_earliest_closing_trade L = (None, L') →
  L' = L ∧ Forall (fun t => is_close t = false) L.
Proof.
  unfold pop_earliest_closing_trade.
  destruct (earliest_of _ _) as [i|] eqn:E.
  - apply earliest_of_Some in E as [(t & Hi & _)%elem_of_find_indices_0 _].
    rewrite Hi. discriminate.
  - apply earliest_of_None in E. intros [= <-]. split; [done|].
    apply Forall_forall. by apply find_indices_nil.
Qed.

Lemma pop_earliest_Some L t L' :
  pop_earliest_closing_trade L = (Some t, L') →
  ∃ i, L !! i = Some t ∧ L' = delete i L ∧ is_close t = true
       ∧ ∀ u, u ∈ L → is_close u = true → Date t ≤ Date u.
Proof.
  unfold pop_earliest_closing_trade.
  destruct (earliest_of _ _) as [i|] eqn:E; [|discriminate].
  apply earliest_of_Some in E as [(t' & Hi & Hc)%elem_of_find_indices_0 Hmin].
  rewrite Hi. intros [= -> <-]. exists i. repeat split; try done.
  intros u [j Hj]%list_elem_of_lookup Hu.
  assert (j ∈ find_indices is_close L 0) as Hin
    by (apply elem_of_find_indices_0; eauto).
  specialize (Hmin j Hin).
  by rewrite (date_at_lookup _ _ _ Hi), (date_at_lookup _ _ _ Hj) in Hmin.
Qed.

(** ** One turn of a tier loop *)

Lemma towards_start q : towards q q.
Proof. unfold towards. destruct (Qlt_le_dec q 0); lra. Qed.

Lemma pop_step_count q c t i L p L1 :
  towards q c → ¬ (c == 0)%Q →
  (0 < Quantity t ∧ q < 0 ∨ Quantity t < 0 ∧ 0 < q)%Q →
  L !! i = Some t → partial_pop_idx i c L = Ok (p, L1) →
  (length L1 < length L)%nat ∧ towards q (c + Quantity p)
  ∨ (c + Quantity p == 0)%Q.
Proof.
  intros Ht Hc Hopp Hi Hpop.
  apply partial_pop_idx_inv in Hpop as (t' & Hi' & Hpop).
  assert (t' = t) as -> by congruence.
  destruct Hpop as [(Hle & -> & ->)|(Hlt & -> & ->)].
  - left. split.
    + rewrite length_delete by eauto.
      apply lookup_lt_Some in Hi. lia.
    + unfold towards in *. qabs c; qabs (Quantity t); lra.
  - right. simpl. unfold towards in *.
    destruct (signed_like_spec t c) as [[? ?]|[? ?]];
      qabs c; qabs (Quantity t); lra.
Qed.

Section tier_loop.
Variable lookup : TradeList → Trade → option nat.
Variable cand : Trade → Trade → bool.
Variable append : TaxCalcTradeGroup → Trade → TaxCalcTradeGroup.

Hypothesis lookup_Some : ∀ L tm i,
  lookup L tm = Some i → ∃ t, L !! i = Some t ∧ cand tm t = true.
Hypothesis lookup_None : ∀ L tm,
  lookup L tm = None → Forall (fun t => cand tm t = false) L.
Hypothesis cand_like : ∀ tm t' t, like t' t → cand tm t' = cand tm t.
Hypothesis cand_opposite : ∀ tm t,
  cand tm t = true → opposite_side t tm = true.
Hypothesis append_count : ∀ g p,
  (count_unmatched (append g p) == count_unmatched g + Quantity p)%Q.

Lemma tier_loop_run fuel tm g s g' s' :
  tier_loop lookup append fuel tm g s = Ok (g', s') →
  tier_run lookup append tm g s g' s'.
Proof.
  revert g s. induction fuel as [|fuel IH]; intros g s; simpl.
  - destruct (is_unmatched g) eqn:E; [discriminate|].
    intros [= <- <-]. by constructor.
  - destruct (is_unmatched g) eqn:E;
      [|intros [= <- <-]; by constructor].
    intros H. apply bind_Ok in H as (idx & s1 & Hask & H).
    injection Hask as <- <-.
    destruct (lookup (unmatched s) tm) as [i|] eqn:Hl;
      [|injection H as <- <-; by apply tier_break].
    apply bind_Ok in H as (p & s2 & Hpop & H).
    unfold on_unmatched in Hpop.
    destruct (partial_pop_idx _ _ _) as [[p' L1]|] eqn:Hp; [|discriminate].
    injection Hpop as <- <-. eapply tier_step; eauto.
Qed.

(** What a run that ends normally leaves behind. *)
Lemma tier_run_spec tm g s g' s' :
  tier_run lookup append tm g s g' s' →
  matched s' = matched s
  ∧ refines (unmatched s') (unmatched s)
  ∧ (length (unmatched s') ≤ length (unmatched s))%nat
  ∧ (∃ ps, g' = foldl append g ps
           ∧ Forall (fun p => cand tm p = true) ps)
  ∧ (is_unmatched g' = false
     ∨ Forall (fun t => cand tm t = false) (unmatched s')).
Proof.
  induction 1 as [g s Hm|g s Hm Hl|g s i p L1 g' s' Hm Hl Hp Hrun IH].
  - repeat split; [apply refines_refl|done|by exists []|by left].
  - repeat split; [apply refines_refl|done|by exists []|].
    right. by apply lookup_None.
  - destruct IH as (IH1 & IH2 & IH3 & (ps & -> & IH4) & IH5).
    simpl in *. repeat split; [done| | | |done].
    + eapply refines_trans; [done|]. by eapply partial_pop_idx_refines.
    + apply partial_pop_idx_length in Hp. lia.
    + exists (p :: ps). split; [done|]. constructor; [|done].
      apply is_unmatched_true in Hm.
      destruct (partial_pop_idx_like _ _ _ _ _ Hp Hm) as (t & Hi & Hlike).
      destruct (lookup_Some _ _ _ Hl) as (t' & Hi' & Hc).
      rewrite (cand_like _ _ _ Hlike). congruence.
Qed.

Lemma tier_run_towards tm g s g' s' :
  tier_run lookup append tm g s g' s' →
  towards (Quantity tm) (count_unmatched g) →
  towards (Quantity tm) (count_unmatched g').
Proof.
  induction 1 as [g s Hm|g s Hm Hl|g s i p L1 g' s' Hm Hl Hp Hrun IH];
    [done..|].
  intros Ht. apply IH. apply is_unmatched_true in Hm.
  destruct (lookup_Some _ _ _ Hl) as (t & Hi & Hc).
  apply cand_opposite, opposite_side_iff in Hc.
  pose proof (append_count g p) as Hcount.
  destruct (pop_step_count _ _ _ _ _ _ _ Ht Hm Hc Hi Hp) as [[_ H]|H];
    unfold towards in *; lra.
Qed.

(** With one unit of fuel per trade of the ledger and one to spare the
    loop ends normally. *)
Lemma tier_loop_total fuel tm g s :
  (length (unmatched s) < fuel)%nat ∨ is_unmatched g = false →
  towards (Quantity tm) (count_unmatched g) →
  ∃ g' s', tier_loop lookup append fuel tm g s = Ok (g', s').
Proof.
  revert g s. induction fuel as [|fuel IH]; intros g s Hfuel Ht; simpl.
  - destruct Hfuel as [? | ->]; [lia|]. by eexists _, _.
  - destruct (is_unmatched g) eqn:Hm; [|by eexists _, _].
    destruct Hfuel as [Hfuel|?]; [|done].
    unfold mbind, tax_bind, bind, ask.
    destruct (lookup (unmatched s) tm) as [i|] eqn:Hl; [|by eexists _, _].
    destruct (lookup_Some _ _ _ Hl) as (t & Hi & Hc).
    destruct (partial_pop_idx_is_Ok i (count_unmatched g) _ _ Hi)
      as (p & L1 & Hp).
    unfold on_unmatched. rewrite Hp.
    apply cand_opposite, opposite_side_iff in Hc.
    apply is_unmatched_true in Hm.
    pose proof (append_count g p) as Hcount.
    destruct (pop_step_count _ _ _ _ _ _ _ Ht Hm Hc Hi Hp) as [[Hlen H]|H].
    + apply IH; simpl; [left; lia|]. unfold towards in *. lra.
    + apply IH; simpl.
      * right. apply is_unmatched_false. lra.
      * unfold towards. lra.
Qed.

(** More fuel does not change the outcome of a run that ended. *)
Lemma tier_loop_fuel_mono fuel fuel' tm g s r :
  (fuel ≤ fuel')%nat →
  tier_loop lookup append fuel tm g s = r → r ≠ Raise OutOfFuel →
  tier_loop lookup append fuel' tm g s = r.
Proof.
  revert fuel' g s. induction fuel as [|fuel IH]; intros fuel' g s Hle; simpl.
  - destruct (is_unmatched g) eqn:Hm.
    + unfold raise. by intros <-.
    + intros <- _. destruct fuel'; simpl; by rewrite Hm.
  - destruct fuel' as [|fuel']; [lia|]. simpl.
    destruct (is_unmatched g) eqn:Hm; [|done].
    unfold mbind, tax_bind, bind, ask.
    destruct (lookup (unmatched s) tm) as [i|]; [|done].
    destruct (on_unmatched _ s) as [[p s1]|e]; [|done].
    apply IH. lia.
Qed.
End tier_loop.

Section tier_loop_before.
Variable lookup : TradeList → Trade → option nat.
Variable cand : Trade → Trade → bool.
Variable append : TaxCalcTradeGroup → Trade → TaxCalcTradeGroup.

Hypothesis lookup_Some : ∀ L tm i,
  lookup L tm = Some i → ∃ t, L !! i = Some t ∧ cand tm t = true.
Hypothesis cand_not_before : ∀ tm t,
  cand tm t = true → before_match tm t = false.

Lemma filter_delete_false (p : Trade → bool) (L : TradeList) i t :
  L !! i = Some t → p t = false →
  filter (fun u => p u = true) (delete i L)
  = filter (fun u => p u = true) L.
Proof.
  intros Hi Hp. rewrite delete_take_drop.
  rewrite <-(take_drop_middle L i t Hi) at 3.
  rewrite !filter_app, filter_cons.
  case_decide; [congruence|done].
Qed.

Lemma filter_insert_false (p : Trade → bool) (L : TradeList) i t t' :
  L !! i = Some t → p t = false → p t' = false →
  filter (fun u => p u = true) (<[i := t']> L)
  = filter (fun u => p u = true) L.
Proof.
  intros Hi Hp Hp'. rewrite insert_take_drop by by eapply lookup_lt_Some.
  rewrite <-(take_drop_middle L i t Hi) at 3.
  rewrite !filter_app, !filter_cons.
  repeat case_decide; congruence.
Qed.

(** The loop leaves the trades dated before the closing trade as they
    are. *)
Lemma tier_run_before tm g s g' s' :
  tier_run lookup append tm g s g' s' →
  filter (fun t => before_match tm t = true) (unmatched s')
  = filter (fun t => before_match tm t = true) (unmatched s).
Proof.
  induction 1 as [g s Hm|g s Hm Hl|g s i p L1 g' s' Hm Hl Hp Hrun IH];
    [done..|].
  rewrite IH. simpl.
  destruct (lookup_Some _ _ _ Hl) as (t & Hi & Hc).
  apply cand_not_before in Hc.
  apply partial_pop_idx_inv in Hp as (t' & Hi' & Hp).
  assert (t' = t) as -> by congruence.
  destruct Hp as [(_ & _ & ->)|(Hlt & _ & ->)].
  - by eapply filter_delete_false.
  - eapply filter_insert_false; [done..|].
    rewrite <-Hc. apply like_before_match. by apply split_rest_like.
Qed.
End tier_loop_before.

Lemma tier_run_matched lookup append tm g s g' s' :
  tier_run lookup append tm g s g' s' → is_unmatched g = false →
  g' = g ∧ s' = s.
Proof. destruct 1; [done|congruence..]. Qed.

(** ** The same-day and 30-day tiers *)

Lemma same_day_loop_eq fuel tm g s :
  same_day_loop fuel tm g s
  = tier_loop idx_of_last_trade_same_day append_same_day fuel tm g s.
Proof.
  revert g s. induction fuel as [|fuel IH]; intros g s; simpl; [done|].
  destruct (is_unmatched g); [|done].
  unfold mbind, tax_bind, bind, ask.
  destruct (idx_of_last_trade_same_day _ _); [|done].
  destruct (on_unmatched _ s) as [[p s1]|e]; [|done]. apply IH.
Qed.

Lemma within_month_loop_eq fuel tm g s :
  within_month_loop fuel tm g s
  = tier_loop idx_of_first_trade_next_30days append_within_month fuel tm g s.
Proof.
  revert g s. induction fuel as [|fuel IH]; intros g s; simpl; [done|].
  destruct (is_unmatched g); [|done].
  unfold mbind, tax_bind, bind, ask.
  destruct (idx_of_first_trade_next_30days _ _); [|done].
  destruct (on_unmatched _ s) as [[p s1]|e]; [|done]. apply IH.
Qed.

Lemma same_day_lookup_Some L tm i :
  idx_of_last_trade_same_day L tm = Some i →
  ∃ t, L !! i = Some t ∧ same_day_match tm t = true.
Proof.
  intros H%last_elem_of. by apply elem_of_find_indices_0 in H.
Qed.

Lemma same_day_lookup_None L tm :
  idx_of_last_trade_same_day L tm = None →
  Forall (fun t => same_day_match tm t = false) L.
Proof.
  intros H%last_None. apply Forall_forall. by apply find_indices_nil.
Qed.

Lemma same_day_opposite tm t :
  same_day_match tm t = true → opposite_side t tm = true.
Proof. unfold same_day_match. by intros [_ ?]%andb_true_iff. Qed.

Lemma same_day_not_before tm t :
  same_day_match tm t = true → before_match tm t = false.
Proof.
  unfold same_day_match, before_match.
  intros [H%bool_decide_eq_true _]%andb_true_iff.
  apply bool_decide_eq_false. lia.
Qed.

Lemma next_30days_lookup_Some L tm i :
  idx_of_first_trade_next_30days L tm = Some i →
  ∃ t, L !! i = Some t ∧ next_30days_match tm t = true.
Proof.
  intros [H _]%earliest_of_Some. by apply elem_of_find_indices_0 in H.
Qed.

Lemma next_30days_lookup_None L tm :
  idx_of_first_trade_next_30days L tm = None →
  Forall (fun t => next_30days_match tm t = false) L.
Proof.
  intros H%earliest_of_None. apply Forall_forall. by apply find_indices_nil.
Qed.

Lemma next_30days_opposite tm t :
  next_30days_match tm t = true → opposite_side t tm = true.
Proof. unfold next_30days_match. by intros [_ ?]%andb_true_iff. Qed.

Lemma next_30days_not_before tm t :
  next_30days_match tm t = true → before_match tm t = false.
Proof.
  unfold next_30days_match, before_match.
  intros [[H%bool_decide_eq_true _]%andb_true_iff _]%andb_true_iff.
  apply bool_decide_eq_false. lia.
Qed.

Lemma append_same_day_count g p :
  (count_unmatched (append_same_day g p) == count_unmatched g + Quantity p)%Q.
Proof.
  unfold count_unmatched, matches_as_tradelist.
  cbn [append_same_day append_within_month
       closing_trade same_day within_month s104].
  rewrite !final_position_app.
  pose proof (final_position_cons p []) as Hp.
  change (final_position []) with 0%Q in Hp. lra.
Qed.

Lemma append_within_month_count g p :
  (count_unmatched (append_within_month g p)
   == count_unmatched g + Quantity p)%Q.
Proof.
  unfold count_unmatched, matches_as_tradelist.
  cbn [append_same_day append_within_month
       closing_trade same_day within_month s104].
  rewrite !final_position_app.
  pose proof (final_position_cons p []) as Hp.
  change (final_position []) with 0%Q in Hp. lra.
Qed.

Lemma foldl_append_same_day g ps :
  foldl append_same_day g ps
  = mkGroup (closing_trade g) (same_day g ++ ps) (within_month g) (s104 g).
Proof.
  revert g. induction ps as [|p ps IH]; intros g; simpl.
  - rewrite app_nil_r. by destruct g.
  - rewrite IH. simpl. by rewrite <-app_assoc.
Qed.

Lemma foldl_append_within_month g ps :
  foldl append_within_month g ps
  = mkGroup (closing_trade g) (same_day g) (within_month g ++ ps) (s104 g).
Proof.
  revert g. induction ps as [|p ps IH]; intros g; simpl.
  - rewrite app_nil_r. by destruct g.
  - rewrite IH. simpl. by rewrite <-app_assoc.
Qed.

Lemma next_30days_lookup_earliest L tm i t :
  idx_of_first_trade_next_30days L tm = Some i →
  t ∈ L → next_30days_match tm t = true → date_at L i ≤ Date t.
Proof.
  intros [_ Hmin]%earliest_of_Some [j Hj]%list_elem_of_lookup Hc.
  rewrite <-(date_at_lookup _ _ _ Hj). apply Hmin.
  apply elem_of_find_indices_0. eauto.
Qed.

(** The 30-day tier takes the earliest trade first. *)
Lemma within_month_run_sorted tm g s g' s' :
  tier_run idx_of_first_trade_next_30days append_within_month tm g s g' s' →
  StronglySorted date_le (within_month g) →
  (∀ p t, p ∈ within_month g → t ∈ unmatched s →
          next_30days_match tm t = true → Date p ≤ Date t) →
  StronglySorted date_le (within_month g').
Proof.
  induction 1 as [g s Hm|g s Hm Hl|g s i p L1 g' s' Hm Hl Hp Hrun IH];
    [done..|].
  intros Hsort Hinv. apply is_unmatched_true in Hm.
  destruct (partial_pop_idx_like _ _ _ _ _ Hp Hm) as (ti & Hi & Hlike).
  destruct (next_30days_lookup_Some _ _ _ Hl) as (ti' & Hi' & Hc).
  assert (ti' = ti) as -> by congruence.
  assert (Date p = Date ti) as Hdp by (by destruct Hlike as (_ & ? & _)).
  pose proof (partial_pop_idx_refines _ _ _ _ _ Hp) as Href.
  apply IH; simpl.
  - apply StronglySorted_app. split_and!; [|done|repeat constructor].
    intros x1 x2 Hx1 Hx2. apply list_elem_of_singleton in Hx2 as ->.
    unfold date_le.
    rewrite Hdp. apply Hinv; [done| |done]. by eapply list_elem_of_lookup_2.
  - intros x t Hx Ht Hct. destruct (Href t Ht) as (t0 & Ht0 & Hl0).
    rewrite (like_next_30days_match _ _ _ Hl0) in Hct.
    destruct Hl0 as (_ & -> & _).
    apply elem_of_app in Hx as [Hx|Hx]; [by apply Hinv|].
    apply list_elem_of_singleton in Hx as ->.
    rewrite Hdp, <-(date_at_lookup _ _ _ Hi).
    by eapply next_30days_lookup_earliest.
Qed.

(** ** The pooled tier *)

Lemma s104_tier_Ok tm g s g' s' :
  s104_tier tm g s = Ok (g', s') →
  (is_unmatched g = false ∧ g' = g ∧ s' = s)
  ∨ (is_unmatched g = true
     ∧ idx_of_trades_before_datetime (unmatched s) tm = []
     ∧ g' = g ∧ s' = s)
  ∨ (is_unmatched g = true
     ∧ idx_of_trades_before_datetime (unmatched s) tm ≠ []
     ∧ ∃ ps L',
         _proportionate_pop_idx (idx_of_trades_before_datetime (unmatched s) tm)
           (count_unmatched g) (unmatched s) = Ok (ps, L')
         ∧ g' = set_s104 g ps ∧ s' = mkElement (matched s) L').
Proof.
  unfold s104_tier. destruct (is_unmatched g) eqn:Hm;
    [|intros [= <- <-]; by left].
  intros H. right. apply bind_Ok in H as (idxs & s1 & Hask & H).
  injection Hask as <- <-. case_bool_decide as Hlen.
  - right. split; [done|]. split.
    { intros E. rewrite E in Hlen. simpl in Hlen. lia. }
    apply bind_Ok in H as (ps & s2 & Hpop & H). unfold on_unmatched in Hpop.
    destruct (_proportionate_pop_idx _ _ _) as [[ps' L']|]; [|discriminate].
    injection Hpop as <- <-. injection H as <- <-. by exists ps', L'.
  - left. injection H as <- <-. split; [done|]. split; [|done].
    destruct (idx_of_trades_before_datetime _ _); [done|simpl in Hlen; lia].
Qed.

(** ** The three tiers in order *)

Lemma run_tiers_inv fuel tm CGT s g s' :
  run_tiers fuel tm CGT s = Ok (g, s') →
  ∃ g2 s2,
    (if CGT then
       ∃ g1 s1,
         tier_run idx_of_last_trade_same_day append_same_day tm
           (new_group tm) s g1 s1
         ∧ tier_run idx_of_first_trade_next_30days append_within_month tm
             g1 s1 g2 s2
     else g2 = new_group tm ∧ s2 = s)
    ∧ s104_tier tm g2 s2 = Ok (g, s').
Proof.
  unfold run_tiers. intros H. apply bind_Ok in H as (g2 & s2 & H & Hs).
  exists g2, s2. split; [|done]. destruct CGT.
  - apply bind_Ok in H as (g1 & s1 & H1 & H2). exists g1, s1.
    rewrite same_day_loop_eq in H1. rewrite within_month_loop_eq in H2.
    split; by eapply tier_loop_run.
  - by injection H as <- <-.
Qed.

Lemma no_same_day_refines tm L' L :
  refines L' L → no_same_day tm L → no_same_day tm L'.
Proof.
  apply (refines_Forall (same_day_match tm)). apply like_same_day_match.
Qed.

Lemma no_next_30days_refines tm L' L :
  refines L' L → no_next_30days tm L → no_next_30days tm L'.
Proof.
  apply (refines_Forall (next_30days_match tm)). apply like_next_30days_match.
Qed.

(** The state between the 30-day tier and the pooled tier. *)
Lemma cgt_tiers_spec tm s g1 s1 g2 s2 :
  tier_run idx_of_last_trade_same_day append_same_day tm
    (new_group tm) s g1 s1 →
  tier_run idx_of_first_trade_next_30days append_within_month tm
    g1 s1 g2 s2 →
  closing_trade g2 = tm ∧ s104 g2 = []
  ∧ Forall (fun p => same_day_match tm p = true) (same_day g2)
  ∧ Forall (fun p => next_30days_match tm p = true) (within_month g2)
  ∧ matched s2 = matched s
  ∧ refines (unmatched s2) (unmatched s)
  ∧ (length (unmatched s2) ≤ length (unmatched s))%nat
  ∧ trades_before tm (unmatched s2) = trades_before tm (unmatched s)
  ∧ (within_month g2 ≠ [] → no_same_day tm (unmatched s2))
  ∧ (is_unmatched g2 = true →
     no_same_day tm (unmatched s2) ∧ no_next_30days tm (unmatched s2))
  ∧ towards (Quantity tm) (count_unmatched g2)
  ∧ StronglySorted date_le (within_month g2).
Proof.
  intros H1 H2.
  assert (StronglySorted date_le (within_month g2)) as Hsorted.
  { pose proof (tier_run_spec _ _ _ same_day_lookup_Some same_day_lookup_None
      like_same_day_match _ _ _ _ _ H1) as (_ & _ & _ & (ps1 & E & _) & _).
    rewrite foldl_append_same_day in E.
    eapply within_month_run_sorted; [exact H2|..]; rewrite E; simpl.
    - constructor.
    - by intros p t ?%elem_of_nil. }
  pose proof (tier_run_spec _ _ _ same_day_lookup_Some same_day_lookup_None
    like_same_day_match _ _ _ _ _ H1)
    as (Hm1 & Hr1 & Hl1 & (ps1 & -> & Hps1) & Hx1).
  pose proof (tier_run_spec _ _ _ next_30days_lookup_Some
    next_30days_lookup_None like_next_30days_match
    _ _ _ _ _ H2) as (Hm2 & Hr2 & Hl2 & (ps2 & -> & Hps2) & Hx2).
  pose proof (tier_run_before _ _ _ same_day_lookup_Some same_day_not_before
    _ _ _ _ _ H1) as Hb1.
  pose proof (tier_run_before _ _ _ next_30days_lookup_Some
    next_30days_not_before _ _ _ _ _ H2) as Hb2.
  pose proof (tier_run_towards _ _ _ same_day_lookup_Some same_day_opposite
    append_same_day_count _ _ _ _ _ H1) as Ht1.
  pose proof (tier_run_towards _ _ _ next_30days_lookup_Some
    next_30days_opposite append_within_month_count _ _ _ _ _ H2) as Ht2.
  assert (towards (Quantity tm) (count_unmatched (new_group tm))) as Ht0.
  { unfold count_unmatched, matches_as_tradelist. simpl.
    change (final_position []) with 0%Q.
    pose proof (towards_start (Quantity tm)). unfold towards in *. lra. }
  specialize (Ht2 (Ht1 Ht0)).
  rewrite foldl_append_same_day in *. rewrite foldl_append_within_month in *.
  simpl in *.
  assert (ps2 ≠ [] → no_same_day tm (unmatched s2)) as Hsd.
  { intros Hne. destruct Hx1 as [Hx1|Hx1].
    - destruct (tier_run_matched _ _ _ _ _ _ _ H2 Hx1) as [E _].
      injection E as E. by destruct Hne.
    - by eapply no_same_day_refines. }
  split_and!; [done|done|done|done|congruence|by eapply refines_trans|lia| |done| |done|done].
  - unfold trades_before. congruence.
  - intros Hm. split.
    + destruct Hx1 as [Hx1|Hx1].
      * destruct (tier_run_matched _ _ _ _ _ _ _ H2 Hx1) as [E _].
        rewrite E in Hm. congruence.
      * by eapply no_same_day_refines.
    + by destruct Hx2 as [Hx2|Hx2]; [congruence|].
Qed.

Lemma find_indices_length p l i :
  length (find_indices p l i) = length (filter (fun t => p t = true) l).
Proof.
  revert i. induction l as [|u l IH]; intros i; simpl; [done|].
  rewrite filter_cons.
  destruct (p u) eqn:E; case_decide; try congruence; simpl; by rewrite IH.
Qed.

Lemma count_unmatched_set_s104 g :
  s104 g = [] → count_unmatched (set_s104 g []) = count_unmatched g.
Proof. destruct g; simpl. by intros ->. Qed.

(** What the three tiers leave behind, before the final check. *)
Lemma run_tiers_spec fuel tm CGT s g s' :
  run_tiers fuel tm CGT s = Ok (g, s') →
  matched s' = matched s
  ∧ refines (unmatched s') (unmatched s)
  ∧ (length (unmatched s') ≤ length (unmatched s))%nat
  ∧ closing_trade g = tm
  ∧ (CGT = false → same_day g = [] ∧ within_month g = [])
  ∧ Forall (fun p => same_day_match tm p = true) (same_day g)
  ∧ Forall (fun p => next_30days_match tm p = true) (within_month g)
  ∧ StronglySorted date_le (within_month g)
  ∧ (within_month g ≠ [] → no_same_day tm (unmatched s'))
  ∧ (s104 g ≠ [] → CGT = true →
     no_same_day tm (unmatched s') ∧ no_next_30days tm (unmatched s'))
  ∧ ((count_unmatched (set_s104 g []) == 0)%Q ∧ s104 g = []
     ∨ ¬ (count_unmatched (set_s104 g []) == 0)%Q
       ∧ trades_before tm (unmatched s) = [] ∧ s104 g = []
     ∨ ¬ (count_unmatched (set_s104 g []) == 0)%Q
       ∧ pooled_pieces (count_unmatched (set_s104 g []))
           (trades_before tm (unmatched s)) (s104 g)).
Proof.
  intros H. apply run_tiers_inv in H as (g2 & s2 & Hcgt & Hs).
  assert (closing_trade g2 = tm ∧ s104 g2 = []
    ∧ Forall (fun p => same_day_match tm p = true) (same_day g2)
    ∧ Forall (fun p => next_30days_match tm p = true) (within_month g2)
    ∧ matched s2 = matched s
    ∧ refines (unmatched s2) (unmatched s)
    ∧ (length (unmatched s2) ≤ length (unmatched s))%nat
    ∧ trades_before tm (unmatched s2) = trades_before tm (unmatched s)
    ∧ (within_month g2 ≠ [] → no_same_day tm (unmatched s2))
    ∧ (is_unmatched g2 = true → CGT = true →
       no_same_day tm (unmatched s2) ∧ no_next_30days tm (unmatched s2))
    ∧ (CGT = false → same_day g2 = [] ∧ within_month g2 = [])
    ∧ StronglySorted date_le (within_month g2))
    as (Hc & Hs104 & Hsd & Hwm & Hm & Hr & Hl & Hb & Hx1 & Hx2 & Hoff & Hso).
  { destruct CGT.
    - destruct Hcgt as (g1 & s1 & H1 & H2).
      pose proof (cgt_tiers_spec _ _ _ _ _ _ H1 H2).
      split_and!; try tauto. done.
    - destruct Hcgt as [-> ->]. simpl.
      split_and!; try done; [apply refines_refl|constructor]. }
  apply s104_tier_Ok in Hs
    as [(Hm2 & -> & ->)|[(Hm2 & Hi & -> & ->)|(Hm2 & Hi & ps & L' & Hp & -> & ->)]].
  - rewrite count_unmatched_set_s104 by done.
    apply is_unmatched_false in Hm2.
    split_and!; try done. by left.
  - rewrite count_unmatched_set_s104 by done.
    apply is_unmatched_true in Hm2.
    split_and!; try done.
    right. left. split_and!; try done.
    rewrite <-Hb. unfold trades_before, idx_of_trades_before_datetime in *.
    apply nil_length_inv. by rewrite <-(find_indices_length _ _ 0), Hi.
  - pose proof (proportionate_pop_refines _ _ _ _ _ Hp) as Hr'.
    pose proof (proportionate_pop_length _ _ _ _ _ Hp) as Hl'.
    assert (count_unmatched (set_s104 (set_s104 g2 ps) [])
            = count_unmatched g2) as ->.
    { destruct g2; simpl in *. by subst. }
    apply is_unmatched_true in Hm2 as Hm2'.
    simpl. split_and!; try done.
    + by eapply refines_trans.
    + lia.
    + intros Hne. by eapply no_same_day_refines, Hx1.
    + intros _ Hon. destruct (Hx2 Hm2 Hon).
      split; [by eapply no_same_day_refines|by eapply no_next_30days_refines].
    + right. right. split; [done|].
      apply proportionate_pop_inv in Hp as [Hle Hp]. cbv zeta in Hp.
      unfold idx_of_trades_before_datetime in *.
      rewrite select_find_indices in Hle, Hp.
      fold (trades_before tm (unmatched s2)) in Hle, Hp.
      rewrite Hb in Hle, Hp.
      unfold pooled_pieces, proportion. split_and!; [|done|].
      * intros E. apply Hi. apply nil_length_inv.
        rewrite find_indices_length. fold (trades_before tm (unmatched s2)).
        by rewrite Hb, E.
      * destruct Hp as [(? & ? & _)|(? & ? & _)]; [left|right]; done.
Qed.

(** ** The loops of [allocate_trades] *)

Lemma match_for_group_spec fuel tm CGT s g s' :
  match_for_group fuel tm CGT s = Ok (g, s') →
  is_unmatched g = false ∧ closing_trade g = tm
  ∧ matched s' = matched s
  ∧ refines (unmatched s') (unmatched s)
  ∧ (length (unmatched s') ≤ length (unmatched s))%nat.
Proof.
  intros [H Hm]%match_for_group_Ok.
  apply run_tiers_spec in H as (? & ? & ? & ? & _). done.
Qed.

Lemma closing_loop_run fuel CGT n s n' s' :
  closing_loop fuel CGT n s = Ok (n', s') → closing_run CGT n s n' s'.
Proof.
  revert n s. induction fuel as [|fuel IH]; intros n s; simpl; [done|].
  intros H. apply bind_Ok in H as (o & s0 & Hpop & H).
  unfold on_unmatched in Hpop.
  destruct (pop_earliest_closing_trade (unmatched s)) as [o' L] eqn:E.
  injection Hpop as <- <-. destruct o' as [t|].
  - apply bind_Ok in H as (g & s1 & Hg & H).
    apply bind_Ok in H as ([] & s2 & Hrec & H).
    injection Hrec as <-. eapply closing_step; eauto.
  - injection H as <- <-. by apply closing_done.
Qed.

Lemma leftover_loop_run fuel CGT n s n' s' :
  leftover_loop fuel CGT n s = Ok (n', s') → leftover_run CGT n s n' s'.
Proof.
  revert n s. induction fuel as [|fuel IH]; intros n s; simpl.
  - intros H. apply bind_Ok in H as (k & s0 & Hask & H).
    injection Hask as <- <-. case_bool_decide as Hk; [done|].
    injection H as <- <-. apply leftover_done.
    destruct (unmatched s); [done|simpl in Hk; lia].
  - intros H. apply bind_Ok in H as (k & s0 & Hask & H).
    injection Hask as <- <-. case_bool_decide as Hk.
    + apply bind_Ok in H as ([] & s1 & Hsort & H).
      injection Hsort as <-.
      apply bind_Ok in H as (t & s2 & Hpop & H).
      unfold on_unmatched in Hpop. simpl in Hpop.
      destruct (pop_last (date_sort (unmatched s))) as [[t' L]|] eqn:E;
        [|discriminate].
      injection Hpop as <- <-.
      apply bind_Ok in H as (g & s3 & Hg & H).
      apply bind_Ok in H as ([] & s4 & Hrec & H).
      injection Hrec as <-. eapply leftover_step; eauto.
      intros E'. rewrite E' in Hk. simpl in Hk. lia.
    + injection H as <- <-. apply leftover_done.
      destruct (unmatched s); [done|simpl in Hk; lia].
Qed.

Lemma record_all_app n gs1 gs2 m :
  record_all n (gs1 ++ gs2) m
  = record_all (n + Z.of_nat (length gs1)) gs2 (record_all n gs1 m).
Proof.
  revert n m. induction gs1 as [|g gs1 IH]; intros n m; simpl.
  - by rewrite Z.add_0_r.
  - rewrite IH. f_equal. lia.
Qed.

Lemma record_all_lookup_old n gs m k :
  ¬ (n ≤ k < n + Z.of_nat (length gs)) →
  record_all n gs m !! k = m !! k.
Proof.
  revert n m. induction gs as [|g gs IH]; intros n m Hk; simpl; [done|].
  simpl in Hk. rewrite IH by lia. apply lookup_insert_ne. lia.
Qed.

Lemma record_all_lookup_new n gs m k :
  n ≤ k < n + Z.of_nat (length gs) →
  record_all n gs m !! k = gs !! Z.to_nat (k - n).
Proof.
  revert n m. induction gs as [|g gs IH]; intros n m Hk; simpl in *; [lia|].
  destruct (decide (k = n)) as [->|Hne].
  - rewrite record_all_lookup_old by lia.
    rewrite lookup_insert_eq. by rewrite Z.sub_diag.
  - rewrite IH by lia.
    replace (Z.to_nat (k - n)) with (S (Z.to_nat (k - (n + 1)))) by lia.
    done.
Qed.

Lemma closing_run_spec CGT n s n' s' :
  closing_run CGT n s n' s' →
  ∃ gs,
    n' = n + Z.of_nat (length gs)
    ∧ matched s' = record_all n gs (matched s)
    ∧ refines (unmatched s') (unmatched s)
    ∧ (length (unmatched s') + length gs ≤ length (unmatched s))%nat
    ∧ Forall (fun t => is_close t = false) (unmatched s')
    ∧ Forall (fun g => fully_matched g
                ∧ ∃ t, t ∈ unmatched s ∧ is_close t = true
                       ∧ like (closing_trade g) t) gs
    ∧ StronglySorted closing_date_le gs.
Proof.
  induction 1 as [n s L Hpop|n s t L fuel g s1 n' s' Hpop Hg Hrun IH].
  - apply pop_earliest_None in Hpop as [-> Hnone]. exists []. simpl.
    split_and!; try done; try lia; [apply refines_refl|constructor].
  - destruct IH as (gs & -> & Hm & Hr & Hl & Hnone & Hgs & Hsort).
    apply pop_earliest_Some in Hpop as (i & Hi & -> & Hc & Hmin).
    apply match_for_group_spec in Hg as (Hfm & Hct & Hm1 & Hr1 & Hl1).
    simpl in *.
    assert (refines (unmatched s1) (unmatched s)) as Hr1'
      by (eapply refines_trans; [done|apply refines_delete]).
    assert (Forall (fun g0 => fully_matched g0
              ∧ ∃ t0, t0 ∈ unmatched s ∧ is_close t0 = true
                      ∧ like (closing_trade g0) t0) gs) as Hgs'.
    { eapply Forall_impl; [done|]. intros g0 (? & t0 & Ht0 & Hc0 & Hl0).
      split; [done|]. destruct (Hr1' t0 Ht0) as (t1 & Ht1 & Hl01).
      exists t1. split; [done|]. split.
      - by rewrite <-(like_is_close _ _ Hl01).
      - by eapply like_trans. }
    exists (g :: gs). simpl. split_and!.
    + lia.
    + by rewrite Hm, Hm1.
    + by eapply refines_trans.
    + rewrite length_delete in Hl1 by eauto.
      apply lookup_lt_Some in Hi. lia.
    + done.
    + constructor; [|done]. split; [by apply fully_matched_iff|].
      exists t. rewrite Hct. split; [by eapply list_elem_of_lookup_2|].
      split; [done|apply like_refl].
    + apply StronglySorted_cons. split; [|done].
      eapply Forall_impl; [exact Hgs'|].
      intros g0 (_ & t0 & Ht0 & Hc0 & (_ & Hd & _)). simpl.
      unfold closing_date_le. rewrite Hct, Hd. by apply Hmin.
Qed.

Lemma retyped_date t' t : retyped t' t → Date t' = Date t.
Proof. intros (u & (_ & Hd & _) & ->). done. Qed.

Lemma leftover_run_spec CGT n s n' s' :
  leftover_run CGT n s n' s' →
  ∃ gs,
    n' = n + Z.of_nat (length gs)
    ∧ matched s' = record_all n gs (matched s)
    ∧ unmatched s' = []
    ∧ (unmatched s ≠ [] → gs ≠ [])
    ∧ (length gs ≤ length (unmatched s))%nat
    ∧ Forall (fun g => fully_matched g
                ∧ tradetype (closing_trade g) = Close
                ∧ ∃ t, t ∈ unmatched s ∧ retyped (closing_trade g) t) gs
    ∧ match gs with
      | [] => True
      | g :: _ => ∀ t, t ∈ unmatched s → Date t ≤ Date (closing_trade g)
      end
    ∧ StronglySorted closing_date_ge gs.
Proof.
  induction 1 as [n s He|n s t L fuel g s1 n' s' Hne Hpop Hg Hrun IH].
  - exists []. simpl. split_and!; try done; try lia; constructor.
  - destruct IH as (gs & -> & Hm & He & _ & Hl & Hgs & _ & Hsort).
    apply pop_last_sorted in Hpop as [Hperm Hmax].
    apply match_for_group_spec in Hg as (Hfm & Hct & Hm1 & Hr1 & Hl1).
    simpl in *.
    assert (refines (unmatched s1) (unmatched s)) as Hr1'.
    { intros u Hu. destruct (Hr1 u Hu) as (u0 & Hu0 & Hlike).
      exists u0. split; [|done]. rewrite <-Hperm.
      apply elem_of_app. by left. }
    assert (Forall (fun g0 => fully_matched g0
              ∧ tradetype (closing_trade g0) = Close
              ∧ ∃ t0, t0 ∈ unmatched s ∧ retyped (closing_trade g0) t0) gs)
      as Hgs'.
    { eapply Forall_impl; [done|].
      intros g0 (? & ? & t0 & Ht0 & (u & Hu & ->)).
      split; [done|]. split; [done|].
      destruct (Hr1' t0 Ht0) as (t1 & Ht1 & Hl01).
      exists t1. split; [done|]. exists u. split; [|done].
      by eapply like_trans. }
    assert (t ∈ unmatched s) as Ht.
    { rewrite <-Hperm. apply elem_of_app. right.
      by apply list_elem_of_singleton. }
    exists (g :: gs). simpl. split_and!.
    + lia.
    + by rewrite Hm, Hm1.
    + done.
    + done.
    + apply Permutation_length in Hperm.
      rewrite length_app in Hperm. simpl in Hperm. lia.
    + constructor; [|done]. split; [by apply fully_matched_iff|].
      rewrite Hct. split; [done|]. exists t. split; [done|].
      exists t. split; [apply like_refl|done].
    + intros u Hu. rewrite Hct. simpl. by apply Hmax.
    + apply StronglySorted_cons. split; [|done].
      eapply Forall_impl; [exact Hgs'|].
      intros g0 (_ & _ & t0 & Ht0 & Hre). simpl.
      unfold closing_date_ge. rewrite Hct, (retyped_date _ _ Hre). simpl.
      by apply Hmax.
Qed.

Lemma allocate_trades_inv fuel CGT s n s' :
  allocate_trades fuel CGT s = Ok (n, s') →
  ∃ n1 s1,
    closing_loop fuel CGT 1 s = Ok (n1, s1)
    ∧ ((unmatched s1 = [] ∨ ¬ (final_position (unmatched s1) == 0)%Q)
       ∧ n = n1 ∧ s' = s1
       ∨ unmatched s1 ≠ [] ∧ (final_position (unmatched s1) == 0)%Q
         ∧ leftover_loop fuel CGT n1 s1 = Ok (n, s') ∧ unmatched s' = []).
Proof.
  unfold allocate_trades. intros H.
  apply bind_Ok in H as (n1 & s1 & Hc & H). exists n1, s1. split; [done|].
  apply bind_Ok in H as (k & s0 & Hask & H). injection Hask as <- <-.
  case_bool_decide as Hk.
  - apply bind_Ok in H as (pos & s0 & Hask & H). injection Hask as <- <-.
    destruct (Qeq_bool _ _) eqn:E.
    + apply Qeq_bool_iff in E. right.
      apply bind_Ok in H as (n2 & s2 & Hl & H).
      apply bind_Ok in H as (k & s0 & Hask & H). injection Hask as <- <-.
      case_bool_decide as Hk'; [|discriminate]. injection H as <- <-.
      split_and!; try done.
      * intros E'. rewrite E' in Hk. simpl in Hk. lia.
      * by apply nil_length_inv.
    + apply Qeq_bool_neq in E. injection H as <- <-. left. by split; [right|].
  - injection H as <- <-. left. split; [left|done].
    destruct (unmatched s1); [done|simpl in Hk; lia].
Qed.

(** ** Every loop ends *)

Lemma proportionate_pop_ends idxs target L :
  ends (_proportionate_pop_idx idxs target L).
Proof.
  unfold _proportionate_pop_idx.
  destruct (Qlt_bool _ _); [done|]. by destruct (Qeq_bool _ _).
Qed.

Lemma s104_tier_ends tm g s : ends (s104_tier tm g s).
Proof.
  unfold s104_tier. destruct (is_unmatched g); [|done].
  unfold mbind, tax_bind, bind, ask. case_bool_decide; [|done].
  unfold on_unmatched.
  pose proof (proportionate_pop_ends
    (idx_of_trades_before_datetime (unmatched s) tm)
    (count_unmatched g) (unmatched s)) as Hends.
  by destruct (_proportionate_pop_idx _ _ _) as [[ps L']|e].
Qed.

Lemma new_group_towards tm :
  towards (Quantity tm) (count_unmatched (new_group tm)).
Proof.
  unfold count_unmatched, matches_as_tradelist. simpl.
  change (final_position []) with 0%Q.
  pose proof (towards_start (Quantity tm)). unfold towards in *. lra.
Qed.

Lemma run_tiers_ends fuel tm CGT s :
  (length (unmatched s) < fuel)%nat → ends (run_tiers fuel tm CGT s).
Proof.
  intros Hfuel. unfold run_tiers. destruct CGT.
  - destruct (tier_loop_total _ _ _ same_day_lookup_Some same_day_opposite
      append_same_day_count fuel tm (new_group tm) s (or_introl Hfuel)
      (new_group_towards tm)) as (g1 & s1 & H1).
    pose proof (tier_loop_run _ _ _ _ _ _ _ _ H1) as Hrun1.
    pose proof (tier_run_spec _ _ _ same_day_lookup_Some same_day_lookup_None
      like_same_day_match _ _ _ _ _ Hrun1) as (_ & _ & Hl1 & _).
    pose proof (tier_run_towards _ _ _ same_day_lookup_Some same_day_opposite
      append_same_day_count _ _ _ _ _ Hrun1 (new_group_towards tm)) as Ht1.
    destruct (tier_loop_total _ _ _ next_30days_lookup_Some
      next_30days_opposite append_within_month_count fuel tm g1 s1)
      as (g2 & s2 & H2); [left; lia|done|].
    rewrite <-same_day_loop_eq in H1. rewrite <-within_month_loop_eq in H2.
    erewrite bind_eq_Ok; [apply s104_tier_ends|].
    erewrite bind_eq_Ok; [|exact H1]. exact H2.
  - apply s104_tier_ends.
Qed.

Lemma match_for_group_ends fuel tm CGT s :
  (length (unmatched s) < fuel)%nat → ends (match_for_group fuel tm CGT s).
Proof.
  intros Hfuel. unfold match_for_group.
  pose proof (run_tiers_ends fuel tm CGT s Hfuel) as H.
  unfold mbind, tax_bind, bind.
  destruct (run_tiers fuel tm CGT s) as [[g s1]|e]; [|done].
  by destruct (is_unmatched g).
Qed.

Lemma closing_loop_ends fuel CGT n s :
  (length (unmatched s) < fuel)%nat → ends (closing_loop fuel CGT n s).
Proof.
  revert n s. induction fuel as [|fuel IH]; intros n s Hfuel; [lia|].
  simpl. unfold mbind, tax_bind, bind, on_unmatched.
  destruct (pop_earliest_closing_trade (unmatched s)) as [[t|] L] eqn:E;
    [|done].
  apply pop_earliest_Some in E as (i & Hi & -> & _).
  assert (length (delete i (unmatched s)) < fuel)%nat as Hlen.
  { rewrite length_delete by eauto. apply lookup_lt_Some in Hi. lia. }
  pose proof (match_for_group_ends fuel t CGT
    (mkElement (matched s) (delete i (unmatched s))) Hlen) as Hg.
  destruct (match_for_group _ _ _ _) as [[g s1]|e] eqn:Eg; [|done].
  apply match_for_group_spec in Eg as (_ & _ & _ & _ & Hl1). simpl in Hl1.
  unfold record_group. apply IH. simpl. lia.
Qed.

Lemma pop_last_date_sort_Ok L :
  L ≠ [] → ∃ t L', pop_last (date_sort L) = Ok (t, L').
Proof.
  intros Hne. unfold pop_last.
  destruct (last (date_sort L)) as [t|] eqn:E; [by eexists _, _|].
  apply last_None in E. destruct Hne.
  apply Permutation_nil_r. by rewrite <-E, date_sort_perm.
Qed.

Lemma leftover_loop_ends fuel CGT n s :
  (length (unmatched s) < fuel)%nat → ends (leftover_loop fuel CGT n s).
Proof.
  revert n s. induction fuel as [|fuel IH]; intros n s Hfuel; [lia|].
  simpl. unfold mbind, tax_bind, bind, ask, on_unmatched.
  case_bool_decide as Hk; [|done]. simpl.
  destruct (pop_last_date_sort_Ok (unmatched s)) as (t & L & Hpop).
  { intros E. rewrite E in Hk. simpl in Hk. lia. }
  rewrite Hpop. apply pop_last_sorted in Hpop as [Hperm _].
  apply Permutation_length in Hperm.
  rewrite length_app in Hperm. simpl in Hperm.
  assert (length L < fuel)%nat as Hlen by lia.
  pose proof (match_for_group_ends fuel (modify t Close) CGT
    (mkElement (matched s) L) Hlen) as Hg.
  destruct (match_for_group _ _ _ _) as [[g s1]|e] eqn:Eg; [|done].
  apply match_for_group_spec in Eg as (_ & _ & _ & _ & Hl1). simpl in Hl1.
  unfold record_group. apply IH. simpl. lia.
Qed.

Lemma allocate_trades_ends fuel CGT s :
  (length (unmatched s) < fuel)%nat → ends (allocate_trades fuel CGT s).
Proof.
  intros Hfuel. unfold allocate_trades. unfold mbind, tax_bind, bind.
  pose proof (closing_loop_ends fuel CGT 1 s Hfuel) as Hc.
  destruct (closing_loop fuel CGT 1 s) as [[n1 s1]|e] eqn:Ec; [|done].
  apply closing_loop_run, closing_run_spec in Ec
    as (gs & _ & _ & _ & Hl & _).
  unfold ask. case_bool_decide; [|done].
  destruct (Qeq_bool _ _); [|done].
  assert (length (unmatched s1) < fuel)%nat as Hlen by lia.
  pose proof (leftover_loop_ends fuel CGT n1 s1 Hlen) as Hlo.
  destruct (leftover_loop fuel CGT n1 s1) as [[n2 s2]|e] eqn:El; [|done].
  apply leftover_loop_run, leftover_run_spec in El
    as (gs2 & _ & _ & He & _).
  rewrite He. by rewrite bool_decide_eq_true_2.
Qed.

(** ** More fuel changes nothing *)

Lemma bind_fuel_mono {A B} (m m' : Tax A) (k k' : A → Tax B) s r :
  (∀ r0, m s = r0 → r0 ≠ Raise OutOfFuel → m' s = r0) →
  (∀ a s1 r1, k a s1 = r1 → r1 ≠ Raise OutOfFuel → k' a s1 = r1) →
  (m ≫= k) s = r → r ≠ Raise OutOfFuel → (m' ≫= k') s = r.
Proof.
  intros Hm Hk. unfold mbind, tax_bind, bind.
  destruct (m s) as [[a s1]|e] eqn:E.
  - intros Hr Hne. rewrite (Hm _ eq_refl); [by apply Hk|discriminate].
  - intros <- Hne. rewrite (Hm _ eq_refl); [done|].
    intros [= ->]. by apply Hne.
Qed.

Lemma run_tiers_fuel_mono fuel fuel' tm CGT s r :
  (fuel ≤ fuel')%nat →
  run_tiers fuel tm CGT s = r → r ≠ Raise OutOfFuel →
  run_tiers fuel' tm CGT s = r.
Proof.
  intros Hle. unfold run_tiers. apply bind_fuel_mono; [|done].
  destruct CGT; [|done]. intros r0. apply bind_fuel_mono.
  - intros r1. rewrite !same_day_loop_eq. by apply tier_loop_fuel_mono.
  - intros g s1 r1. rewrite !within_month_loop_eq.
    by apply tier_loop_fuel_mono.
Qed.

Lemma match_for_group_fuel_mono fuel fuel' tm CGT s r :
  (fuel ≤ fuel')%nat →
  match_for_group fuel tm CGT s = r → r ≠ Raise OutOfFuel →
  match_for_group fuel' tm CGT s = r.
Proof.
  intros Hle. unfold match_for_group. apply bind_fuel_mono; [|done].
  intros r0. by apply run_tiers_fuel_mono.
Qed.

Lemma closing_loop_fuel_mono fuel fuel' CGT n s r :
  (fuel ≤ fuel')%nat →
  closing_loop fuel CGT n s = r → r ≠ Raise OutOfFuel →
  closing_loop fuel' CGT n s = r.
Proof.
  revert fuel' n s r. induction fuel as [|fuel IH]; intros fuel' n s r Hle.
  - simpl. unfold raise. by intros <-.
  - destruct fuel' as [|fuel']; [lia|]. simpl.
    apply bind_fuel_mono; [done|]. intros [t|] s1 r1; [|done].
    apply bind_fuel_mono.
    + intros r0. apply match_for_group_fuel_mono. lia.
    + intros g s2 r2. apply bind_fuel_mono; [done|].
      intros _ s3 r3. apply IH. lia.
Qed.

Lemma leftover_loop_fuel_mono fuel fuel' CGT n s r :
  (fuel ≤ fuel')%nat →
  leftover_loop fuel CGT n s = r → r ≠ Raise OutOfFuel →
  leftover_loop fuel' CGT n s = r.
Proof.
  revert fuel' n s r. induction fuel as [|fuel IH]; intros fuel' n s r Hle.
  - simpl. unfold mbind, tax_bind, bind, ask.
    case_bool_decide as Hk.
    + unfold raise. by intros <-.
    + intros <- _. destruct fuel'; simpl;
        unfold mbind, tax_bind, bind, ask; by rewrite bool_decide_eq_false_2.
  - destruct fuel' as [|fuel']; [lia|]. simpl.
    apply bind_fuel_mono; [done|]. intros k s1 r1.
    case_bool_decide; [|done].
    apply bind_fuel_mono; [done|]. intros _ s2 r2.
    apply bind_fuel_mono; [done|]. intros t s3 r3.
    apply bind_fuel_mono.
    + intros r0. apply match_for_group_fuel_mono. lia.
    + intros g s4 r4. apply bind_fuel_mono; [done|].
      intros _ s5 r5. apply IH. lia.
Qed.

Lemma allocate_trades_fuel_mono fuel fuel' CGT s r :
  (fuel ≤ fuel')%nat →
  allocate_trades fuel CGT s = r → r ≠ Raise OutOfFuel →
  allocate_trades fuel' CGT s = r.
Proof.
  intros Hle. unfold allocate_trades. apply bind_fuel_mono.
  - intros r0. by apply closing_loop_fuel_mono.
  - intros n1 s1 r1. apply bind_fuel_mono; [done|]. intros k s2 r2.
    case_bool_decide; [|done].
    apply bind_fuel_mono; [done|]. intros pos s3 r3.
    destruct (Qeq_bool pos 0); [|done].
    apply bind_fuel_mono; [|done].
    intros r0. by apply leftover_loop_fuel_mono.
Qed.

Lemma allocate_each_fuel_mono fuel fuel' CGT items r :
  (fuel ≤ fuel')%nat →
  allocate_each fuel CGT items = r → r ≠ Raise OutOfFuel →
  allocate_each fuel' CGT items = r.
Proof.
  intros Hle. revert r.
  induction items as [|[code e] items IH]; intros r; simpl; [done|].
  destruct (allocate_trades fuel CGT e) as [[n e']|x] eqn:E.
  - rewrite (allocate_trades_fuel_mono _ _ _ _ _ Hle E) by discriminate.
    destruct (allocate_each fuel CGT items) as [rest|x] eqn:E'.
    + by rewrite (IH _ eq_refl) by discriminate.
    + intros <- Hne. rewrite (IH _ eq_refl); [done|].
      intros [= ->]. by apply Hne.
  - intros <- Hne. rewrite (allocate_trades_fuel_mono _ _ _ _ _ Hle E); [done|].
    intros [= ->]. by apply Hne.
Qed.

Lemma allocate_dict_trades_fuel_mono fuel fuel' CGT d r :
  (fuel ≤ fuel')%nat →
  allocate_dict_trades fuel CGT d = r → r ≠ Raise OutOfFuel →
  allocate_dict_trades fuel' CGT d = r.
Proof.
  intros Hle. unfold allocate_dict_trades.
  destruct (allocate_each fuel CGT (map_to_list d)) as [items|x] eqn:E.
  - by rewrite (allocate_each_fuel_mono _ _ _ _ _ Hle E) by discriminate.
  - intros <- Hne. rewrite (allocate_each_fuel_mono _ _ _ _ _ Hle E); [done|].
    intros [= ->]. by apply Hne.
Qed.

(** ** Construction of an element *)

Lemma check_same_code_iff L :
  check_same_code L = true ↔ ∀ t u, t ∈ L → u ∈ L → Code t = Code u.
Proof.
  destruct L as [|t0 L]; simpl.
  - split; [|done]. by intros _ t u ?%elem_of_nil.
  - rewrite forallb_forall. split.
    + intros H t u Ht Hu.
      assert (∀ x, x ∈ t0 :: L → Code x = Code t0) as Hall.
      { intros x [->|Hx]%elem_of_cons; [done|].
        apply list_elem_of_In, H in Hx. by apply bool_decide_eq_true in Hx. }
      by rewrite (Hall t Ht), (Hall u Hu).
    + intros H x Hx%list_elem_of_In. apply bool_decide_eq_true.
      apply H; [by right|by left].
Qed.

(** C7.  An element is built from a ledger exactly when all its trades carry
    one code: two trades with different codes make the construction fail
    with an assertion error, and an element that was built holds the ledger
    as given, all of one code, with nothing matched yet. *)
Theorem TaxCalcElement_init_same_code (trade_list : TradeList) :
  (∀ t u, t ∈ trade_list → u ∈ trade_list → Code t ≠ Code u →
     TaxCalcElement_init trade_list = Raise AssertionError)
  ∧ (∀ self, TaxCalcElement_init trade_list = Ok self →
       matched self = ∅ ∧ unmatched self = trade_list
       ∧ ∀ t u, t ∈ unmatched self → u ∈ unmatched self → Code t = Code u)
  ∧ ((∀ t u, t ∈ trade_list → u ∈ trade_list → Code t = Code u) →
       TaxCalcElement_init trade_list = Ok (mkElement ∅ trade_list)).
Proof.
  unfold TaxCalcElement_init. split_and!.
  - intros t u Ht Hu Hne. destruct (check_same_code trade_list) eqn:E; [|done].
    destruct Hne. by eapply check_same_code_iff.
  - intros self. destruct (check_same_code trade_list) eqn:E; [|done].
    intros [= <-]. simpl. split_and!; [done..|]. by apply check_same_code_iff.
  - intros H. apply check_same_code_iff in H. by rewrite H.
Qed.

Lemma TaxCalcElement_init_same_code_witness :
  TaxCalcElement_init [ex_buy; ex_other] = Raise AssertionError
  ∧ TaxCalcElement_init ex_ledger = Ok ex_element.
Proof.
  destruct (TaxCalcElement_init_same_code [ex_buy; ex_other]) as (H1 & _).
  destruct (TaxCalcElement_init_same_code ex_ledger) as (_ & _ & H3).
  split.
  - apply (H1 ex_buy ex_other); [by left|by right; left|discriminate].
  - apply H3. intros t u Ht Hu.
    apply elem_of_cons in Ht as [->|Ht]; [|apply list_elem_of_singleton in Ht as ->];
      (apply elem_of_cons in Hu as [->|Hu]; [|apply list_elem_of_singleton in Hu as ->]);
      reflexivity.
Defined.

(** ** Reports *)

Lemma py_sum_foldr (a : Q) (l : list Q) :
  (foldl Qplus a l == a + foldr Qplus 0 l)%Q.
Proof.
  revert a. induction l as [|x l IH]; intros a; simpl; [lra|].
  rewrite IH. lra.
Qed.

Lemma py_sum_cons x l : (py_sum (x :: l) == x + py_sum l)%Q.
Proof. unfold py_sum. simpl. rewrite !py_sum_foldr. lra. Qed.

Lemma py_sum_perm l l' : l ≡ₚ l' → (py_sum l == py_sum l')%Q.
Proof.
  induction 1 as [|x l l' _ IH|x y l|l1 l2 l3 _ IH1 _ IH2].
  - reflexivity.
  - rewrite !py_sum_cons, IH. reflexivity.
  - rewrite !py_sum_cons. lra.
  - by rewrite IH1.
Qed.

Lemma omap_lookup_keys `{Countable K} {A B} (m : gmap K A) (f : A → B)
    (l : list (K * A)) :
  (∀ k v, (k, v) ∈ l → m !! k = Some v) →
  omap (fun k => f <$> m !! k) l.*1 = (fun kv => f kv.2) <$> l.
Proof.
  induction l as [|[k v] l IH]; intros Hl; simpl; [done|].
  rewrite (Hl k v) by by left. simpl. f_equal.
  apply IH. intros k' v' Hin. apply Hl. by right.
Qed.

Lemma omap_sorted_keys `{Countable K} {A B} (R : relation K)
    `{∀ x y, Decision (R x y)} (m : gmap K A) (f : A → B) :
  omap (fun k => f <$> m !! k) (merge_sort R (map_to_list m).*1)
  ≡ₚ (fun kv => f kv.2) <$> map_to_list m.
Proof.
  rewrite merge_sort_Permutation. rewrite omap_lookup_keys; [done|].
  intros k v. apply elem_of_map_to_list.
Qed.

Section Reports_properties.
Variable group_display_taxes : Z → bool → TaxCalcTradeGroup → TaxTuple.

Lemma taxdata_of_perm taxyear CGT self :
  taxdata_of group_display_taxes taxyear CGT self
  ≡ₚ reported group_display_taxes taxyear CGT self.
Proof. apply omap_sorted_keys. Qed.

End Reports_properties.

(** C8.  The average commission of a code for a tax year, over the tuples of
    all its groups: with a total quantity that is not zero it is the total
    commission divided by twice the total quantity; with a total quantity of
    zero nothing is divided, and the result is not-a-number when the total
    commission is zero as well and zero otherwise. *)
Theorem average_commission_cases
    (group_display_taxes : Z → bool → TaxCalcTradeGroup → TaxTuple)
    (taxyear : Z) (self : TaxCalcElement) :
  let taxdata := reported group_display_taxes taxyear true self in
  let total_comm := py_sum (gbp_commissions <$> taxdata) in
  let total_quant := py_sum (abs_quantity <$> taxdata) in
  (¬ (total_quant == 0)%Q →
     ∃ v, average_commission group_display_taxes taxyear self = num v
          ∧ (v == total_comm / (2 * total_quant))%Q)
  ∧ ((total_quant == 0)%Q → (total_comm == 0)%Q →
     average_commission group_display_taxes taxyear self = nan)
  ∧ ((total_quant == 0)%Q → ¬ (total_comm == 0)%Q →
     average_commission group_display_taxes taxyear self = num 0).
Proof.
  intros taxdata total_comm total_quant. unfold average_commission.
  pose proof (taxdata_of_perm group_display_taxes taxyear true self) as Hp.
  assert (py_sum (gbp_commissions
            <$> taxdata_of group_display_taxes taxyear true self)
          == total_comm)%Q as Hc
    by (apply py_sum_perm; by rewrite Hp).
  assert (py_sum (abs_quantity
            <$> taxdata_of group_display_taxes taxyear true self)
          == total_quant)%Q as Hq
    by (apply py_sum_perm; by rewrite Hp).
  split_and!.
  - intros Hne. destruct (Qeq_bool _ 0) eqn:E.
    + apply Qeq_bool_iff in E. destruct Hne. by rewrite <-Hq.
    + eexists. split; [done|]. by rewrite Hc, Hq.
  - intros Hz Hz'. rewrite (Qeq_eq_bool _ 0) by by rewrite Hq.
    by rewrite (Qeq_eq_bool _ 0) by by rewrite Hc.
  - intros Hz Hnz. rewrite (Qeq_eq_bool _ 0) by by rewrite Hq.
    destruct (Qeq_bool _ 0) eqn:E; [|done].
    apply Qeq_bool_iff in E. destruct Hnz. by rewrite <-Hc.
Qed.

Lemma average_commission_cases_witness :
  ∃ v, average_commission ex_display 2022 ex_matched = num v
       ∧ (v == 10 / (2 * 100))%Q.
Proof.
  destruct (average_commission_cases ex_display 2022 ex_matched)
    as (H & _).
  destruct H as (v & Hv & Hq); [by vm_compute|].
  exists v. split; [exact Hv|]. rewrite Hq. by vm_compute.
Defined.

Lemma py_sum_zero {A} (f : A → Q) (l : list A) :
  Forall (fun x => f x = 0%Q) l → py_sum (f <$> l) = 0%Q.
Proof.
  unfold py_sum. induction 1 as [|x l Hx _ IH]; simpl; [done|].
  by rewrite Hx.
Qed.

Lemma sum_tuples_zero (taxdata : list TaxTuple) :
  Forall (fun x => x = zero_tax_tuple) taxdata →
  sum_tuples taxdata = zero_tax_tuple.
Proof.
  intros H. unfold sum_tuples.
  rewrite !py_sum_zero; [done|..];
    (eapply Forall_impl; [exact H|]; by intros x ->).
Qed.

(** C9.  The report of a code for a tax year is the zero tuple when nothing
    has been matched for the code, and more generally when every group of
    the code reports the zero tuple for that year; no error is involved.  In
    particular a ledger without closing trades that holds an open position
    comes out of the matching with nothing matched and reports the zero
    tuple. *)
Theorem display_taxes_for_code_zero
    (group_display_taxes : Z → bool → TaxCalcTradeGroup → TaxTuple)
    (taxyear : Z) (CGTCalc : bool) (self : TaxCalcElement) :
  (matched self = ∅ →
     display_taxes_for_code group_display_taxes taxyear CGTCalc self
     = zero_tax_tuple)
  ∧ ((∀ k g, matched self !! k = Some g →
        group_display_taxes taxyear CGTCalc g = zero_tax_tuple) →
     display_taxes_for_code group_display_taxes taxyear CGTCalc self
     = zero_tax_tuple)
  ∧ (∀ fuel,
       matched self = ∅ →
       Forall (fun t => is_close t = false) (unmatched self) →
       ¬ (final_position (unmatched self) == 0)%Q →
       ∃ self', allocate_trades (S fuel) CGTCalc self = Ok (1, self')
         ∧ display_taxes_for_code group_display_taxes taxyear CGTCalc self'
           = zero_tax_tuple).
Proof.
  assert (∀ s : TaxCalcElement,
    (∀ k g, matched s !! k = Some g →
       group_display_taxes taxyear CGTCalc g = zero_tax_tuple) →
    display_taxes_for_code group_display_taxes taxyear CGTCalc s
    = zero_tax_tuple) as Hzero.
  { intros s Hall. unfold display_taxes_for_code. case_bool_decide; [done|].
    apply sum_tuples_zero. apply Forall_forall. intros x Hx.
    unfold taxdata_of in Hx. apply list_elem_of_omap in Hx as (k & _ & Hk).
    destruct (matched s !! k) as [g|] eqn:E; [|done].
    injection Hk as <-. by eapply Hall. }
  split_and!.
  - intros He. apply Hzero. intros k g. by rewrite He, lookup_empty.
  - apply Hzero.
  - intros fuel He Hnone Hpos.
    assert (earliest_of (unmatched self)
              (find_indices is_close (unmatched self) 0) = None) as Hno.
    { destruct (earliest_of _ _) as [i|] eqn:E; [|done].
      apply earliest_of_Some in E as [(t & Hi & Hc)%elem_of_find_indices_0 _].
      apply list_elem_of_lookup_2 in Hi.
      eapply Forall_forall in Hnone; [|done]. congruence. }
    exists self. split.
    + unfold allocate_trades. simpl.
      unfold mbind, tax_bind, bind, on_unmatched, pop_earliest_closing_trade.
      rewrite Hno. simpl. destruct self as [m L]. simpl in *.
      case_bool_decide; [|done].
      destruct (Qeq_bool _ 0) eqn:E; [|done].
      by apply Qeq_bool_iff in E.
    + apply Hzero. intros k g. by rewrite He, lookup_empty.
Qed.

Lemma display_taxes_for_code_zero_witness :
  display_taxes_for_code ex_display 2022 true (mkElement ∅ [ex_buy])
  = zero_tax_tuple
  ∧ display_taxes_for_code ex_zero_display 2022 true ex_matched
    = zero_tax_tuple
  ∧ ∃ self', allocate_trades 1 true (mkElement ∅ [ex_buy]) = Ok (1, self')
      ∧ display_taxes_for_code ex_display 2022 true self' = zero_tax_tuple.
Proof.
  split_and!.
  - by apply (display_taxes_for_code_zero ex_display 2022 true
                (mkElement ∅ [ex_buy])).
  - by apply (display_taxes_for_code_zero ex_zero_display 2022 true
                ex_matched).
  - apply (display_taxes_for_code_zero ex_display 2022 true
             (mkElement ∅ [ex_buy])); [done| |by vm_compute].
    by repeat constructor.
Defined.

Lemma sign_cases (x : Q) :
  Qlt_bool 0 x = true ∧ Qlt_bool x 0 = false ∧ Qeq_bool x 0 = false
  ∨ Qlt_bool 0 x = false ∧ Qlt_bool x 0 = true ∧ Qeq_bool x 0 = false
  ∨ Qlt_bool 0 x = false ∧ Qlt_bool x 0 = false ∧ Qeq_bool x 0 = true.
Proof.
  assert (∀ a b, ¬ (a == b)%Q → Qeq_bool a b = false) as Hne.
  { intros a b H. destruct (Qeq_bool a b) eqn:E; [|done].
    by apply Qeq_bool_iff in E. }
  destruct (Q_dec x 0) as [[Hlt|Hgt]|Heq].
  - right. left. split_and!.
    + apply Qlt_bool_false. lra.
    + by apply Qlt_bool_iff.
    + apply Hne. lra.
  - left. split_and!.
    + by apply Qlt_bool_iff.
    + apply Qlt_bool_false. lra.
    + apply Hne. lra.
  - right. right. split_and!.
    + apply Qlt_bool_false. lra.
    + apply Qlt_bool_false. lra.
    + by apply Qeq_bool_iff.
Qed.

Lemma length_partition_sign (l : list Q) :
  (length (filter (fun x => Qlt_bool 0 x = true) l)
   + length (filter (fun x => Qlt_bool x 0 = true) l)
   + length (filter (fun x => Qeq_bool x 0 = true) l))%nat
  = length l.
Proof.
  induction l as [|x l IH]; [done|]. rewrite !filter_cons.
  destruct (sign_cases x) as [(E1 & E2 & E3)|[(E1 & E2 & E3)|(E1 & E2 & E3)]];
    rewrite E1, E2, E3; repeat case_decide; try done; simpl; lia.
Qed.

(** X18.  What the figures are, for any list of individual profits: the
    wins are the profits above zero and the losses those below zero, a
    profit of exactly zero is in neither, and each average is the mean of
    its own part, not-a-number when the part is empty. *)
Lemma win_loss_figures_partition (profits : list Q) :
  let wins := filter (fun x => Qlt_bool 0 x = true) profits in
  let losses := filter (fun x => Qlt_bool x 0 = true) profits in
  let zeros := filter (fun x => Qeq_bool x 0 = true) profits in
  win_loss_figures profits
  = (np_mean wins, np_mean losses, length wins, length losses)
  ∧ (∀ x, x ∈ wins ↔ x ∈ profits ∧ (0 < x)%Q)
  ∧ (∀ x, x ∈ losses ↔ x ∈ profits ∧ (x < 0)%Q)
  ∧ (∀ x, x ∈ profits → (x == 0)%Q → (x ∉ wins) ∧ (x ∉ losses))
  ∧ (length wins + length losses + length zeros)%nat = length profits.
Proof.
  intros wins losses zeros. split_and!.
  - done.
  - intros x. unfold wins. rewrite list_elem_of_filter, Qlt_bool_iff. tauto.
  - intros x. unfold losses. rewrite list_elem_of_filter, Qlt_bool_iff. tauto.
  - intros x Hx Hz. unfold wins, losses.
    rewrite !list_elem_of_filter, !Qlt_bool_iff. split; intros [? _]; lra.
  - apply length_partition_sign.
Qed.

Lemma win_loss_figures_partition_witness :
  (0%Q ∉ filter (fun x => Qlt_bool 0 x = true) [5; 0]%Q)
  ∧ (0%Q ∉ filter (fun x => Qlt_bool x 0 = true) [5; 0]%Q).
Proof.
  destruct (win_loss_figures_partition [5; 0]%Q) as (_ & _ & _ & H & _).
  apply (H 0%Q); [right; by left|reflexivity].
Defined.

Example win_loss_figures_zero_profit :
  win_loss_figures [5; 0]%Q = (num (5 / 1), nan, 1%nat, 0%nat).
Proof. by vm_compute. Qed.

Section Profits.
Variable group_display_taxes : Z → bool → TaxCalcTradeGroup → TaxTuple.

Lemma profit_lists_raises taxyear elements :
  elements ≠ [] →
  profit_lists group_display_taxes taxyear elements = Raise AttributeError.
Proof. by destruct elements. Qed.

(** For a dictionary that holds at least one code the figures are never
    computed. *)
Lemma win_loss_ratio_etc_raises tax_year (d : TaxCalcDict) :
  d ≠ ∅ →
  win_loss_ratio_etc group_display_taxes tax_year d = Raise AttributeError.
Proof.
  intros Hne. unfold win_loss_ratio_etc, dict_individual_profits.
  rewrite profit_lists_raises; [done|].
  intros E. apply Hne, map_to_list_empty_iff.
  destruct (map_to_list d) as [|[code e] l] eqn:El; [done|].
  assert (e ∈ omap (fun code => d !! code) (sorted_codes d)) as Hin.
  { apply list_elem_of_omap. exists code. split.
    - unfold sorted_codes. rewrite merge_sort_Permutation, El. by left.
    - apply elem_of_map_to_list. rewrite El. by left. }
  rewrite E in Hin. by apply elem_of_nil in Hin.
Qed.
End Profits.

(** C10.  [win_loss_ratio_etc] does not get as far as splitting the profits
    into wins and losses: for a dictionary with one code and one matched
    group, [TaxCalcElement.individual_profits] raises on its call of [sort]
    and the exception ends [win_loss_ratio_etc]. *)
Theorem win_loss_ratio_etc_attribute_error :
  win_loss_ratio_etc ex_display 2022 ex_dict = Raise AttributeError.
Proof. by apply win_loss_ratio_etc_raises. Qed.

(** ** The matching of one closing trade *)

(** What the tiers take leaves the ledger. *)











(** With CGT-style matching switched off the whole quantity goes to the
    pooled tier. *)
Example match_for_group_pooled_only :
  match_for_group 4 ex_sell false (mkElement ∅ ex_three)
  = Raise ArithmeticError
  ∧ match_for_group 2 ex_sell false (mkElement ∅ [ex_buy])
    = Ok (ex_group, mkElement ∅ []).
Proof. split; by vm_compute. Qed.

(** C2.  Every group that [match_for_group] returns is fully matched: the
    quantities of its same-day, 30-day and pooled pieces sum to the closing
    quantity in magnitude, and [is_unmatched] is false.  So is every group
    that [allocate_trades] records. *)
Theorem conservation (fuel : nat) (CGTcalc : bool) (self : TaxCalcElement) :
  (∀ trade_to_match g self',
     match_for_group fuel trade_to_match CGTcalc self = Ok (g, self') →
     fully_matched g)
  ∧ (∀ n self',
       allocate_trades fuel CGTcalc self = Ok (n, self') →
       ∀ k g, matched self' !! k = Some g →
         matched self !! k = Some g ∨ fully_matched g).
Proof.
  split.
  - intros tm g self' [_ H]%match_for_group_Ok. by apply fully_matched_iff.
  - intros n self' H k g Hk.
    apply allocate_trades_inv in H as (n1 & s1 & Hc & H).
    apply closing_loop_run, closing_run_spec in Hc
      as (gs1 & -> & Hm1 & _ & _ & _ & Hgs1 & _).
    assert (matched s1 !! k = Some g →
            matched self !! k = Some g ∨ fully_matched g) as Hs1.
    { rewrite Hm1. intros Hk1.
      destruct (decide (1 ≤ k < 1 + Z.of_nat (length gs1))) as [Hin|Hout].
      - rewrite record_all_lookup_new in Hk1 by done. right.
        eapply Forall_lookup_1 in Hgs1 as [? _]; done.
      - rewrite record_all_lookup_old in Hk1 by done. by left. }
    destruct H as [(_ & -> & ->)|(_ & _ & Hl & _)]; [by apply Hs1|].
    apply leftover_loop_run, leftover_run_spec in Hl
      as (gs2 & -> & Hm2 & _ & _ & _ & Hgs2 & _).
    rewrite Hm2 in Hk.
    set (n1 := 1 + Z.of_nat (length gs1)) in *.
    destruct (decide (n1 ≤ k < n1 + Z.of_nat (length gs2))) as [Hin|Hout].
    + rewrite record_all_lookup_new in Hk by done. right.
      eapply Forall_lookup_1 in Hgs2 as [? _]; done.
    + rewrite record_all_lookup_old in Hk by done. by apply Hs1.
Qed.

Lemma conservation_witness :
  fully_matched ex_three_group ∧ fully_matched ex_group.
Proof.
  destruct (conservation 4 true (mkElement ∅ ex_three)) as [H1 _].
  destruct (conservation 3 false ex_element) as [_ H2].
  split.
  - apply (H1 ex_sell ex_three_group (mkElement ∅ [])). by vm_compute.
  - destruct (H2 2 (mkElement {[ 1 := ex_group ]} []) eq_refl 1 ex_group)
      as [H|H]; [by vm_compute|by vm_compute in H|exact H].
Defined.

(** ** The matching of a ledger *)

Lemma record_all_dom n gs (m : gmap Z TaxCalcTradeGroup) :
  dom m ⊆ dom (record_all n gs m).
Proof.
  revert n m. induction gs as [|g gs IH]; intros n m; simpl; [done|].
  etrans; [|apply IH]. rewrite dom_insert. set_solver.
Qed.

Lemma record_all_inj n (gs gs' : list TaxCalcTradeGroup) m :
  length gs = length gs' →
  record_all n gs m = record_all n gs' m → gs = gs'.
Proof.
  intros Hlen E. apply list_eq. intros i.
  destruct (decide (i < length gs)%nat) as [Hi|Hi].
  - pose proof (record_all_lookup_new n gs m (n + Z.of_nat i)) as H1.
    pose proof (record_all_lookup_new n gs' m (n + Z.of_nat i)) as H2.
    replace (Z.to_nat (n + Z.of_nat i - n)) with i in H1, H2 by lia.
    rewrite <-H1, <-H2 by lia. by rewrite E.
  - rewrite !lookup_ge_None_2 by lia. done.
Qed.

Lemma match_for_group_state fuel tm CGT m L g s1 :
  match_for_group fuel tm CGT (mkElement m L) = Ok (g, s1) →
  match_for_group fuel tm CGT (mkElement m L)
  = Ok (g, mkElement m (unmatched s1))
  ∧ closing_trade g = tm.
Proof.
  intros H. pose proof H as (_ & Hc & Hm & _)%match_for_group_spec.
  rewrite H. destruct s1; simpl in *. by subst.
Qed.

(** The first loop matches the closing trades in turn, the earliest
    first. *)
Lemma closing_run_turns CGT n s n' s' :
  closing_run CGT n s n' s' →
  ∃ gs, n' = n + Z.of_nat (length gs)
        ∧ matched s' = record_all n gs (matched s)
        ∧ matched_in_turn CGT earliest_close (unmatched s) gs (unmatched s').
Proof.
  induction 1 as [n s L Hpop|n s t L fuel g s1 n' s' Hpop Hg Hrun IH].
  - apply pop_earliest_None in Hpop as [-> _]. exists []. simpl.
    split_and!; [lia|done|constructor].
  - destruct IH as (gs & -> & Hm & Hturn). simpl in Hm, Hturn.
    apply pop_earliest_Some in Hpop as (i & Hi & -> & Hc & Hmin).
    pose proof Hg as (_ & _ & Hm1 & _)%match_for_group_spec. simpl in Hm1.
    apply match_for_group_state in Hg as [Hg Hct].
    exists (g :: gs). simpl. split_and!; [lia|by rewrite Hm, Hm1|].
    eapply turn_cons; [|exact Hg|exact Hct|exact Hturn].
    by exists i.
Qed.

(** The second loop matches what is left in turn, the latest first. *)
Lemma leftover_run_turns CGT n s n' s' :
  leftover_run CGT n s n' s' →
  ∃ gs, n' = n + Z.of_nat (length gs)
        ∧ matched s' = record_all n gs (matched s)
        ∧ matched_in_turn CGT latest_retyped (unmatched s) gs (unmatched s').
Proof.
  induction 1 as [n s He|n s t L fuel g s1 n' s' Hne Hpop Hg Hrun IH].
  - exists []. simpl. split_and!; [lia|done|constructor].
  - destruct IH as (gs & -> & Hm & Hturn). simpl in Hm, Hturn.
    pose proof (pop_last_inv _ _ _ Hpop) as Hsort.
    pose proof (date_sort_sorted (unmatched s)) as Hsorted.
    rewrite Hsort in Hsorted.
    apply pop_last_sorted in Hpop as [Hperm Hmax].
    pose proof Hg as (_ & _ & Hm1 & _)%match_for_group_spec. simpl in Hm1.
    apply match_for_group_state in Hg as [Hg Hct].
    exists (g :: gs). simpl. split_and!; [lia|by rewrite Hm, Hm1|].
    eapply turn_cons; [|exact Hg|exact Hct|exact Hturn].
    by exists t.
Qed.

(** C3.  [allocate_trades] takes the closing trades oldest first.  The
    groups it records are numbered 1, 2, ... without a gap, in the order in
    which they were matched, and nothing recorded before is lost.  The first
    groups, [gs1], are those of the trades typed Close, matched in turn:
    each time a trade typed Close that no other trade typed Close of the
    ledger precedes in time leaves the ledger, [match_for_group] builds its
    group from what is left, and the run goes on with what that leaves, as
    long as the ledger holds a trade typed Close; [L1] is the ledger when
    none is left.  So there is one group for each closing trade taken, their
    closing dates never decrease, and no trade typed Close is left when the
    run is over.  The groups after them, [gs2], are those of the leftover
    resolution, matched in turn from [L1]: there are none when [L1] is empty
    or holds a position. *)
Theorem allocate_trades_sequence (fuel : nat) (CGTcalc : bool)
    (self : TaxCalcElement) (n : Z) (self' : TaxCalcElement) :
  allocate_trades fuel CGTcalc self = Ok (n, self') →
  ∃ (gs1 gs2 : list TaxCalcTradeGroup) (L1 : TradeList),
    n = 1 + Z.of_nat (length (gs1 ++ gs2))
    ∧ matched self' = record_all 1 (gs1 ++ gs2) (matched self)
    ∧ (∀ k, 1 ≤ k < n →
         matched self' !! k = (gs1 ++ gs2) !! Z.to_nat (k - 1)
         ∧ is_Some (matched self' !! k))
    ∧ (∀ k, ¬ (1 ≤ k < n) → matched self' !! k = matched self !! k)
    ∧ dom (matched self) ⊆ dom (matched self')
    ∧ Forall (fun g => ∃ t, t ∈ unmatched self ∧ is_close t = true
                            ∧ like (closing_trade g) t) gs1
    ∧ StronglySorted closing_date_le gs1
    ∧ Forall (fun t => is_close t = false) (unmatched self')
    ∧ matched_in_turn CGTcalc earliest_close (unmatched self) gs1 L1
    ∧ Forall (fun t => is_close t = false) L1
    ∧ matched_in_turn CGTcalc latest_retyped L1 gs2 (unmatched self')
    ∧ (L1 = [] ∨ ¬ (final_position L1 == 0)%Q → gs2 = [])
    ∧ (L1 ≠ [] → (final_position L1 == 0)%Q → unmatched self' = []).
Proof.
  intros H. apply allocate_trades_inv in H as (n1 & s1 & Hc & H).
  apply closing_loop_run in Hc.
  destruct (closing_run_turns _ _ _ _ _ Hc) as (gs1 & Hn1 & Hm1 & Hturn1).
  apply closing_run_spec in Hc
    as (gs1' & Hn1' & Hm1' & _ & _ & Hnone & Hgs1 & Hsort).
  assert (gs1' = gs1) as ->.
  { apply (record_all_inj 1 _ _ (matched self)); [lia|congruence]. }
  subst n1.
  assert (∃ gs2, n = 1 + Z.of_nat (length (gs1 ++ gs2))
            ∧ matched self' = record_all 1 (gs1 ++ gs2) (matched self)
            ∧ Forall (fun t => is_close t = false) (unmatched self')
            ∧ matched_in_turn CGTcalc latest_retyped (unmatched s1) gs2
                (unmatched self')
            ∧ (unmatched s1 = [] ∨ ¬ (final_position (unmatched s1) == 0)%Q
               → gs2 = [])
            ∧ (unmatched s1 ≠ [] → (final_position (unmatched s1) == 0)%Q →
               unmatched self' = []))
    as (gs2 & -> & Hm & Hnone' & Hturn2 & Hstop & Hgo).
  { destruct H as [(Hcase & -> & ->)|(Hne & Hz & Hl & He)].
    - exists []. rewrite app_nil_r.
      split_and!; try done; [constructor|].
      intros Hne Hz. by destruct Hcase.
    - apply leftover_loop_run, leftover_run_turns in Hl
        as (gs2 & -> & Hm2 & Hturn2).
      exists gs2. rewrite length_app, record_all_app, <-Hm1, He.
      split_and!; [lia|done|constructor|by rewrite <-He|by intros [?|?]|done]. }
  exists gs1, gs2, (unmatched s1). split_and!; try done.
  - intros k Hk. rewrite Hm, record_all_lookup_new by lia.
    split; [done|]. apply lookup_lt_is_Some. lia.
  - intros k Hk. rewrite Hm. by apply record_all_lookup_old.
  - rewrite Hm. apply record_all_dom.
  - eapply Forall_impl; [exact Hgs1|]. by intros g [_ ?].
Qed.

Lemma allocate_trades_sequence_witness :
  ∃ (gs1 gs2 : list TaxCalcTradeGroup) (L1 : TradeList),
    2 = 1 + Z.of_nat (length (gs1 ++ gs2))
    ∧ StronglySorted closing_date_le gs1
    ∧ matched_in_turn false earliest_close ex_ledger gs1 L1
    ∧ Forall (fun t => is_close t = false) L1.
Proof.
  destruct (allocate_trades_sequence 3 false ex_element 2
              (mkElement {[ 1 := ex_group ]} []))
    as (gs1 & gs2 & L1 & H1 & _ & _ & _ & _ & _ & H7 & _ & H9 & H10 & _);
    [by vm_compute|].
  by exists gs1, gs2, L1.
Defined.

(** One turn of the second loop, when the first loop has left trades that
    net to zero. *)
Lemma allocate_trades_leftover_step fuel CGT self n1 self1 t L :
  closing_loop (S fuel) CGT 1 self = Ok (n1, self1) →
  unmatched self1 ≠ [] → (final_position (unmatched self1) == 0)%Q →
  pop_last (date_sort (unmatched self1)) = Ok (t, L) →
  allocate_trades (S fuel) CGT self
  = match match_for_group fuel (modify t Close) CGT
            (mkElement (matched self1) L) with
    | Raise e => Raise e
    | Ok (g, s2) =>
        match leftover_loop fuel CGT (n1 + 1) (recorded n1 g s2) with
        | Raise e => Raise e
        | Ok (n, self') =>
            if bool_decide (length (unmatched self') = 0%nat)
            then Ok (n, self') else Raise AssertionError
        end
    end.
Proof.
  intros Hc Hne Hz Hpop. unfold allocate_trades.
  erewrite bind_eq_Ok; [|exact Hc].
  unfold mbind at 1, tax_bind at 1, bind at 1, ask at 1.
  rewrite bool_decide_eq_true_2
    by (destruct (unmatched self1); [done|simpl; lia]).
  unfold mbind at 1, tax_bind at 1, bind at 1, ask at 1.
  rewrite (Qeq_eq_bool _ _ Hz).
  cbn [leftover_loop].
  unfold mbind, tax_bind, bind, ask, on_unmatched, record_group, recorded,
    mret, tax_ret, ret.
  rewrite bool_decide_eq_true_2
    by (destruct (unmatched self1); [done|simpl; lia]).
  cbn [unmatched matched]. rewrite Hpop.
  destruct (match_for_group fuel _ CGT _) as [[g s2]|e]; [|done].
  destruct (leftover_loop fuel CGT (n1 + 1) _) as [[n self']|e]; [|done].
  by case_bool_decide.
Qed.

(** C4.  Once the trades typed Close are exhausted, [allocate_trades] looks
    at what is left.  If nothing is left, or the net position of what is
    left is not zero, it stops there: the rest stays unmatched and no error
    is raised.  If trades are left and their net position is exactly zero,
    it takes the last trade of what is left in the order of the dates,
    re-types it as a closing trade and matches it by [match_for_group]
    against the others: when that fails, the run ends with the exception of
    the match; when it succeeds, the group is recorded under the next
    number and the run goes on with what the match has left.  With a unit of
    fuel for every trade left and one to spare the run ends with the ledger
    empty and at least one more group, or with the exception of a match that
    failed, never with a failed assertion.  A run that ends normally has
    emptied the ledger, its groups [gs] matched in turn, each time from the
    latest remaining trade, re-typed: the groups are fully matched, their
    closing trades are re-typed trades of the leftover ledger, the first of
    them the latest of all, and their closing dates never increase. *)
Theorem leftover_resolution (fuel : nat) (CGTcalc : bool)
    (self : TaxCalcElement) (n1 : Z) (self1 : TaxCalcElement) :
  closing_loop fuel CGTcalc 1 self = Ok (n1, self1) →
  (unmatched self1 = [] ∨ ¬ (final_position (unmatched self1) == 0)%Q →
   allocate_trades fuel CGTcalc self = Ok (n1, self1))
  ∧ (unmatched self1 ≠ [] → (final_position (unmatched self1) == 0)%Q →
     (∀ n self', allocate_trades fuel CGTcalc self = Ok (n, self') →
        unmatched self' = []
        ∧ ∃ gs, gs ≠ []
            ∧ n = n1 + Z.of_nat (length gs)
            ∧ matched self' = record_all n1 gs (matched self1)
            ∧ Forall (fun g => fully_matched g
                        ∧ tradetype (closing_trade g) = Close
                        ∧ ∃ t, t ∈ unmatched self1
                               ∧ retyped (closing_trade g) t) gs
            ∧ (∀ g t, head gs = Some g → t ∈ unmatched self1 →
                 Date t ≤ Date (closing_trade g))
            ∧ StronglySorted closing_date_ge gs
            ∧ matched_in_turn CGTcalc latest_retyped (unmatched self1) gs [])
     ∧ (∃ t L, pop_last (date_sort (unmatched self1)) = Ok (t, L)
          ∧ latest_retyped (unmatched self1) (modify t Close) L
          ∧ match match_for_group (pred fuel) (modify t Close) CGTcalc
                    (mkElement (matched self1) L) with
            | Raise e => allocate_trades fuel CGTcalc self = Raise e
            | Ok (g, _) =>
                closing_trade g = modify t Close
                ∧ ∀ n self',
                    allocate_trades fuel CGTcalc self = Ok (n, self') →
                    matched self' !! n1 = Some g
            end)
     ∧ ((length (unmatched self1) < fuel)%nat →
        match allocate_trades fuel CGTcalc self with
        | Ok (n, self') => n1 < n ∧ unmatched self' = []
        | Raise e => fatal e
        end)).
Proof.
  intros Hc. split.
  - intros Hcase. unfold allocate_trades.
    erewrite bind_eq_Ok; [|exact Hc].
    unfold mbind, tax_bind, bind, ask.
    destruct Hcase as [He|Hpos].
    + by rewrite He.
    + case_bool_decide; [|done].
      destruct (Qeq_bool _ 0) eqn:E; [|done].
      by apply Qeq_bool_iff in E.
  - intros Hne Hpos.
    assert (∀ n self', allocate_trades fuel CGTcalc self = Ok (n, self') →
              leftover_run CGTcalc n1 self1 n self' ∧ unmatched self' = [])
      as Hrun.
    { intros n self' H.
      apply allocate_trades_inv in H as (n1' & s1' & Hc' & H).
      rewrite Hc in Hc'. injection Hc' as <- <-.
      destruct H as [([He|Hnz] & _)|(_ & _ & Hl & He)]; [done..|].
      split; [by eapply leftover_loop_run|done]. }
    split_and!.
    + intros n self' [Hl He]%Hrun. split; [done|].
      destruct (leftover_run_turns _ _ _ _ _ Hl) as (gs' & Hn' & Hm' & Hturn).
      apply leftover_run_spec in Hl
        as (gs & Hn & Hm & _ & Hgs_ne & _ & Hgs & Hhead & Hsort).
      assert (gs' = gs) as ->.
      { apply (record_all_inj n1 _ _ (matched self1)); [lia|congruence]. }
      rewrite He in Hturn.
      exists gs. split_and!; try done; [by apply Hgs_ne|].
      intros g t Hg Ht. destruct gs as [|g0 gs]; [done|].
      injection Hg as <-. by apply Hhead.
    + destruct (pop_last_date_sort_Ok _ Hne) as (t & L & Hpop).
      exists t, L. split; [done|]. split.
      { exists t. pose proof (date_sort_sorted (unmatched self1)) as Hsorted.
        rewrite (pop_last_inv _ _ _ Hpop) in Hsorted.
        apply pop_last_sorted in Hpop as [Hperm Hmax]. done. }
      destruct fuel as [|fuel]; [discriminate|]. cbn [pred].
      pose proof (allocate_trades_leftover_step _ _ _ _ _ _ _
                    Hc Hne Hpos Hpop) as Hstep.
      destruct (match_for_group fuel _ CGTcalc _) as [[g s2]|e] eqn:Hg;
        [|done].
      pose proof Hg as (_ & Hct & _)%match_for_group_spec.
      split; [done|]. intros n self' H. rewrite H in Hstep.
      destruct (leftover_loop fuel CGTcalc (n1 + 1) _) as [[n' s']|e] eqn:Hl;
        [|done].
      case_bool_decide; [|done]. injection Hstep as -> ->.
      apply leftover_loop_run, leftover_run_spec in Hl
        as (gs & _ & Hm & _).
      rewrite Hm, record_all_lookup_old by lia. simpl.
      apply lookup_insert_eq.
    + intros Hfuel. unfold allocate_trades.
      erewrite bind_eq_Ok; [|exact Hc].
      unfold mbind at 1, tax_bind at 1, bind at 1, ask at 1.
      rewrite bool_decide_eq_true_2
        by (destruct (unmatched self1); [done|simpl; lia]).
      unfold mbind at 1, tax_bind at 1, bind at 1, ask at 1.
      rewrite (Qeq_eq_bool _ _ Hpos).
      pose proof (leftover_loop_ends fuel CGTcalc n1 self1 Hfuel) as Hends.
      unfold mbind, tax_bind, bind, ask.
      destruct (leftover_loop fuel CGTcalc n1 self1) as [[n s']|e] eqn:Hl;
        [|done].
      apply leftover_loop_run, leftover_run_spec in Hl
        as (gs & -> & _ & He & Hgs_ne & _).
      rewrite He. simpl. split; [|done].
      specialize (Hgs_ne Hne). destruct gs; [done|]. simpl. lia.
Qed.

(** Two trades typed Open that cancel out are matched by the second loop;
    a ledger holding an open position is left as it is; and two trades
    typed Open that cancel out on one day cannot be matched from the pool,
    so the run ends with the exception of the match. *)
Lemma leftover_resolution_witness :
  allocate_trades 3 false (mkElement ∅ [ex_buy])
  = Ok (1, mkElement ∅ [ex_buy])
  ∧ (∃ gs, gs ≠ [] ∧ matched_in_turn false latest_retyped ex_flat gs [])
  ∧ (∃ q t, allocate_trades 3 false (mkElement ∅ ex_flat_same_day)
            = Raise (CantFindMatch q t))
  ∧ match allocate_trades 3 false (mkElement ∅ ex_flat) with
    | Ok (n, self') => 1 < n ∧ unmatched self' = []
    | Raise e => fatal e
    end.
Proof.
  split_and!.
  - apply (leftover_resolution 3 false (mkElement ∅ [ex_buy]) 1
             (mkElement ∅ [ex_buy])); [by vm_compute|].
    right. by vm_compute.
  - destruct (leftover_resolution 3 false (mkElement ∅ ex_flat) 1
                (mkElement ∅ ex_flat) ltac:(by vm_compute)) as [_ H].
    destruct H as (H & _); [done|by vm_compute|].
    destruct (H 2 (mkElement {[ 1 := ex_group ]} []))
      as (_ & gs & Hne & _ & _ & _ & _ & _ & Hturn); [by vm_compute|].
    by exists gs.
  - destruct (leftover_resolution 3 false (mkElement ∅ ex_flat_same_day) 1
                (mkElement ∅ ex_flat_same_day) ltac:(by vm_compute))
      as [_ H].
    destruct H as (_ & (t & L & Hpop & _ & H) & _); [done|by vm_compute|].
    injection Hpop as <- <-.
    destruct (match_for_group _ _ _ _) as [[g s2]|e] eqn:E;
      [by vm_compute in E|].
    rewrite H. vm_compute in E. injection E as <-. by eexists _, _.
  - destruct (leftover_resolution 3 false (mkElement ∅ ex_flat) 1
                (mkElement ∅ ex_flat) ltac:(by vm_compute)) as [_ H].
    destruct H as (_ & _ & H); [done|by vm_compute|].
    apply H. simpl. lia.
Defined.

Example leftover_resolution_run :
  allocate_trades 3 false (mkElement ∅ ex_flat)
  = Ok (2, mkElement {[ 1 := ex_group ]} []).
Proof. by vm_compute. Qed.

(** ** Closing trades that cannot be matched *)

(** C5.  When the tiers leave a group that is not fully matched,
    [match_for_group] raises: the exception carries the quantity still
    unmatched, which is not zero, and the closing trade.  A group is
    returned only when it is fully matched.  With a unit of fuel for every
    trade of the ledger and one to spare there is no third outcome besides
    the failure of the proportionate pop; the exception of a closing trade
    goes through [allocate_trades], which ends with it, and a run of
    [allocate_trades] either completes or ends with one of these two. *)
Theorem unmatchable_is_fatal (fuel : nat) (trade_to_match : Trade)
    (CGTcalc : bool) (self : TaxCalcElement) :
  (∀ g self1,
     run_tiers fuel trade_to_match CGTcalc self = Ok (g, self1) →
     is_unmatched g = true →
     match_for_group fuel trade_to_match CGTcalc self
     = Raise (CantFindMatch (count_unmatched g) trade_to_match)
     ∧ ¬ (count_unmatched g == 0)%Q)
  ∧ (∀ g self',
       match_for_group fuel trade_to_match CGTcalc self = Ok (g, self') →
       is_unmatched g = false)
  ∧ ((length (unmatched self) < fuel)%nat →
     ends (match_for_group fuel trade_to_match CGTcalc self))
  ∧ (∀ self0 e,
       pop_earliest_closing_trade (unmatched self0)
       = (Some trade_to_match, unmatched self) →
       matched self0 = matched self →
       match_for_group fuel trade_to_match CGTcalc self = Raise e →
       allocate_trades (S fuel) CGTcalc self0 = Raise e)
  ∧ (∀ self0, (length (unmatched self0) < fuel)%nat →
       ends (allocate_trades fuel CGTcalc self0)).
Proof.
  split_and!; [| | | |intros self0; apply allocate_trades_ends].
  - intros g self1 Hrun Hm. split; [|by apply is_unmatched_true].
    unfold match_for_group. erewrite bind_eq_Ok; [|exact Hrun].
    rewrite Hm. apply run_tiers_spec in Hrun as (_ & _ & _ & -> & _). done.
  - by intros g self' [_ ?]%match_for_group_Ok.
  - apply match_for_group_ends.
  - intros self0 e Hpop Hm Hraise. unfold allocate_trades.
    apply bind_eq_Raise. simpl.
    unfold mbind, tax_bind, bind, on_unmatched. rewrite Hpop, Hm.
    destruct self as [m L]. simpl in *. by rewrite Hraise.
Qed.

Lemma unmatchable_is_fatal_witness :
  match_for_group 1 ex_sell true (mkElement ∅ [])
  = Raise (CantFindMatch (count_unmatched (new_group ex_sell)) ex_sell)
  ∧ allocate_trades 2 true (mkElement ∅ [ex_sell])
    = Raise (CantFindMatch (-100) ex_sell).
Proof.
  destruct (unmatchable_is_fatal 1 ex_sell true (mkElement ∅ []))
    as (H1 & _ & _ & H4 & _).
  split.
  - by apply (H1 (new_group ex_sell) (mkElement ∅ [])).
  - by apply H4.
Defined.

(** ** Determinism *)

(** C6.  Two runs of the matching on the same input with the same CGT
    toggle give the same outcome, whatever the number of turns each was
    allowed, as long as both came to an end: the same groups under the same
    numbers, the same remaining ledger or the same exception, for one
    element and for a dictionary of elements; and equal groups report equal
    tuples. *)
Theorem matching_deterministic (fuel1 fuel2 : nat) (CGTcalc : bool) :
  (∀ self r1 r2,
     allocate_trades fuel1 CGTcalc self = r1 →
     allocate_trades fuel2 CGTcalc self = r2 →
     r1 ≠ Raise OutOfFuel → r2 ≠ Raise OutOfFuel → r1 = r2)
  ∧ (∀ d r1 r2,
       allocate_dict_trades fuel1 CGTcalc d = r1 →
       allocate_dict_trades fuel2 CGTcalc d = r2 →
       r1 ≠ Raise OutOfFuel → r2 ≠ Raise OutOfFuel → r1 = r2)
  ∧ (∀ (group_display_taxes : Z → bool → TaxCalcTradeGroup → TaxTuple)
       taxyear self n1 self1 n2 self2,
       allocate_trades fuel1 CGTcalc self = Ok (n1, self1) →
       allocate_trades fuel2 CGTcalc self = Ok (n2, self2) →
       self1 = self2
       ∧ taxdata_of group_display_taxes taxyear CGTcalc self1
         = taxdata_of group_display_taxes taxyear CGTcalc self2
       ∧ display_taxes_for_code group_display_taxes taxyear CGTcalc self1
         = display_taxes_for_code group_display_taxes taxyear CGTcalc self2).
Proof.
  assert (∀ self r1 r2,
     allocate_trades fuel1 CGTcalc self = r1 →
     allocate_trades fuel2 CGTcalc self = r2 →
     r1 ≠ Raise OutOfFuel → r2 ≠ Raise OutOfFuel → r1 = r2) as Hel.
  { intros self r1 r2 H1 H2 Hne1 Hne2.
    destruct (Nat.le_ge_cases fuel1 fuel2) as [Hle|Hle].
    - rewrite <-H2. symmetry. by eapply allocate_trades_fuel_mono.
    - rewrite <-H1. by eapply allocate_trades_fuel_mono. }
  split_and!; [done| |].
  - intros d r1 r2 H1 H2 Hne1 Hne2.
    destruct (Nat.le_ge_cases fuel1 fuel2) as [Hle|Hle].
    + rewrite <-H2. symmetry. by eapply allocate_dict_trades_fuel_mono.
    + rewrite <-H1. by eapply allocate_dict_trades_fuel_mono.
  - intros gdt taxyear self n1 self1 n2 self2 H1 H2.
    assert (Ok (n1, self1) = Ok (n2, self2)) as [= -> ->]; [|done].
    by eapply Hel.
Qed.

Lemma matching_deterministic_witness :
  allocate_trades 3 true ex_element = allocate_trades 5 true ex_element.
Proof.
  destruct (matching_deterministic 3 5 true) as (H & _).
  apply (H ex_element); [reflexivity|reflexivity|by vm_compute|by vm_compute].
Defined.

(** The order of the ledger matters where dates tie: the same-day tier
    takes the trade that comes last in the ledger. *)
Example ledger_order_matters :
  let b10 := ex_trade 10 50 10 0 Open in
  let b11 := ex_trade 10 50 11 0 Open in
  let sale := ex_trade 10 (-50) 12 0 Close in
  match_for_group 3 sale true (mkElement ∅ [b10; b11])
  = Ok (mkGroup sale [b11] [] [], mkElement ∅ [b10])
  ∧ match_for_group 3 sale true (mkElement ∅ [b11; b10])
    = Ok (mkGroup sale [b10] [] [], mkElement ∅ [b11]).
Proof. split; by vm_compute. Qed.

(** * Further properties of the module *)

(** ** Building and matching a dictionary *)

Lemma init_each_Ok items :
  Forall (fun cl => check_same_code cl.2 = true) items →
  init_each items = Ok (prod_map id (mkElement ∅) <$> items).
Proof.
  induction 1 as [|[c L] items Hc _ IH]; simpl; [done|].
  unfold TaxCalcElement_init. simpl in Hc. by rewrite Hc, IH.
Qed.

Lemma init_each_Raise items :
  Exists (fun cl => check_same_code cl.2 = false) items →
  init_each items = Raise AssertionError.
Proof.
  induction 1 as [[c L] items Hc|[c L] items _ IH]; simpl.
  - unfold TaxCalcElement_init. simpl in Hc. by rewrite Hc.
  - unfold TaxCalcElement_init. destruct (check_same_code L); [|done].
    by rewrite IH.
Qed.

(** X1.  A dictionary of elements is built from a dictionary of ledgers
    exactly when no ledger mixes codes: then every code gets an element that
    holds its ledger as given and nothing matched; one ledger with two
    different codes makes the whole construction fail with an assertion
    error.  The key under which a ledger is filed is not compared with the
    code of its trades. *)
Theorem TaxCalcDict_init_spec (tradedict : gmap string TradeList) :
  ((∀ c L, tradedict !! c = Some L →
      ∀ t u, t ∈ L → u ∈ L → Code t = Code u) →
   TaxCalcDict_init tradedict = Ok (mkElement ∅ <$> tradedict))
  ∧ (∀ c L t u, tradedict !! c = Some L → t ∈ L → u ∈ L → Code t ≠ Code u →
       TaxCalcDict_init tradedict = Raise AssertionError).
Proof.
  unfold TaxCalcDict_init. split.
  - intros Hall. rewrite init_each_Ok.
    + by rewrite list_to_map_fmap, list_to_map_to_list.
    + apply Forall_forall. intros [c L] Hin%elem_of_map_to_list. simpl.
      apply check_same_code_iff. by eapply Hall.
  - intros c L t u Hc Ht Hu Hne. rewrite init_each_Raise; [done|].
    apply Exists_exists. exists (c, L). split; [by apply elem_of_map_to_list|].
    simpl. destruct (check_same_code L) eqn:E; [|done].
    destruct Hne. by eapply check_same_code_iff.
Qed.

Lemma TaxCalcDict_init_spec_witness :
  TaxCalcDict_init {[ "XYZ"%string := ex_ledger ]}
  = Ok {[ "XYZ"%string := ex_element ]}
  ∧ TaxCalcDict_init {[ "ABC"%string := [ex_buy; ex_other] ]}
    = Raise AssertionError.
Proof.
  split.
  - destruct (TaxCalcDict_init_spec {[ "XYZ"%string := ex_ledger ]})
      as [H _].
    rewrite H; [by rewrite map_fmap_singleton|].
    intros c L [<- <-]%lookup_singleton_Some t u Ht Hu.
    apply elem_of_cons in Ht as [->|Ht];
      [|apply list_elem_of_singleton in Ht as ->];
      (apply elem_of_cons in Hu as [->|Hu];
       [|apply list_elem_of_singleton in Hu as ->]); reflexivity.
  - destruct (TaxCalcDict_init_spec {[ "ABC"%string := [ex_buy; ex_other] ]})
      as [_ H].
    apply (H "ABC"%string [ex_buy; ex_other] ex_buy ex_other);
      [apply lookup_singleton_eq|by left|by right; left|discriminate].
Defined.

Lemma allocate_each_Ok fuel CGT items items' :
  allocate_each fuel CGT items = Ok items' →
  Forall2 (fun x y => x.1 = y.1
             ∧ ∃ n, allocate_trades fuel CGT x.2 = Ok (n, y.2))
    items items'.
Proof.
  revert items'. induction items as [|[c e] items IH]; intros items'; simpl.
  - intros [= <-]. constructor.
  - destruct (allocate_trades fuel CGT e) as [[n e']|x] eqn:E; [|done].
    destruct (allocate_each fuel CGT items) as [rest|x]; [|done].
    intros [= <-]. constructor; [|by apply IH]. simpl. eauto.
Qed.

Lemma Forall2_same_keys {A B} (P : A → B → Prop)
    (l : list (string * A)) (k : list (string * B)) :
  Forall2 (fun x y => x.1 = y.1 ∧ P x.2 y.2) l k → l.*1 = k.*1.
Proof.
  induction 1 as [|x y l k [Hxy _] _ IH]; csimpl; [done|]. by rewrite Hxy, IH.
Qed.

Lemma allocate_each_is_Ok fuel CGT items :
  Forall (fun x => ∃ n e', allocate_trades fuel CGT x.2 = Ok (n, e')) items →
  ∃ items', allocate_each fuel CGT items = Ok items'.
Proof.
  induction 1 as [|[c e] items (n & e' & He) _ [rest IH]]; simpl; [by eexists|].
  simpl in He. rewrite He, IH. by eexists.
Qed.

(** X2.  Matching a dictionary matches every code on its own: when
    [allocate_dict_trades] ends normally the result has the codes it had
    before, and the element of each code is what [allocate_trades] makes of
    that code's element alone; it ends normally as soon as every element
    does. *)
Theorem allocate_dict_trades_by_code (fuel : nat) (CGTcalc : bool)
    (d : TaxCalcDict) :
  (∀ d', allocate_dict_trades fuel CGTcalc d = Ok d' →
     ∀ c, match d !! c with
          | Some e => ∃ n e', allocate_trades fuel CGTcalc e = Ok (n, e')
                              ∧ d' !! c = Some e'
          | None => d' !! c = None
          end)
  ∧ ((∀ c e, d !! c = Some e →
        ∃ n e', allocate_trades fuel CGTcalc e = Ok (n, e')) →
     ∃ d', allocate_dict_trades fuel CGTcalc d = Ok d').
Proof.
  unfold allocate_dict_trades. split.
  - intros d' H c.
    destruct (allocate_each fuel CGTcalc (map_to_list d)) as [items|x] eqn:E;
      [|done].
    injection H as <-. apply allocate_each_Ok in E.
    assert (items.*1 = (map_to_list d).*1) as Hkeys
      by (symmetry;
          by apply (Forall2_same_keys
                      (fun a b => ∃ n, allocate_trades fuel CGTcalc a = Ok (n, b)))).
    destruct (d !! c) as [e|] eqn:Hc.
    + apply elem_of_map_to_list, list_elem_of_lookup in Hc as [i Hi].
      destruct (Forall2_lookup_l _ _ _ _ _ E Hi) as ([c' e'] & Hi' & Hc' & n & Hn).
      simpl in *. subst c'. exists n, e'. split; [done|].
      apply elem_of_list_to_map; [|by eapply list_elem_of_lookup_2].
      rewrite Hkeys. apply NoDup_fst_map_to_list.
    + apply not_elem_of_list_to_map_1. rewrite Hkeys.
      intros ([c' e] & -> & Hin%elem_of_map_to_list)%list_elem_of_fmap.
      simpl in Hc. congruence.
  - intros Hall.
    destruct (allocate_each_is_Ok fuel CGTcalc (map_to_list d)) as [items H].
    + apply Forall_forall. intros [c e] Hin%elem_of_map_to_list. by eapply Hall.
    + rewrite H. by eexists.
Qed.

Lemma allocate_dict_trades_by_code_witness :
  ∃ n e', allocate_trades 3 true ex_element = Ok (n, e')
          ∧ ({[ "ABC"%string := ex_matched ]} : TaxCalcDict) !! "ABC"%string
            = Some e'.
Proof.
  destruct (allocate_dict_trades_by_code 3 true {[ "ABC"%string := ex_element ]})
    as [H _].
  specialize (H {[ "ABC"%string := ex_matched ]} ltac:(by vm_compute)
                "ABC"%string).
  rewrite lookup_singleton_eq in H. exact H.
Defined.

(** ** Reports by code *)

Lemma omap_lookup_pairs `{Countable K} {A B} (m : gmap K A) (f : K → A → B)
    (l : list (K * A)) :
  (∀ k v, (k, v) ∈ l → m !! k = Some v) →
  omap (fun k => f k <$> m !! k) l.*1 = (fun kv => f kv.1 kv.2) <$> l.
Proof.
  induction l as [|[k v] l IH]; intros Hl; csimpl; [done|].
  rewrite (Hl k v) by by left. simpl. f_equal.
  apply IH. intros k' v' Hin. apply Hl. by right.
Qed.

Lemma dict_by_code_fmap {A} (f : TaxCalcElement → A) (d : TaxCalcDict) :
  dict_by_code f d = f <$> d.
Proof.
  unfold dict_by_code, sorted_codes.
  trans (list_to_map (prod_map id f <$> map_to_list d) : gmap string A);
    [|by rewrite list_to_map_fmap, list_to_map_to_list].
  symmetry. apply list_to_map_proper.
  - rewrite <-list_fmap_compose.
    rewrite (list_fmap_ext (fst ∘ prod_map id f) fst (map_to_list d))
      by (by intros i [c e]).
    apply NoDup_fst_map_to_list.
  - rewrite merge_sort_Permutation.
    rewrite (omap_lookup_pairs d (fun c e => (c, f e))); [done|].
    intros k v. apply elem_of_map_to_list.
Qed.

(** X3.  The profits and the average commissions by code have exactly the
    codes of the dictionary, each with the figure of its own element:
    sorting the codes and building the result from the sorted list loses
    and adds none. *)
Theorem reports_by_code
    (group_display_taxes : Z → bool → TaxCalcTradeGroup → TaxTuple)
    (taxyear : Z) (CGTCalc : bool) (d : TaxCalcDict) (c : string) :
  return_profits group_display_taxes taxyear CGTCalc d !! c
  = return_profits_for_code group_display_taxes taxyear CGTCalc <$> d !! c
  ∧ dict_average_commission group_display_taxes taxyear d !! c
    = average_commission group_display_taxes taxyear <$> d !! c.
Proof.
  unfold return_profits, dict_average_commission.
  rewrite !dict_by_code_fmap, !lookup_fmap. done.
Qed.

(** ** Tax years *)

Lemma elem_of_closing_trade_dates (self : TaxCalcElement) (x : Z) :
  x ∈ closing_trade_dates self ↔
  ∃ k g, matched self !! k = Some g ∧ Date (closing_trade g) = x.
Proof.
  unfold closing_trade_dates.
  rewrite (omap_sorted_keys Z.le (matched self)
             (fun g => Date (closing_trade g))).
  rewrite list_elem_of_fmap. split.
  - intros ([k g] & -> & Hin%elem_of_map_to_list). by exists k, g.
  - intros (k & g & Hk & <-). exists (k, g).
    split; [done|]. by apply elem_of_map_to_list.
Qed.

(** X4.  The tax years of a dictionary come sorted and without repetition,
    and they are exactly the tax years of the closing dates of the groups
    recorded for its codes. *)
Theorem tax_year_span_spec (which_tax_year : Z → Z) (d : TaxCalcDict) :
  Sorted Z.le (tax_year_span which_tax_year d)
  ∧ NoDup (tax_year_span which_tax_year d)
  ∧ ∀ y, y ∈ tax_year_span which_tax_year d ↔
         ∃ c self k g, d !! c = Some self ∧ matched self !! k = Some g
                       ∧ which_tax_year (Date (closing_trade g)) = y.
Proof.
  unfold tax_year_span. split_and!.
  - apply Sorted_merge_sort. apply _.
  - rewrite merge_sort_Permutation. apply NoDup_remove_dups.
  - intros y. rewrite merge_sort_Permutation, elem_of_remove_dups.
    rewrite list_elem_of_fmap. setoid_rewrite list_elem_of_bind. split.
    + intros (x & -> & self & Hx & Hin).
      apply list_elem_of_fmap in Hin as ([c self'] & -> & Hin).
      apply elem_of_map_to_list in Hin.
      apply elem_of_closing_trade_dates in Hx as (k & g & Hk & <-).
      by exists c, self', k, g.
    + intros (c & self & k & g & Hc & Hk & <-).
      exists (Date (closing_trade g)). split; [done|].
      exists self. split; [apply elem_of_closing_trade_dates; eauto|].
      apply list_elem_of_fmap. exists (c, self).
      split; [done|]. by apply elem_of_map_to_list.
Qed.

(** ** The code of an element *)

(** X5.  Straight after its construction [code] gives the code of an
    element: the code every trade of its ledger carries, or the empty
    string for an empty ledger. *)
Theorem code_after_init (trade_list : TradeList) (self : TaxCalcElement) :
  TaxCalcElement_init trade_list = Ok self →
  (trade_list = [] → code self = Returned ""%string)
  ∧ (∀ t, t ∈ trade_list → code self = Returned (Code t)).
Proof.
  unfold TaxCalcElement_init.
  destruct (check_same_code trade_list) eqn:E; [|done].
  intros [= <-]. unfold code. simpl. rewrite map_size_empty. simpl. split.
  - by intros ->.
  - intros t Ht. destruct trade_list as [|t0 L]; [by apply elem_of_nil in Ht|].
    f_equal. eapply check_same_code_iff; [done|by left|done].
Qed.

Lemma code_after_init_witness : code ex_element = Returned "ABC"%string.
Proof.
  destruct (code_after_init ex_ledger ex_element) as [_ H]; [by vm_compute|].
  apply (H ex_sell). by right; left.
Defined.

(** ** Sums of the reports *)

Lemma py_sum_app l1 l2 : (py_sum (l1 ++ l2) == py_sum l1 + py_sum l2)%Q.
Proof.
  induction l1 as [|x l1 IH]; simpl.
  - unfold py_sum at 2. simpl. lra.
  - rewrite !py_sum_cons, IH. lra.
Qed.

Lemma py_sum_bind {A B} (f : B → Q) (g : A → Q) (h : A → list B)
    (l : list A) :
  (∀ x, x ∈ l → (g x == py_sum (f <$> h x))%Q) →
  (py_sum (g <$> l) == py_sum (f <$> (l ≫= h)))%Q.
Proof.
  induction l as [|x l IH]; intros Hl; [reflexivity|].
  rewrite bind_cons, fmap_app, py_sum_app, fmap_cons, py_sum_cons.
  rewrite IH by (intros; apply Hl; by right).
  rewrite (Hl x) by by left. reflexivity.
Qed.

Lemma sum_tuples_field (taxdata : list TaxTuple) (f : TaxTuple → Q) :
  f ∈ tuple_fields → f (sum_tuples taxdata) = py_sum (f <$> taxdata).
Proof.
  revert f. apply Forall_forall. unfold tuple_fields.
  repeat constructor.
Qed.

Lemma zero_tax_tuple_field (f : TaxTuple → Q) :
  f ∈ tuple_fields → f zero_tax_tuple = 0%Q.
Proof.
  revert f. apply Forall_forall. unfold tuple_fields.
  repeat constructor.
Qed.

Lemma display_taxes_for_code_sums_field
    (group_display_taxes : Z → bool → TaxCalcTradeGroup → TaxTuple)
    (taxyear : Z) (CGTCalc : bool) (self : TaxCalcElement)
    (f : TaxTuple → Q) :
  f ∈ tuple_fields →
  (f (display_taxes_for_code group_display_taxes taxyear CGTCalc self)
   == py_sum (f <$> reported group_display_taxes taxyear CGTCalc self))%Q.
Proof.
  intros Hf. unfold display_taxes_for_code.
  pose proof (taxdata_of_perm group_display_taxes taxyear CGTCalc self) as Hp.
  cbv zeta. case_bool_decide as Hlen.
  - rewrite zero_tax_tuple_field by done.
    rewrite (Permutation_length Hp) in Hlen.
    apply nil_length_inv in Hlen. by rewrite Hlen.
  - rewrite sum_tuples_field by done. apply py_sum_perm. by rewrite Hp.
Qed.

(** X7.  Every figure the report of a code returns is the sum of that figure
    over the groups recorded for the code; the order in which the groups
    are visited does not show in it, and neither does the special case of a
    code without groups. *)
Theorem display_taxes_for_code_sums
    (group_display_taxes : Z → bool → TaxCalcTradeGroup → TaxTuple)
    (taxyear : Z) (CGTCalc : bool) (self : TaxCalcElement)
    (f : TaxTuple → Q) :
  f ∈ tuple_fields →
  (f (display_taxes_for_code group_display_taxes taxyear CGTCalc self)
   == py_sum (f <$> reported group_display_taxes taxyear CGTCalc self))%Q.
Proof. apply display_taxes_for_code_sums_field. Qed.

Lemma display_taxes_for_code_sums_witness :
  (gbp_net_profit (display_taxes_for_code ex_display 2022 true ex_matched)
   == py_sum (gbp_net_profit <$> reported ex_display 2022 true ex_matched))%Q.
Proof.
  apply (display_taxes_for_code_sums ex_display 2022 true ex_matched).
  unfold tuple_fields. repeat (first [by left | right]).
Defined.

(** X8.  The report of a dictionary refuses a level of detail it does not
    know with a failed assertion; for a dictionary without codes it has no
    summary; otherwise every figure of its summary is the sum of that figure
    over all groups of all codes. *)
Theorem display_taxes_spec
    (group_display_taxes : Z → bool → TaxCalcTradeGroup → TaxTuple)
    (taxyear : Z) (CGTCalc : bool) (reportinglevel : string)
    (d : TaxCalcDict) :
  (reportinglevel ∉ reporting_levels →
     display_taxes group_display_taxes taxyear CGTCalc reportinglevel d
     = Raise AssertionError)
  ∧ (reportinglevel ∈ reporting_levels → d = ∅ →
     display_taxes group_display_taxes taxyear CGTCalc reportinglevel d
     = Ok None)
  ∧ (reportinglevel ∈ reporting_levels → d ≠ ∅ →
     ∃ summary_taxdata,
       display_taxes group_display_taxes taxyear CGTCalc reportinglevel d
       = Ok (Some summary_taxdata)
       ∧ ∀ f, f ∈ tuple_fields →
           (f summary_taxdata
            == py_sum (f <$> (map_to_list d ≫= fun ce =>
                 reported group_display_taxes taxyear CGTCalc ce.2)))%Q).
Proof.
  unfold display_taxes.
  pose proof (omap_sorted_keys string_le d
    (display_taxes_for_code group_display_taxes taxyear CGTCalc)) as Hp.
  fold (sorted_codes d) in Hp.
  split_and!.
  - intros Hn. by rewrite bool_decide_eq_false_2.
  - intros Hin ->. rewrite bool_decide_eq_true_2 by done. cbv zeta.
    rewrite bool_decide_eq_true_2; [done|].
    unfold sorted_codes. by rewrite map_to_list_empty.
  - intros Hin Hne. rewrite bool_decide_eq_true_2 by done. cbv zeta.
    rewrite bool_decide_eq_false_2.
    + eexists. split; [done|]. intros f Hf.
      rewrite sum_tuples_field by done.
      rewrite (py_sum_perm _ _ (fmap_Permutation f _ _ Hp)).
      rewrite <-list_fmap_compose.
      apply py_sum_bind. intros [c self] _. simpl.
      by apply display_taxes_for_code_sums_field.
    + rewrite (Permutation_length Hp), length_fmap.
      intros Hl%nil_length_inv. by apply map_to_list_empty_iff in Hl.
Qed.

Lemma display_taxes_spec_witness :
  display_taxes ex_display 2022 true "LOUD" ex_dict = Raise AssertionError
  ∧ display_taxes ex_display 2022 true "BRIEF" ∅ = Ok None
  ∧ ∃ summary_taxdata,
      display_taxes ex_display 2022 true "BRIEF" ex_dict
      = Ok (Some summary_taxdata).
Proof.
  split_and!.
  - apply (display_taxes_spec ex_display 2022 true "LOUD" ex_dict).
    apply (bool_decide_unpack _). by vm_compute.
  - apply (display_taxes_spec ex_display 2022 true "BRIEF" ∅); [|done].
    apply (bool_decide_unpack _). by vm_compute.
  - destruct (display_taxes_spec ex_display 2022 true "BRIEF" ex_dict)
      as (_ & _ & H).
    destruct H as (s & Hs & _).
    + apply (bool_decide_unpack _). by vm_compute.
    + unfold ex_dict. intros E.
      apply (f_equal (fun m => m !! "ABC"%string)) in E.
      rewrite lookup_singleton_eq, lookup_empty in E. discriminate.
    + by exists s.
Defined.

(** ** More on the matching *)

Lemma find_indices_none p l i :
  Forall (fun t => p t = false) l → find_indices p l i = [].
Proof.
  revert i. induction l as [|t l IH]; intros i Hl; simpl; [done|].
  apply Forall_cons in Hl as [-> Hl]. by apply IH.
Qed.

Lemma pop_earliest_no_close L :
  Forall (fun t => is_close t = false) L →
  pop_earliest_closing_trade L = (None, L).
Proof.
  intros H. unfold pop_earliest_closing_trade.
  by rewrite (find_indices_none _ _ _ H).
Qed.

Lemma element_eta (s : TaxCalcElement) :
  mkElement (matched s) (unmatched s) = s.
Proof. by destruct s. Qed.

(** A ledger without closing trades that is empty or holds a position is
    left as it is. *)
Lemma allocate_trades_settled fuel CGT s :
  Forall (fun t => is_close t = false) (unmatched s) →
  unmatched s = [] ∨ ¬ (final_position (unmatched s) == 0)%Q →
  allocate_trades (S fuel) CGT s = Ok (1, s).
Proof.
  intros Hc Hpos. unfold allocate_trades. simpl.
  unfold mbind, tax_bind, bind, on_unmatched, ask.
  rewrite (pop_earliest_no_close _ Hc), element_eta. cbn [mret tax_ret ret].
  case_bool_decide as Hk; [|done].
  destruct Hpos as [E|Hne]; [rewrite E in Hk; simpl in Hk; lia|].
  destruct (Qeq_bool _ _) eqn:E; [|done].
  by apply Qeq_bool_iff in E.
Qed.

(** The groups of a run, in the order in which they were recorded. *)
Lemma allocate_trades_groups fuel CGT s n s' :
  allocate_trades fuel CGT s = Ok (n, s') →
  ∃ gs, n = 1 + Z.of_nat (length gs)
        ∧ matched s' = record_all 1 gs (matched s)
        ∧ (length gs + length (unmatched s') ≤ length (unmatched s))%nat
        ∧ Forall (fun t => is_close t = false) (unmatched s')
        ∧ (unmatched s' = [] ∨ ¬ (final_position (unmatched s') == 0)%Q).
Proof.
  intros H. apply allocate_trades_inv in H as (n1 & s1 & Hc & H).
  apply closing_loop_run, closing_run_spec in Hc
    as (gs1 & -> & Hm1 & _ & Hl1 & Hnc & _).
  destruct H as [(Hpos & -> & ->)|(Hne & Hz & Hl & He)].
  - exists gs1. split_and!; try done. lia.
  - apply leftover_loop_run, leftover_run_spec in Hl
      as (gs2 & -> & Hm2 & _ & _ & Hl2 & _).
    exists (gs1 ++ gs2). rewrite length_app, record_all_app, He.
    split_and!; [lia|by rewrite Hm2, Hm1|simpl; lia|done|by left].
Qed.

(** X9.  A second run of [allocate_trades] on an element changes nothing:
    no trade typed Close is left after the first run, and what is left is
    empty or holds a position, so the second run records no group and
    returns the element as it is. *)
Theorem allocate_trades_twice (fuel : nat) (CGTcalc : bool)
    (self : TaxCalcElement) (n : Z) (self' : TaxCalcElement) :
  allocate_trades fuel CGTcalc self = Ok (n, self') →
  ∀ fuel' CGTcalc', allocate_trades (S fuel') CGTcalc' self' = Ok (1, self').
Proof.
  intros H fuel' CGT'.
  apply allocate_trades_groups in H as (gs & _ & _ & _ & Hc & Hpos).
  by apply allocate_trades_settled.
Qed.

Lemma allocate_trades_twice_witness :
  ∃ self', allocate_trades 3 true ex_element = Ok (2, self')
           ∧ allocate_trades 1 false self' = Ok (1, self').
Proof.
  eexists. split; [by vm_compute|].
  eapply (allocate_trades_twice 3 true ex_element). by vm_compute.
Defined.

(** X10.  Every group takes at least its closing trade out of the ledger:
    the number of groups a run records and the number of trades it leaves
    are together at most the number of trades it was given. *)
Theorem allocate_trades_count (fuel : nat) (CGTcalc : bool)
    (self : TaxCalcElement) (n : Z) (self' : TaxCalcElement) :
  allocate_trades fuel CGTcalc self = Ok (n, self') →
  1 ≤ n
  ∧ (Z.to_nat (n - 1) + length (unmatched self')
     ≤ length (unmatched self))%nat
  ∧ (size (matched self')
     ≤ size (matched self) + Z.to_nat (n - 1))%nat.
Proof.
  intros H.
  apply allocate_trades_groups in H as (gs & -> & Hm & Hl & _).
  split_and!; [lia|lia|].
  replace (Z.to_nat (1 + Z.of_nat (length gs) - 1)) with (length gs) by lia.
  rewrite Hm. clear. generalize 1. generalize (matched self).
  induction gs as [|g gs IH]; intros m k; simpl; [lia|].
  etrans; [apply IH|].
  destruct (m !! k) eqn:E.
  - rewrite map_size_insert_Some by done. lia.
  - rewrite map_size_insert_None by done. lia.
Qed.

Lemma allocate_trades_count_witness :
  ∃ self', allocate_trades 3 true ex_element = Ok (2, self')
           ∧ (Z.to_nat (2 - 1) + length (unmatched self')
              ≤ length (unmatched ex_element))%nat.
Proof.
  eexists. split; [by vm_compute|].
  eapply (allocate_trades_count 3 true ex_element). by vm_compute.
Defined.

(** ** The code of an element after the matching *)

Lemma closing_run_progress CGT n s n' s' :
  closing_run CGT n s n' s' →
  (∃ t, t ∈ unmatched s ∧ is_close t = true) → n < n'.
Proof.
  intros Hrun (t & Hin & Hc). destruct Hrun as [n s L Hpop|n s t0 L fuel g s1 n' s' Hpop Hg Hrun].
  - apply pop_earliest_None in Hpop as [_ Hnone].
    eapply Forall_forall in Hnone; [|exact Hin]. congruence.
  - apply closing_run_spec in Hrun as (gs & -> & _). lia.
Qed.

Lemma matched_in_turn_nil CGT next L L' :
  matched_in_turn CGT next L [] L' → L' = L.
Proof. by inversion 1. Qed.

(** X6.  Once the matching has recorded a group for an element, [code] can
    no longer be evaluated on it: after a run of [allocate_trades] on a
    ledger that holds a trade typed Close, and after any run that has
    recorded a group, [code] ends with a type error.  A run that records
    nothing returns the element as it was, and [code] with it. *)
Theorem code_after_allocate_trades (fuel : nat) (CGTcalc : bool)
    (self : TaxCalcElement) (n : Z) (self' : TaxCalcElement) :
  allocate_trades fuel CGTcalc self = Ok (n, self') →
  ((∃ t, t ∈ unmatched self ∧ is_close t = true) → code self' = TypeError)
  ∧ (1 < n → code self' = TypeError)
  ∧ (n = 1 → self' = self ∧ code self' = code self).
Proof.
  intros H.
  assert (1 < n → code self' = TypeError) as Hgroup.
  { intros Hn.
    apply allocate_trades_groups in H as (gs & -> & Hm & _).
    destruct gs as [|g gs]; [simpl in Hn; lia|].
    assert (matched self' !! 1 = Some g) as Hg.
    { rewrite Hm, record_all_lookup_new by (simpl; lia). done. }
    unfold code. rewrite bool_decide_eq_true_2; [done|].
    assert (matched self' ≠ ∅) as Hne%map_size_non_empty_iff; [|lia].
    intros E. by rewrite E, lookup_empty in Hg. }
  apply allocate_trades_inv in H as (n1 & s1 & Hc & H).
  apply closing_loop_run in Hc.
  assert (n1 ≤ n ∧ (n = 1 → n = n1 ∧ self' = s1)) as [Hle Hone].
  { pose proof (closing_run_spec _ _ _ _ _ Hc) as (gs1 & -> & _).
    destruct H as [(_ & -> & ->)|(Hne & _ & Hl & _)]; [done|].
    apply leftover_loop_run, leftover_run_spec in Hl
      as (gs2 & -> & _ & _ & Hgs & _).
    specialize (Hgs Hne). destruct gs2; [done|]. simpl. lia. }
  split_and!; [|done|].
  - intros Hclose. apply Hgroup.
    pose proof (closing_run_progress _ _ _ _ _ Hc Hclose). lia.
  - intros Hn. destruct (Hone Hn) as [-> ->].
    destruct (closing_run_turns _ _ _ _ _ Hc) as (gs & Hlen & Hm & Hturn).
    destruct gs as [|g gs]; [|simpl in Hlen; lia].
    apply matched_in_turn_nil in Hturn. simpl in Hm.
    assert (s1 = self) as -> by (destruct s1, self; simpl in *; by subst).
    done.
Qed.

Lemma code_after_allocate_trades_witness :
  code (mkElement {[ 1 := ex_group ]} []) = TypeError.
Proof.
  destruct (code_after_allocate_trades 3 true ex_element 2
              (mkElement {[ 1 := ex_group ]} [])) as [H _];
    [by vm_compute|].
  apply H. exists ex_sell. split; [right; by left|done].
Defined.

(** ** The CGT toggle *)

Lemma same_day_lookup_quiet tm L :
  no_same_day tm L → idx_of_last_trade_same_day L tm = None.
Proof.
  intros H. unfold idx_of_last_trade_same_day.
  by rewrite (find_indices_none _ _ _ H).
Qed.

Lemma next_30days_lookup_quiet tm L :
  no_next_30days tm L → idx_of_first_trade_next_30days L tm = None.
Proof.
  intros H. unfold idx_of_first_trade_next_30days.
  by rewrite (find_indices_none _ _ _ H).
Qed.

(** Without same-day and 30-day candidates the first two tiers do
    nothing. *)
Lemma run_tiers_quiet fuel tm s :
  no_same_day tm (unmatched s) → no_next_30days tm (unmatched s) →
  run_tiers (S fuel) tm true s = run_tiers (S fuel) tm false s.
Proof.
  intros H1 H2. unfold run_tiers. cbn [same_day_loop within_month_loop].
  destruct (is_unmatched (new_group tm)) eqn:E;
    unfold mbind, tax_bind, bind, ask, mret, tax_ret, ret.
  - rewrite (same_day_lookup_quiet _ _ H1), E.
    by rewrite (next_30days_lookup_quiet _ _ H2).
  - by rewrite E.
Qed.

Lemma match_for_group_quiet fuel tm s :
  no_same_day tm (unmatched s) → no_next_30days tm (unmatched s) →
  match_for_group (S fuel) tm true s = match_for_group (S fuel) tm false s.
Proof.
  intros H1 H2. unfold match_for_group, mbind, tax_bind, bind.
  by rewrite run_tiers_quiet.
Qed.

(** X11.  For a closing trade without a counter-trade on its day or in the
    30 days after it the CGT toggle makes no difference: [match_for_group]
    gives the same group, the same ledger or the same exception either
    way. *)
Theorem match_for_group_toggle (fuel : nat) (trade_to_match : Trade)
    (CGTcalc CGTcalc' : bool) (self : TaxCalcElement) :
  no_same_day trade_to_match (unmatched self) →
  no_next_30days trade_to_match (unmatched self) →
  match_for_group (S fuel) trade_to_match CGTcalc self
  = match_for_group (S fuel) trade_to_match CGTcalc' self.
Proof.
  intros H1 H2. pose proof (match_for_group_quiet fuel _ _ H1 H2) as E.
  destruct CGTcalc, CGTcalc'; done.
Qed.

Lemma match_for_group_toggle_witness :
  match_for_group 2 ex_sell true (mkElement ∅ [ex_buy])
  = match_for_group 2 ex_sell false (mkElement ∅ [ex_buy]).
Proof.
  apply (match_for_group_toggle 1 ex_sell true false (mkElement ∅ [ex_buy]));
    repeat constructor.
Defined.

Lemma opposite_side_comm a b : opposite_side a b = opposite_side b a.
Proof.
  unfold opposite_side.
  destruct (Qlt_bool 0 (Quantity a)), (Qlt_bool (Quantity b) 0),
    (Qlt_bool (Quantity a) 0), (Qlt_bool 0 (Quantity b)); done.
Qed.

Lemma like_same_day_match_ref r' r t :
  like r' r → same_day_match r' t = same_day_match r t.
Proof.
  intros Hl. unfold same_day_match.
  rewrite !(opposite_side_comm t), (like_opposite_side _ _ _ Hl).
  destruct Hl as (_ & -> & _). done.
Qed.

Lemma like_next_30days_match_ref r' r t :
  like r' r → next_30days_match r' t = next_30days_match r t.
Proof.
  intros Hl. unfold next_30days_match.
  rewrite !(opposite_side_comm t), (like_opposite_side _ _ _ Hl).
  destruct Hl as (_ & -> & _). done.
Qed.

Lemma no_cgt_pairs_refines L' L :
  refines L' L → no_cgt_pairs L → no_cgt_pairs L'.
Proof.
  intros Hr Hq t' u' Ht Hu.
  destruct (Hr t' Ht) as (t & Hin & Hl).
  destruct (Hr u' Hu) as (u & Hin' & Hl').
  destruct (Hq t u Hin Hin') as [H1 H2].
  rewrite (like_same_day_match_ref _ _ _ Hl), (like_same_day_match _ _ _ Hl').
  rewrite (like_next_30days_match_ref _ _ _ Hl),
    (like_next_30days_match _ _ _ Hl'), (like_is_close _ _ Hl).
  done.
Qed.

Lemma closing_loop_toggle fuel n s :
  (length (unmatched s) < fuel)%nat → no_cgt_pairs (unmatched s) →
  closing_loop fuel true n s = closing_loop fuel false n s.
Proof.
  revert n s. induction fuel as [|fuel IH]; intros n s Hfuel Hq; [done|].
  cbn [closing_loop]. unfold mbind, tax_bind, bind, on_unmatched.
  destruct (pop_earliest_closing_trade (unmatched s)) as [[t|] L] eqn:E;
    [|done].
  apply pop_earliest_Some in E as (i & Hi & -> & Hc & _).
  pose proof (lookup_lt_Some _ _ _ Hi) as Hlt.
  pose proof (length_delete _ _ (mk_is_Some _ _ Hi)) as Hdel.
  assert (t ∈ unmatched s) as Hin by by eapply list_elem_of_lookup_2.
  destruct fuel as [|fuel]; [lia|].
  rewrite match_for_group_quiet; cycle 1.
  { apply Forall_forall. intros u Hu%refines_delete.
    destruct Hu as (u0 & Hu0 & Hl).
    rewrite (like_same_day_match _ _ _ Hl). by apply Hq. }
  { apply Forall_forall. intros u Hu%refines_delete.
    destruct Hu as (u0 & Hu0 & Hl).
    rewrite (like_next_30days_match _ _ _ Hl). by apply Hq. }
  destruct (match_for_group (S fuel) t false _) as [[g s1]|e] eqn:Em; [|done].
  apply match_for_group_spec in Em as (_ & _ & _ & Hr & Hl). simpl in Hr, Hl.
  unfold record_group. apply IH; simpl.
  - lia.
  - eapply no_cgt_pairs_refines; [|done].
    eapply refines_trans; [done|apply refines_delete].
Qed.

Lemma leftover_loop_toggle fuel n s :
  (length (unmatched s) < fuel)%nat → no_cgt_pairs (unmatched s) →
  leftover_loop fuel true n s = leftover_loop fuel false n s.
Proof.
  revert n s. induction fuel as [|fuel IH]; intros n s Hfuel Hq; [done|].
  cbn [leftover_loop]. unfold mbind, tax_bind, bind, on_unmatched, ask.
  case_bool_decide as Hk; [|done]. cbn [unmatched matched].
  destruct (pop_last (date_sort (unmatched s))) as [[t L]|e] eqn:E; [|done].
  apply pop_last_sorted in E as [Hp Hmax].
  assert (length (unmatched s) = S (length L)) as Hlen.
  { rewrite <-(Permutation_length Hp), length_app. simpl. lia. }
  assert (∀ u, u ∈ L → u ∈ unmatched s) as Hsub.
  { intros u Hu. rewrite <-Hp. apply elem_of_app. by left. }
  assert (t ∈ unmatched s) as Hin.
  { rewrite <-Hp. apply elem_of_app. right. by left. }
  destruct fuel as [|fuel]; [lia|].
  rewrite match_for_group_quiet; cycle 1.
  { apply Forall_forall. intros u Hu. by apply (Hq t u), Hsub. }
  { apply Forall_forall. intros u Hu. unfold next_30days_match.
    rewrite bool_decide_eq_false_2; [done|].
    specialize (Hmax u (Hsub u Hu)). simpl. lia. }
  destruct (match_for_group (S fuel) _ false _) as [[g s1]|e] eqn:Em; [|done].
  apply match_for_group_spec in Em as (_ & _ & _ & Hr & Hl). simpl in Hr, Hl.
  unfold record_group. apply IH; simpl.
  - lia.
  - eapply no_cgt_pairs_refines; [|done].
    eapply refines_trans; [done|].
    intros u Hu. exists u. split; [by apply Hsub|apply like_refl].
Qed.

Lemma no_cgt_pairs_Forall L :
  Forall (fun t =>
    Forall (fun u =>
      same_day_match t u = false
      ∧ (is_close t = true → next_30days_match t u = false)) L) L →
  no_cgt_pairs L.
Proof.
  intros H t u Ht Hu.
  eapply Forall_forall in H; [|exact Ht].
  eapply Forall_forall in H; [|exact Hu]. done.
Qed.

(** X12.  The CGT toggle matters only where the CGT rules find something:
    on a ledger in which no trade has a counter-trade on its own day and no
    trade typed Close has one in the 30 days after it, [allocate_trades]
    gives the same numbers, groups and remaining ledger, or the same
    exception, with the toggle on and off. *)
Theorem allocate_trades_toggle (fuel : nat) (self : TaxCalcElement) :
  (length (unmatched self) < fuel)%nat →
  no_cgt_pairs (unmatched self) →
  allocate_trades fuel true self = allocate_trades fuel false self.
Proof.
  intros Hfuel Hq. unfold allocate_trades, mbind, tax_bind, bind.
  rewrite closing_loop_toggle by done.
  destruct (closing_loop fuel false 1 self) as [[n1 s1]|e] eqn:Ec; [|done].
  apply closing_loop_run, closing_run_spec in Ec
    as (gs & _ & _ & Hr & Hl & _).
  unfold ask. case_bool_decide; [|done].
  destruct (Qeq_bool _ _); [|done].
  rewrite leftover_loop_toggle; [done|lia|].
  by eapply no_cgt_pairs_refines.
Qed.

Lemma allocate_trades_toggle_witness :
  allocate_trades 3 true ex_element = allocate_trades 3 false ex_element.
Proof.
  apply (allocate_trades_toggle 3 ex_element); [simpl; lia|].
  apply no_cgt_pairs_Forall. repeat constructor; by vm_compute.
Defined.

(** ** A closing trade with nothing to match *)

Lemma count_unmatched_new_group tm :
  (count_unmatched (new_group tm) == Quantity tm)%Q.
Proof. apply Qplus_0_r. Qed.

Lemma match_for_group_nothing fuel tm CGT s :
  ¬ (Quantity tm == 0)%Q →
  (CGT = true →
   no_same_day tm (unmatched s) ∧ no_next_30days tm (unmatched s)) →
  Forall (fun t => Date tm ≤ Date t) (unmatched s) →
  match_for_group (S fuel) tm CGT s
  = Raise (CantFindMatch (count_unmatched (new_group tm)) tm).
Proof.
  intros Hq Hcgt Hb.
  assert (match_for_group (S fuel) tm CGT s
          = match_for_group (S fuel) tm false s) as ->.
  { destruct CGT; [|done]. destruct Hcgt as [H1 H2]; [done|].
    by apply match_for_group_quiet. }
  assert (is_unmatched (new_group tm) = true) as Hu.
  { apply is_unmatched_true. by rewrite count_unmatched_new_group. }
  unfold match_for_group, run_tiers, s104_tier.
  unfold mbind, tax_bind, bind, mret, tax_ret, ret, ask. rewrite Hu.
  unfold idx_of_trades_before_datetime. rewrite find_indices_none.
  - simpl. by rewrite Hu.
  - eapply Forall_impl; [exact Hb|]. intros t Ht. unfold before_match.
    apply bool_decide_eq_false_2. simpl in Ht. lia.
Qed.

(** X13.  A closing trade without any counter-trade is fatal.  With nothing
    dated before it in the ledger, and with CGT-style matching nothing on
    the other side on its day or in the 30 days after it either,
    [match_for_group] raises for the whole quantity of the closing trade;
    and when that closing trade is the earliest of a ledger,
    [allocate_trades] ends with that exception. *)
Theorem closing_trade_without_match (fuel : nat) (trade_to_match : Trade)
    (CGTcalc : bool) (self : TaxCalcElement) :
  ¬ (Quantity trade_to_match == 0)%Q →
  (CGTcalc = true →
   no_same_day trade_to_match (unmatched self)
   ∧ no_next_30days trade_to_match (unmatched self)) →
  Forall (fun t => Date trade_to_match ≤ Date t) (unmatched self) →
  (count_unmatched (new_group trade_to_match) == Quantity trade_to_match)%Q
  ∧ match_for_group (S fuel) trade_to_match CGTcalc self
    = Raise (CantFindMatch (count_unmatched (new_group trade_to_match))
                           trade_to_match)
  ∧ ∀ self0,
      pop_earliest_closing_trade (unmatched self0)
      = (Some trade_to_match, unmatched self) →
      matched self0 = matched self →
      allocate_trades (S (S fuel)) CGTcalc self0
      = Raise (CantFindMatch (count_unmatched (new_group trade_to_match))
                             trade_to_match).
Proof.
  intros Hq Hcgt Hb.
  pose proof (match_for_group_nothing fuel _ _ _ Hq Hcgt Hb) as Hm.
  split_and!; [apply count_unmatched_new_group|done|].
  intros self0 Hpop Hmatched. unfold allocate_trades.
  cbn [closing_loop]. unfold mbind, tax_bind, bind, on_unmatched.
  rewrite Hpop, Hmatched, element_eta. by rewrite Hm.
Qed.

Lemma closing_trade_without_match_witness :
  allocate_trades 2 true (mkElement ∅ [ex_sell])
  = Raise (CantFindMatch (count_unmatched (new_group ex_sell)) ex_sell)
  ∧ allocate_trades 2 false (mkElement ∅ [ex_sell; ex_same_day; ex_later])
    = Raise (CantFindMatch (count_unmatched (new_group ex_sell)) ex_sell).
Proof.
  split.
  - apply (closing_trade_without_match 0 ex_sell true (mkElement ∅ [])).
    + by vm_compute.
    + intros _. split; constructor.
    + constructor.
    + by vm_compute.
    + done.
  - apply (closing_trade_without_match 0 ex_sell false
             (mkElement ∅ [ex_same_day; ex_later])).
    + by vm_compute.
    + discriminate.
    + repeat constructor; by vm_compute.
    + by vm_compute.
    + done.
Defined.

(** ** Where the groups come from *)

Lemma tier_run_pieces lookup append tm g s g' s' :
  tier_run lookup append tm g s g' s' →
  refines (unmatched s') (unmatched s)
  ∧ ∃ ps, g' = foldl append g ps
          ∧ Forall (fun p => ∃ t, t ∈ unmatched s ∧ like p t) ps.
Proof.
  induction 1 as [g s Hm|g s Hm Hl|g s i p L1 g' s' Hm Hl Hp Hrun IH].
  - split; [apply refines_refl|by exists []].
  - split; [apply refines_refl|by exists []].
  - destruct IH as (Hr & ps & -> & IH). simpl in IH, Hr.
    pose proof (partial_pop_idx_refines _ _ _ _ _ Hp) as Hr1.
    split; [by eapply refines_trans|].
    exists (p :: ps). split; [done|]. constructor.
    + apply is_unmatched_true in Hm.
      destruct (partial_pop_idx_like _ _ _ _ _ Hp Hm) as (t & Hi & Hlike).
      exists t. split; [by eapply list_elem_of_lookup_2|done].
    + eapply Forall_impl; [exact IH|]. intros p' (t' & Hin & Hlike).
      destruct (Hr1 t' Hin) as (t & Hin' & Hlike').
      exists t. split; [done|by eapply like_trans].
Qed.

Lemma elem_of_select_idx idxs l i t : t ∈ select_idx idxs l i → t ∈ l.
Proof.
  revert i. induction l as [|u l IH]; intros i; simpl; [done|].
  case_bool_decide.
  - intros [-> | Hin]%elem_of_cons; [by left|right; by eapply IH].
  - intros Hin. right. by eapply IH.
Qed.

Lemma proportionate_pop_pieces idxs target L ps L' :
  _proportionate_pop_idx idxs target L = Ok (ps, L') →
  ¬ (target == 0)%Q →
  Forall (fun p => ∃ t, t ∈ L ∧ like p t) ps.
Proof.
  intros H Hne. apply proportionate_pop_inv in H as [Hle H].
  cbv zeta in H. apply Forall_forall. intros p Hp.
  destruct H as [(_ & -> & _)|(_ & -> & _)].
  - exists p. split; [by eapply elem_of_select_idx|apply like_refl].
  - apply list_elem_of_fmap in Hp as (t & -> & Hin).
    exists t. split; [by eapply elem_of_select_idx|].
    apply scale_trade_like. apply Qlt_shift_div_l.
    + qabs target; qabs (final_position (select_idx idxs L 0)); lra.
    + qabs target; lra.
Qed.

(** The pieces of a group are trades of the ledger or parts of them. *)
Lemma match_for_group_pieces fuel tm CGT s g s' :
  match_for_group fuel tm CGT s = Ok (g, s') →
  Forall (fun p => ∃ t, t ∈ unmatched s ∧ like p t) (matches_as_tradelist g).
Proof.
  intros [H _]%match_for_group_Ok.
  apply run_tiers_inv in H as (g2 & s2 & Hcgt & Hs).
  assert (refines (unmatched s2) (unmatched s)
          ∧ Forall (fun p => ∃ t, t ∈ unmatched s ∧ like p t)
              (same_day g2 ++ within_month g2)
          ∧ s104 g2 = []) as (Hr & Hps & Hs104).
  { destruct CGT.
    - destruct Hcgt as (g1 & s1 & H1 & H2).
      destruct (tier_run_pieces _ _ _ _ _ _ _ H1) as (Hr1 & ps1 & -> & Hp1).
      destruct (tier_run_pieces _ _ _ _ _ _ _ H2) as (Hr2 & ps2 & -> & Hp2).
      rewrite foldl_append_within_month, foldl_append_same_day. simpl.
      split_and!; [by eapply refines_trans| |done].
      apply Forall_app. split; [done|].
      eapply Forall_impl; [exact Hp2|]. intros p (t' & Hin & Hl).
      destruct (Hr1 t' Hin) as (t & Hin' & Hl').
      exists t. split; [done|by eapply like_trans].
    - destruct Hcgt as [-> ->]. simpl.
      split_and!; [apply refines_refl|constructor|done]. }
  unfold matches_as_tradelist.
  apply s104_tier_Ok in Hs
    as [(_ & -> & _)|[(_ & _ & -> & _)|(Hm & _ & ps & L' & Hpop & -> & _)]].
  - rewrite Hs104, app_nil_r, <-(app_nil_r (within_month g2)) at 1.
    by rewrite app_nil_r.
  - rewrite Hs104, app_nil_r, <-(app_nil_r (within_month g2)) at 1.
    by rewrite app_nil_r.
  - simpl. rewrite app_assoc. apply Forall_app. split; [done|].
    apply is_unmatched_true in Hm.
    eapply Forall_impl;
      [exact (proportionate_pop_pieces _ _ _ _ _ Hpop Hm)|].
    intros p (t' & Hin & Hl).
    destruct (Hr t' Hin) as (t & Hin' & Hl').
    exists t. split; [done|by eapply like_trans].
Qed.

Section each_group.
Variable CGT : bool.
Variable P : TradeList → TaxCalcTradeGroup → Prop.
Hypothesis P_refines : ∀ L' L g, refines L' L → P L' g → P L g.
Hypothesis P_match : ∀ fuel tm s g s',
  match_for_group fuel tm CGT s = Ok (g, s') → P (unmatched s) g.

Lemma closing_run_each n s n' s' :
  closing_run CGT n s n' s' →
  ∀ k g, matched s' !! k = Some g →
    matched s !! k = Some g ∨ P (unmatched s) g.
Proof.
  induction 1 as [n s L Hpop|n s t L fuel g s1 n' s' Hpop Hm Hrun IH];
    intros k g' Hk; [by left|].
  apply pop_earliest_Some in Hpop as (i & Hi & -> & _).
  pose proof (P_match _ _ _ _ _ Hm) as HP.
  apply match_for_group_spec in Hm as (_ & _ & Hmatched & Hr & _).
  simpl in HP, Hmatched, Hr.
  destruct (IH k g' Hk) as [Hold|Hnew].
  - simpl in Hold. destruct (decide (k = n)) as [->|Hne].
    + rewrite lookup_insert_eq in Hold. injection Hold as ->. right.
      eapply P_refines; [apply refines_delete|done].
    + rewrite lookup_insert_ne in Hold by done. left. by rewrite <-Hmatched.
  - right. simpl in Hnew. eapply P_refines; [|exact Hnew].
    eapply refines_trans; [done|apply refines_delete].
Qed.

Lemma leftover_run_each n s n' s' :
  leftover_run CGT n s n' s' →
  ∀ k g, matched s' !! k = Some g →
    matched s !! k = Some g ∨ P (unmatched s) g.
Proof.
  induction 1 as [n s He|n s t L fuel g s1 n' s' Hne Hpop Hm Hrun IH];
    intros k g' Hk; [by left|].
  apply pop_last_sorted in Hpop as [Hp _].
  assert (refines L (unmatched s)) as HrL.
  { intros u Hu. exists u. split; [|apply like_refl].
    rewrite <-Hp. apply elem_of_app. by left. }
  pose proof (P_match _ _ _ _ _ Hm) as HP.
  apply match_for_group_spec in Hm as (_ & _ & Hmatched & Hr & _).
  simpl in HP, Hmatched, Hr.
  destruct (IH k g' Hk) as [Hold|Hnew].
  - simpl in Hold. destruct (decide (k = n)) as [->|Hne'].
    + rewrite lookup_insert_eq in Hold. injection Hold as ->. right.
      by eapply P_refines.
    + rewrite lookup_insert_ne in Hold by done. left. by rewrite <-Hmatched.
  - right. simpl in Hnew. eapply P_refines; [|exact Hnew].
    by eapply refines_trans.
Qed.

Lemma allocate_trades_each fuel s n s' :
  allocate_trades fuel CGT s = Ok (n, s') →
  ∀ k g, matched s' !! k = Some g →
    matched s !! k = Some g ∨ P (unmatched s) g.
Proof.
  intros H k g Hk. apply allocate_trades_inv in H as (n1 & s1 & Hc & H).
  apply closing_loop_run in Hc.
  pose proof (closing_run_each _ _ _ _ Hc) as Hc1.
  apply closing_run_spec in Hc as (_ & _ & _ & Hr & _).
  destruct H as [(_ & _ & ->)|(_ & _ & Hl & _)]; [by apply Hc1|].
  apply leftover_loop_run in Hl.
  destruct (leftover_run_each _ _ _ _ Hl k g Hk) as [Hold|Hnew].
  - by apply Hc1.
  - right. by eapply P_refines.
Qed.

End each_group.

(** X14.  The matching invents nothing: every piece in a group that
    [allocate_trades] records is a trade of the ledger it was given, or a
    part of one, with its code, date, type, price and side.  For a ledger
    of one code every recorded piece carries that code. *)
Theorem pieces_from_ledger (fuel : nat) (CGTcalc : bool)
    (self : TaxCalcElement) (n : Z) (self' : TaxCalcElement) :
  allocate_trades fuel CGTcalc self = Ok (n, self') →
  ∀ k g, matched self' !! k = Some g →
    matched self !! k = Some g
    ∨ (∀ p, p ∈ matches_as_tradelist g →
         ∃ t, t ∈ unmatched self ∧ like p t)
      ∧ (∀ c, (∀ t, t ∈ unmatched self → Code t = c) →
           ∀ p, p ∈ matches_as_tradelist g → Code p = c).
Proof.
  intros H k g Hk.
  destruct (allocate_trades_each CGTcalc
    (fun L g => ∀ p, p ∈ matches_as_tradelist g → ∃ t, t ∈ L ∧ like p t))
    with (3 := H) (4 := Hk) as [Hold|Hnew].
  - intros L' L g0 Hr HP p Hp. destruct (HP p Hp) as (t' & Hin & Hl).
    destruct (Hr t' Hin) as (t & Hin' & Hl').
    exists t. split; [done|by eapply like_trans].
  - intros fuel0 tm s g0 s0 Hm p Hp.
    apply match_for_group_pieces in Hm.
    by eapply Forall_forall in Hm.
  - by left.
  - right. split; [done|]. intros c Hc p Hp.
    destruct (Hnew p Hp) as (t & Hin & (-> & _)). by apply Hc.
Qed.

Lemma pieces_from_ledger_witness :
  ∃ t, t ∈ ex_ledger ∧ like ex_buy t.
Proof.
  destruct (pieces_from_ledger 3 true ex_element 2
              (mkElement {[ 1 := ex_group ]} []) eq_refl 1 ex_group)
    as [H|[H _]]; [by vm_compute|by vm_compute in H|].
  apply (H ex_buy). by left.
Defined.

(** X15.  With CGT-style matching switched off every group that
    [allocate_trades] records is matched from the pool alone: its same-day
    and 30-day lists are empty. *)
Theorem allocate_trades_pooled_only (fuel : nat) (self : TaxCalcElement)
    (n : Z) (self' : TaxCalcElement) :
  allocate_trades fuel false self = Ok (n, self') →
  ∀ k g, matched self' !! k = Some g →
    matched self !! k = Some g
    ∨ same_day g = [] ∧ within_month g = [].
Proof.
  intros H k g Hk.
  apply (allocate_trades_each false
    (fun _ g => same_day g = [] ∧ within_month g = []))
    with (3 := H) (4 := Hk).
  - by intros.
  - intros fuel0 tm s g0 s0 [Hm _]%match_for_group_Ok.
    apply run_tiers_spec in Hm as (_ & _ & _ & _ & Hoff & _). by apply Hoff.
Qed.

Lemma allocate_trades_pooled_only_witness :
  same_day ex_group = [] ∧ within_month ex_group = [].
Proof.
  destruct (allocate_trades_pooled_only 3 ex_element 2
              (mkElement {[ 1 := ex_group ]} []) eq_refl 1 ex_group)
    as [H|H]; [by vm_compute|by vm_compute in H|exact H].
Defined.

(** ** The order of the reports *)

Lemma StronglySorted_seqZ m n : StronglySorted Z.le (seqZ m n).
Proof.
  destruct (decide (n ≤ 0)) as [Hn|Hn];
    [rewrite seqZ_nil by done; constructor|].
  rewrite <-(Z2Nat.id n) by lia. generalize (Z.to_nat n). clear. intros k.
  revert m. induction k as [|k IH]; intros m;
    [rewrite seqZ_nil by done; constructor|].
  rewrite seqZ_cons by lia.
  replace (Z.pred (Z.of_nat (S k))) with (Z.of_nat k) by lia.
  constructor; [apply IH|]. apply Forall_seqZ. lia.
Qed.

Lemma sorted_keys_record_all (gs : list TaxCalcTradeGroup) :
  merge_sort Z.le (map_to_list (record_all 1 gs ∅)).*1
  = seqZ 1 (Z.of_nat (length gs)).
Proof.
  apply (StronglySorted_unique Z.le).
  - apply StronglySorted_merge_sort; apply _.
  - apply StronglySorted_seqZ.
  - rewrite merge_sort_Permutation. apply NoDup_Permutation.
    + apply NoDup_fst_map_to_list.
    + apply NoDup_seqZ.
    + intros k. rewrite elem_of_seqZ, list_elem_of_fmap. split.
      * intros ([k' g] & -> & Hin%elem_of_map_to_list). simpl.
        destruct (decide (1 ≤ k' < 1 + Z.of_nat (length gs))); [done|].
        rewrite record_all_lookup_old in Hin by done.
        by rewrite lookup_empty in Hin.
      * intros Hk.
        destruct (lookup_lt_is_Some_2 gs (Z.to_nat (k - 1))) as [g Hg];
          [lia|].
        exists (k, g). split; [done|]. apply elem_of_map_to_list.
        by rewrite record_all_lookup_new.
Qed.

Lemma omap_record_all {B} (f : TaxCalcTradeGroup → B) gs n m :
  omap (fun k => f <$> record_all n gs m !! k) (seqZ n (Z.of_nat (length gs)))
  = f <$> gs.
Proof.
  revert n m. induction gs as [|g gs IH]; intros n m; [done|].
  rewrite seqZ_cons by (simpl; lia).
  replace (Z.pred (Z.of_nat (length (g :: gs))))
    with (Z.of_nat (length gs)) by (simpl; lia).
  cbn [omap list_omap]. rewrite record_all_lookup_new by (simpl; lia).
  rewrite Z.sub_diag. cbn [record_all]. csimpl. f_equal. apply IH.
Qed.

(** X16.  For an element matched from scratch the reports follow the order
    of the matching: the profits of a code and its closing dates list the
    groups in the order in which [allocate_trades] recorded them, one entry
    for each group. *)
Theorem reports_in_matching_order
    (group_display_taxes : Z → bool → TaxCalcTradeGroup → TaxTuple)
    (taxyear : Z) (CGTCalc : bool)
    (fuel : nat) (CGTcalc : bool) (self : TaxCalcElement)
    (n : Z) (self' : TaxCalcElement) :
  matched self = ∅ →
  allocate_trades fuel CGTcalc self = Ok (n, self') →
  ∃ gs,
    n = 1 + Z.of_nat (length gs)
    ∧ (∀ i, matched self' !! (1 + Z.of_nat i) = gs !! i)
    ∧ return_profits_for_code group_display_taxes taxyear CGTCalc self'
      = (fun g => gbp_net_profit (group_display_taxes taxyear CGTCalc g))
          <$> gs
    ∧ closing_trade_dates self' = (fun g => Date (closing_trade g)) <$> gs.
Proof.
  intros He H. apply allocate_trades_groups in H as (gs & -> & Hm & _).
  rewrite He in Hm. exists gs. split_and!.
  - done.
  - intros i. rewrite Hm. destruct (decide (i < length gs)%nat).
    + rewrite record_all_lookup_new by lia. f_equal. lia.
    + rewrite record_all_lookup_old, lookup_empty by lia.
      symmetry. apply lookup_ge_None. lia.
  - unfold return_profits_for_code, taxdata_of, groupidlist.
    rewrite Hm, sorted_keys_record_all, omap_record_all.
    by rewrite <-list_fmap_compose.
  - unfold closing_trade_dates.
    by rewrite Hm, sorted_keys_record_all, omap_record_all.
Qed.

Lemma reports_in_matching_order_witness :
  ∃ gs, return_profits_for_code ex_display 2022 true
          (mkElement {[ 1 := ex_group ]} [])
        = (fun g => gbp_net_profit (ex_display 2022 true g)) <$> gs
        ∧ closing_trade_dates (mkElement {[ 1 := ex_group ]} [])
          = (fun g => Date (closing_trade g)) <$> gs.
Proof.
  destruct (reports_in_matching_order ex_display 2022 true 3 true ex_element
              2 (mkElement {[ 1 := ex_group ]} []))
    as (gs & _ & _ & H1 & H2); [done|by vm_compute|].
  by exists gs.
Defined.

(** ** The net position *)

Lemma final_position_perm L L' :
  L ≡ₚ L' → (final_position L == final_position L')%Q.
Proof.
  induction 1 as [|x l l' _ IH|x y l|l1 l2 l3 _ IH1 _ IH2].
  - reflexivity.
  - rewrite !final_position_cons, IH. reflexivity.
  - rewrite !final_position_cons. lra.
  - by rewrite IH1.
Qed.

Lemma final_position_delete i L t :
  L !! i = Some t →
  (final_position (delete i L) + Quantity t == final_position L)%Q.
Proof.
  revert i. induction L as [|u L IH]; intros [|i] Hi; try done.
  - injection Hi as ->.
    change (final_position L + Quantity t == final_position (t :: L))%Q.
    rewrite final_position_cons. lra.
  - change (final_position (u :: delete i L) + Quantity t
            == final_position (u :: L))%Q.
    rewrite !final_position_cons. specialize (IH i Hi). lra.
Qed.

Lemma final_position_insert i L t r :
  L !! i = Some t →
  (final_position (<[i := r]> L) + Quantity t
   == final_position L + Quantity r)%Q.
Proof.
  revert i. induction L as [|u L IH]; intros [|i] Hi; try done.
  - injection Hi as ->.
    change (final_position (r :: L) + Quantity t
            == final_position (t :: L) + Quantity r)%Q.
    rewrite !final_position_cons. lra.
  - change (final_position (u :: <[i := r]> L) + Quantity t
            == final_position (u :: L) + Quantity r)%Q.
    rewrite !final_position_cons. specialize (IH i Hi). lra.
Qed.

(** A partial pop takes out of the ledger what the piece holds. *)
Lemma partial_pop_idx_position i q L p L' :
  partial_pop_idx i q L = Ok (p, L') →
  (final_position L' + Quantity p == final_position L)%Q.
Proof.
  intros (t & Hi & [(_ & -> & ->)|(_ & -> & ->)])%partial_pop_idx_inv.
  - by apply final_position_delete.
  - pose proof (final_position_insert i L t
      (split_trade t (signed_like t q)).2 Hi) as H.
    cbn [split_trade fst snd Quantity] in *. lra.
Qed.

Lemma tier_run_position lookup append tm g s g' s' :
  (∀ g p, (count_unmatched (append g p)
           == count_unmatched g + Quantity p)%Q) →
  tier_run lookup append tm g s g' s' →
  (final_position (unmatched s') + count_unmatched g'
   == final_position (unmatched s) + count_unmatched g)%Q.
Proof.
  intros Hcount.
  induction 1 as [g s Hm|g s Hm Hl|g s i p L1 g' s' Hm Hl Hp Hrun IH];
    [reflexivity..|].
  apply partial_pop_idx_position in Hp. cbn [unmatched] in IH.
  rewrite Hcount in IH. lra.
Qed.

Lemma take_whole_position idxs l i :
  (final_position (rewrite_idx (fun _ => None) idxs l i)
   + final_position (select_idx idxs l i) == final_position l)%Q.
Proof.
  revert i. induction l as [|t l IH]; intros i;
    cbn [rewrite_idx select_idx]; [reflexivity|].
  specialize (IH (S i)). case_bool_decide; rewrite !final_position_cons; lra.
Qed.

Lemma take_share_position f idxs l i :
  (final_position
     (rewrite_idx (fun t => Some (scale_trade (1 - f) t)) idxs l i)
   + final_position (scale_trade f <$> select_idx idxs l i)
   == final_position l)%Q.
Proof.
  revert i. induction l as [|t l IH]; intros i;
    cbn [rewrite_idx select_idx]; [reflexivity|].
  specialize (IH (S i)). case_bool_decide.
  - rewrite fmap_cons, !final_position_cons.
    cbn [scale_trade Quantity]. lra.
  - rewrite !final_position_cons. lra.
Qed.

(** A proportionate pop takes out of the ledger what the pieces hold. *)
Lemma proportionate_pop_position idxs target L ps L' :
  _proportionate_pop_idx idxs target L = Ok (ps, L') →
  (final_position L' + final_position ps == final_position L)%Q.
Proof.
  intros [_ H]%proportionate_pop_inv. cbv zeta in H.
  destruct H as [(_ & -> & ->)|(_ & -> & ->)].
  - apply take_whole_position.
  - apply take_share_position.
Qed.

(** The ledger loses what the group gains: a group that is returned has
    taken the opposite of the closing quantity out of the ledger. *)
Lemma match_for_group_position fuel tm CGT s g s' :
  match_for_group fuel tm CGT s = Ok (g, s') →
  (final_position (unmatched s')
   == final_position (unmatched s) + Quantity tm)%Q.
Proof.
  intros [H Hm]%match_for_group_Ok. apply is_unmatched_false in Hm.
  apply run_tiers_inv in H as (g2 & s2 & Hcgt & Hs).
  assert ((final_position (unmatched s2) + count_unmatched g2
           == final_position (unmatched s) + Quantity tm)%Q
          ∧ s104 g2 = []) as [Hpos Hs104].
  { destruct CGT.
    - destruct Hcgt as (g1 & s1 & H1 & H2).
      pose proof (tier_run_position _ _ _ _ _ _ _ append_same_day_count H1)
        as E1.
      pose proof (tier_run_position _ _ _ _ _ _ _ append_within_month_count
                    H2) as E2.
      destruct (tier_run_pieces _ _ _ _ _ _ _ H1) as (_ & ps1 & -> & _).
      destruct (tier_run_pieces _ _ _ _ _ _ _ H2) as (_ & ps2 & -> & _).
      rewrite count_unmatched_new_group in E1. split; [lra|].
      by rewrite foldl_append_within_month, foldl_append_same_day.
    - destruct Hcgt as [-> ->]. split; [|done].
      rewrite count_unmatched_new_group. lra. }
  apply s104_tier_Ok in Hs
    as [(_ & -> & ->)|[(_ & _ & -> & ->)|(_ & _ & ps & L' & Hpop & -> & ->)]];
    [lra..|].
  apply proportionate_pop_position in Hpop. cbn [unmatched].
  assert (count_unmatched (set_s104 g2 ps)
          == count_unmatched g2 + final_position ps)%Q as E.
  { unfold count_unmatched, matches_as_tradelist, set_s104.
    cbn [closing_trade same_day within_month s104]. rewrite Hs104.
    rewrite !final_position_app. change (final_position []) with 0%Q. lra. }
  lra.
Qed.

Lemma closing_run_position CGT n s n' s' :
  closing_run CGT n s n' s' →
  (final_position (unmatched s') == final_position (unmatched s))%Q.
Proof.
  induction 1 as [n s L Hpop|n s t L fuel g s1 n' s' Hpop Hm Hrun IH].
  - apply pop_earliest_None in Hpop as [-> _]. reflexivity.
  - apply pop_earliest_Some in Hpop as (i & Hi & -> & _).
    apply final_position_delete in Hi.
    apply match_for_group_position in Hm. cbn [unmatched recorded] in *.
    lra.
Qed.

Lemma leftover_run_position CGT n s n' s' :
  leftover_run CGT n s n' s' →
  (final_position (unmatched s') == final_position (unmatched s))%Q.
Proof.
  induction 1 as [n s He|n s t L fuel g s1 n' s' Hne Hpop Hm Hrun IH];
    [reflexivity|].
  apply pop_last_sorted in Hpop as [Hp _].
  apply final_position_perm in Hp. rewrite final_position_app in Hp.
  change (final_position [t]) with (Quantity t + 0)%Q in Hp.
  apply match_for_group_position in Hm.
  cbn [unmatched recorded modify Quantity] in *. lra.
Qed.

(** X17.  The matching never changes the net position of a ledger: each
    group takes its closing trade and pieces of the opposite quantity, so
    what [allocate_trades] leaves unmatched nets to what it was given.  A
    ledger that is matched completely had a net position of zero. *)
Theorem allocate_trades_net_position (fuel : nat) (CGTcalc : bool)
    (self : TaxCalcElement) (n : Z) (self' : TaxCalcElement) :
  allocate_trades fuel CGTcalc self = Ok (n, self') →
  (final_position (unmatched self') == final_position (unmatched self))%Q
  ∧ (unmatched self' = [] → (final_position (unmatched self) == 0)%Q).
Proof.
  intros H.
  assert (final_position (unmatched self')
          == final_position (unmatched self))%Q as E.
  { apply allocate_trades_inv in H as (n1 & s1 & Hc & H).
    apply closing_loop_run, closing_run_position in Hc.
    destruct H as [(_ & _ & ->)|(_ & _ & Hl & _)]; [done|].
    apply leftover_loop_run, leftover_run_position in Hl. by rewrite Hl. }
  split; [done|]. intros He. rewrite He in E. by rewrite <-E.
Qed.

Lemma allocate_trades_net_position_witness :
  (final_position [] == final_position ex_ledger)%Q.
Proof.
  destruct (allocate_trades_net_position 3 true ex_element 2
              (mkElement {[ 1 := ex_group ]} [])) as [H _];
    [by vm_compute|exact H].
Defined.

(** ** The win and loss figures of a dictionary *)

(** X19.  [win_loss_ratio_etc] computes its figures for the empty dictionary
    only, where both averages are not-a-number and both counts zero: as
    soon as the dictionary holds a code, the individual profits of the
    first code raise and no figure is returned. *)
Theorem win_loss_ratio_etc_spec
    (group_display_taxes : Z → bool → TaxCalcTradeGroup → TaxTuple)
    (tax_year : Z) (d : TaxCalcDict) :
  (d = ∅ →
     dict_individual_profits group_display_taxes tax_year d = Ok []
     ∧ win_loss_ratio_etc group_display_taxes tax_year d
       = Ok (nan, nan, 0%nat, 0%nat))
  ∧ (d ≠ ∅ →
     dict_individual_profits group_display_taxes tax_year d
     = Raise AttributeError
     ∧ win_loss_ratio_etc group_display_taxes tax_year d
       = Raise AttributeError).
Proof.
  split.
  - intros ->. unfold win_loss_ratio_etc, dict_individual_profits, sorted_codes.
    by rewrite map_to_list_empty.
  - intros Hne. split; [|by apply win_loss_ratio_etc_raises].
    pose proof (win_loss_ratio_etc_raises group_display_taxes tax_year d Hne)
      as H.
    unfold win_loss_ratio_etc in H.
    by destruct (dict_individual_profits _ _ _); simplify_eq.
Qed.

Lemma win_loss_ratio_etc_spec_witness :
  win_loss_ratio_etc ex_display 2022 ∅ = Ok (nan, nan, 0%nat, 0%nat)
  ∧ dict_individual_profits ex_display 2022 ex_dict = Raise AttributeError.
Proof.
  split.
  - by apply (win_loss_ratio_etc_spec ex_display 2022 ∅).
  - apply (win_loss_ratio_etc_spec ex_display 2022 ex_dict).
    unfold ex_dict. intros E.
    apply (f_equal (fun m => m !! "ABC"%string)) in E.
    rewrite lookup_singleton_eq, lookup_empty in E. discriminate.
Defined.
